(** * Rate-limiting core: token bucket and leaky bucket

    A shallow embedding of the three bucket families of the repository,

    - [src/rate_limiting/token_bucket.py], [src/rate_limiting/leaky_bucket.py]
      (one bucket per limiter, validated construction, [reset]);
    - [src/API BASED PRODUCTS/Question 3/token_bucket_python.py] and
      [leaky_bucket_python.py] (a limiter that keeps one bucket per client
      in a dictionary);
    - [src/API Project/question3_rate_limiting/leaky_bucket.py]
      (bounded deque, a third wait-time rule);

    and the properties of the design document that hold, or fail, on them.

    Modelling conventions.
    - Python numbers ([int] capacities and costs, [float] rates, token
      levels and timestamps) are exact rationals [Q]; binary64 rounding is
      not modelled.  Queue capacities, which the code compares with
      [len(...)], are integers [Z].
    - [time.time()] reads a clock that is part of the world: an arbitrary
      function from the number of earlier readings to the reading.  Nothing
      forces it to be monotone.
    - Methods are computations in a state-and-exception monad [M S A] over
      the object they mutate; an exception keeps the mutations made before
      it, as in Python.
    - [threading.Lock] is the identity on sequential runs; the interleaving
      model at the end of the definitions takes each [with lock:] block as
      one atomic step. *)

From Stdlib Require Import QArith Qminmax Qabs Lqa ZArith Lia.
From stdpp Require Import gmap strings list.

Local Open Scope Q_scope.

(** ** Python prelude *)

Module Py.

(** The exceptions the modelled code can raise.  [InvalidReference] is not
    a Python exception: it is what the model answers when a reference does
    not point into the store, which no well-formed registry does. *)
Inductive exn : Type :=
| ValueError (msg : string)
| ZeroDivisionError
| IndexError
| KeyError (key : string)
| InvalidReference (addr : nat).

Inductive Result (A : Type) : Type :=
| Ok (a : A)
| Raise (e : exn).
Arguments Ok {A} a.
Arguments Raise {A} e.

(** The wall clock: [clock n] is what the [n]-th call of [time.time()]
    returns, [reads] counts the calls made so far. *)
Record World : Type := mkWorld { clock : nat -> Q; reads : nat }.

Definition tick (w : World) : World :=
  {| clock := clock w; reads := S (reads w) |}.

Definition M (S A : Type) : Type := S -> World -> Result A * S * World.

Definition ret {S A} (a : A) : M S A := fun s w => (Ok a, s, w).

Definition raise {S A} (e : exn) : M S A := fun s w => (Raise e, s, w).

Definition bind {S A B} (m : M S A) (k : A -> M S B) : M S B :=
  fun s w =>
    match m s w with
    | (Ok a, s', w') => k a s' w'
    | (Raise e, s', w') => (Raise e, s', w')
    end.

Definition get {S} : M S S := fun s w => (Ok s, s, w).

Definition put {S} (s' : S) : M S unit := fun _ w => (Ok tt, s', w).

Definition time_time {S} : M S Q :=
  fun s w => (Ok (clock w (reads w)), s, tick w).

(** Run a method of a sub-object that the object owns by value. *)
Definition zoom {S T A} (proj : S -> T) (upd : T -> S -> S) (m : M T A)
  : M S A :=
  fun s w => let '(r, t', w') := m (proj s) w in (r, upd t' s, w').

(** Run the body of a constructor on the object under construction, which
    no state refers to yet. *)
Definition on_new {S O} (o : O) (m : M O unit) : M S O :=
  fun s w =>
    match m o w with
    | (Ok _, o', w') => (Ok o', s, w')
    | (Raise e, _, w') => (Raise e, s, w')
    end.

(** [try: m / except Exception: pass] *)
Definition attempt {S A} (m : M S A) : M S unit :=
  fun s w => let '(_, s', w') := m s w in (Ok tt, s', w').

Definition result {S A} (x : Result A * S * World) : Result A := fst (fst x).
Definition state {S A} (x : Result A * S * World) : S := snd (fst x).
Definition world {S A} (x : Result A * S * World) : World := snd x.

(** Comparisons, [min], [max], [int] and [/] as Python evaluates them. *)
Definition Qltb (x y : Q) : bool :=
  match x ?= y with Lt => true | _ => false end.

Definition Qleb (x y : Q) : bool :=
  match x ?= y with Gt => false | _ => true end.

(** [min(a, b)] returns [a] unless [b < a]; [max(a, b)] returns [a] unless
    [b > a]. *)
Definition py_min (a b : Q) : Q := if Qltb b a then b else a.
Definition py_max (a b : Q) : Q := if Qltb a b then b else a.

(** [int(x)] truncates towards zero. *)
Definition py_int (x : Q) : Z := Z.quot (Qnum x) (Zpos (Qden x)).

(** [a / b] raises [ZeroDivisionError] when [b] is zero. *)
Definition py_div {S} (a b : Q) : M S Q :=
  if Qeq_bool b 0 then raise ZeroDivisionError else ret (a / b).

End Py.

Import Py.

Declare Scope py_scope.
Delimit Scope py_scope with py.
Notation "x <- c ;; k" := (bind c (fun x => k))
  (at level 20, c at level 99, k at level 200, only parsing) : py_scope.
Notation "c ;; k" := (bind c (fun _ => k))
  (at level 100, k at level 200, right associativity, only parsing) : py_scope.
Local Open Scope py_scope.

(** ** [src/rate_limiting/token_bucket.py] *)

Module RlToken.

Record TokenBucket : Type := mkTokenBucket {
  capacity : Q;
  refill_rate : Q;
  tokens : Q;
  last_refill : Q
}.

Definition set_tokens (v : Q) (self : TokenBucket) : TokenBucket :=
  {| capacity := capacity self; refill_rate := refill_rate self;
     tokens := v; last_refill := last_refill self |}.

Definition set_last_refill (v : Q) (self : TokenBucket) : TokenBucket :=
  {| capacity := capacity self; refill_rate := refill_rate self;
     tokens := tokens self; last_refill := v |}.

(** [TokenBucket.__init__]: the object under construction is the result. *)
Definition __init__ {S} (capacity refill_rate : Q) : M S TokenBucket :=
  if Qleb capacity 0 then raise (ValueError "Capacity must be positive")
  else if Qleb refill_rate 0 then
    raise (ValueError "Refill rate must be positive")
  else
    now <- time_time ;;
    ret {| capacity := capacity; refill_rate := refill_rate;
           tokens := capacity; last_refill := now |}.

Definition _refill_tokens : M TokenBucket unit :=
  current_time <- time_time ;;
  self <- get ;;
  let elapsed := current_time - last_refill self in
  let tokens_to_add := elapsed * refill_rate self in
  if Qltb 0 tokens_to_add then
    put (set_last_refill current_time
           (set_tokens (py_min (capacity self) (tokens self + tokens_to_add))
              self))
  else ret tt.

Definition consume (tokens_ : Q) : M TokenBucket bool :=
  _refill_tokens ;;
  self <- get ;;
  if Qleb tokens_ (tokens self) then
    put (set_tokens (tokens self - tokens_) self) ;;
    ret true
  else ret false.

Definition get_available_tokens : M TokenBucket Q :=
  _refill_tokens ;;
  self <- get ;;
  ret (tokens self).

Definition reset : M TokenBucket unit :=
  self <- get ;;
  put (set_tokens (capacity self) self) ;;
  now <- time_time ;;
  self <- get ;;
  put (set_last_refill now self).

Module Limiter.

(** [TokenBucketRateLimiter]: one field, the bucket it owns. *)
Record TokenBucketRateLimiter : Type := mkLimiter { bucket : TokenBucket }.

(** [self.bucket.m()] *)
Definition in_bucket {A} (m : M TokenBucket A) : M TokenBucketRateLimiter A :=
  zoom bucket (fun b _ => {| bucket := b |}) m.

Definition __init__ {S} (capacity refill_rate : Q)
  : M S TokenBucketRateLimiter :=
  b <- RlToken.__init__ capacity refill_rate ;;
  ret {| bucket := b |}.

Definition allow_request : M TokenBucketRateLimiter (bool * option Q) :=
  ok <- in_bucket (consume 1) ;;
  if ok then ret (true, None)
  else
    available <- in_bucket get_available_tokens ;;
    self <- get ;;
    wait_time <- py_div (1 - available) (refill_rate (bucket self)) ;;
    ret (false, Some (py_max 0 wait_time)).

End Limiter.

End RlToken.

(** ** [src/rate_limiting/leaky_bucket.py] *)

(** [for _ in range(n): body]; [range] of a non-positive [n] is empty. *)
Fixpoint repeat_ {S} (n : nat) (body : M S unit) : M S unit :=
  match n with
  | O => ret tt
  | Datatypes.S k => body ;; repeat_ k body
  end.

Definition for_range {S} (n : Z) (body : M S unit) : M S unit :=
  repeat_ (Z.to_nat n) body.

Definition len {A} (l : list A) : Z := Z.of_nat (length l).

Module RlLeaky.

(** The deque [bucket] holds the admission timestamps, oldest first. *)
Record LeakyBucket : Type := mkLeakyBucket {
  capacity : Z;
  leak_rate : Q;
  bucket : list Q;
  last_leak : Q
}.

Definition set_bucket (v : list Q) (self : LeakyBucket) : LeakyBucket :=
  {| capacity := capacity self; leak_rate := leak_rate self;
     bucket := v; last_leak := last_leak self |}.

Definition set_last_leak (v : Q) (self : LeakyBucket) : LeakyBucket :=
  {| capacity := capacity self; leak_rate := leak_rate self;
     bucket := bucket self; last_leak := v |}.

Definition __init__ {S} (capacity : Z) (leak_rate : Q) : M S LeakyBucket :=
  if (capacity <=? 0)%Z then raise (ValueError "Capacity must be positive")
  else if Qleb leak_rate 0 then
    raise (ValueError "Leak rate must be positive")
  else
    now <- time_time ;;
    ret {| capacity := capacity; leak_rate := leak_rate;
           bucket := []; last_leak := now |}.

(** [self.bucket.popleft()] *)
Definition popleft : M LeakyBucket unit :=
  self <- get ;;
  match bucket self with
  | [] => raise IndexError
  | _ :: rest => put (set_bucket rest self)
  end.

Definition _leak_requests : M LeakyBucket unit :=
  current_time <- time_time ;;
  self <- get ;;
  let elapsed := current_time - last_leak self in
  let requests_to_process := py_int (elapsed * leak_rate self) in
  if (0 <? requests_to_process)%Z then
    for_range (Z.min requests_to_process (len (bucket self))) popleft ;;
    self <- get ;;
    put (set_last_leak current_time self)
  else ret tt.

Definition add_request : M LeakyBucket bool :=
  _leak_requests ;;
  self <- get ;;
  if (len (bucket self) <? capacity self)%Z then
    now <- time_time ;;
    self <- get ;;
    put (set_bucket (bucket self ++ [now]) self) ;;
    ret true
  else ret false.

Definition get_queue_size : M LeakyBucket Z :=
  _leak_requests ;;
  self <- get ;;
  ret (len (bucket self)).

Definition get_wait_time : M LeakyBucket Q :=
  _leak_requests ;;
  self <- get ;;
  if (len (bucket self) =? 0)%Z then ret 0
  else py_div (inject_Z (len (bucket self))) (leak_rate self).

Definition reset : M LeakyBucket unit :=
  self <- get ;;
  put (set_bucket [] self) ;;
  now <- time_time ;;
  self <- get ;;
  put (set_last_leak now self).

Module Limiter.

Record LeakyBucketRateLimiter : Type := mkLimiter { bucket : LeakyBucket }.

Definition in_bucket {A} (m : M LeakyBucket A) : M LeakyBucketRateLimiter A :=
  zoom bucket (fun b _ => {| bucket := b |}) m.

Definition __init__ {S} (capacity : Z) (leak_rate : Q)
  : M S LeakyBucketRateLimiter :=
  b <- RlLeaky.__init__ capacity leak_rate ;;
  ret {| bucket := b |}.

Definition allow_request : M LeakyBucketRateLimiter (bool * option Q) :=
  ok <- in_bucket add_request ;;
  if ok then ret (true, None)
  else
    wait_time <- in_bucket get_wait_time ;;
    ret (false, Some wait_time).

End Limiter.

End RlLeaky.

(** ** Objects held by reference

    The multi-client limiters keep their buckets in a dictionary; the
    dictionary holds references, and [bucket = self.buckets[client_id]]
    aliases the stored object.  [Mem O S] is the object [this : S] together
    with the store of the [O]-objects it can reach; a reference is an index
    into the store and construction appends to it. *)

Record Mem (O S : Type) : Type := mkMem { heap : list O; this : S }.
Arguments mkMem {O S} heap this.
Arguments heap {O S} m.
Arguments this {O S} m.

Definition alloc {O S} (o : O) : M (Mem O S) nat :=
  fun m w =>
    (Ok (length (heap m)), {| heap := heap m ++ [o]; this := this m |}, w).

(** Run a method on the object a reference points to. *)
Definition at_ref {O S A} (r : nat) (m : M O A) : M (Mem O S) A :=
  fun mem w =>
    match heap mem !! r with
    | Some o =>
        let '(res, o', w') := m o w in
        (res, {| heap := <[r := o']> (heap mem); this := this mem |}, w')
    | None => (Raise (InvalidReference r), mem, w)
    end.

Definition set_this {O S} (s : S) (mem : Mem O S) : Mem O S :=
  {| heap := heap mem; this := s |}.

(** ** [src/API BASED PRODUCTS/Question 3/token_bucket_python.py] *)

Module Q3Token.

Record TokenBucket : Type := mkTokenBucket {
  capacity : Q;
  refill_rate : Q;
  tokens : Q;
  last_refill_time : Q
}.

Definition __init__ {S} (capacity refill_rate : Q) : M S TokenBucket :=
  now <- time_time ;;
  ret {| capacity := capacity; refill_rate := refill_rate;
         tokens := capacity; last_refill_time := now |}.

Definition _refill : M TokenBucket unit :=
  now <- time_time ;;
  self <- get ;;
  let elapsed := now - last_refill_time self in
  let tokens_to_add := elapsed * refill_rate self in
  put {| capacity := capacity self; refill_rate := refill_rate self;
         tokens := py_min (capacity self) (tokens self + tokens_to_add);
         last_refill_time := now |}.

Definition set_tokens (v : Q) (self : TokenBucket) : TokenBucket :=
  {| capacity := capacity self; refill_rate := refill_rate self;
     tokens := v; last_refill_time := last_refill_time self |}.

Definition consume (tokens_ : Q) : M TokenBucket bool :=
  _refill ;;
  self <- get ;;
  if Qleb tokens_ (tokens self) then
    put (set_tokens (tokens self - tokens_) self) ;;
    ret true
  else ret false.

Definition get_available_tokens : M TokenBucket Q :=
  _refill ;;
  self <- get ;;
  ret (tokens self).

Definition wait_time_for_tokens (tokens_ : Q) : M TokenBucket Q :=
  _refill ;;
  self <- get ;;
  if Qleb tokens_ (tokens self) then ret 0
  else
    let tokens_needed := tokens_ - tokens self in
    py_div tokens_needed (refill_rate self).

Module Limiter.

Record TokenBucketRateLimiter : Type := mkLimiter {
  capacity : Q;
  refill_rate : Q;
  buckets : gmap string nat
}.

Definition __init__ (capacity refill_rate : Q) : TokenBucketRateLimiter :=
  {| capacity := capacity; refill_rate := refill_rate; buckets := ∅ |}.

Record ClientInfo : Type := mkInfo {
  info_client_id : string;
  info_tokens_available : Q;
  info_capacity : Q;
  info_refill_rate : Q
}.

Abbreviation State := (Mem TokenBucket TokenBucketRateLimiter).

(** The block under [with self.lock:] of [allow_request]:
    [if client_id not in self.buckets:
         self.buckets[client_id] = TokenBucket(self.capacity, self.refill_rate)] *)
Definition ensure_bucket (client_id : string) : M State unit :=
  mem <- get ;;
  match buckets (this mem) !! client_id with
  | Some _ => ret tt
  | None =>
      b <- Q3Token.__init__ (capacity (this mem)) (refill_rate (this mem)) ;;
      r <- alloc b ;;
      mem <- get ;;
      put (set_this {| capacity := capacity (this mem);
                       refill_rate := refill_rate (this mem);
                       buckets := <[client_id := r]> (buckets (this mem)) |}
             mem)
  end.

(** [self.buckets[client_id]] *)
Definition getitem (client_id : string) : M State nat :=
  mem <- get ;;
  match buckets (this mem) !! client_id with
  | Some r => ret r
  | None => raise (KeyError client_id)
  end.

Definition allow_request (client_id : string) (tokens_ : Q)
  : M State (bool * option Q) :=
  ensure_bucket client_id ;;
  bucket <- getitem client_id ;;
  ok <- at_ref bucket (consume tokens_) ;;
  if ok then ret (true, None)
  else
    retry_after <- at_ref bucket (wait_time_for_tokens tokens_) ;;
    ret (false, Some retry_after).

Definition get_client_info (client_id : string) : M State ClientInfo :=
  mem <- get ;;
  match buckets (this mem) !! client_id with
  | None =>
      ret {| info_client_id := client_id;
             info_tokens_available := capacity (this mem);
             info_capacity := capacity (this mem);
             info_refill_rate := refill_rate (this mem) |}
  | Some _ =>
      bucket <- getitem client_id ;;
      available <- at_ref bucket get_available_tokens ;;
      mem <- get ;;
      ret {| info_client_id := client_id;
             info_tokens_available := available;
             info_capacity := capacity (this mem);
             info_refill_rate := refill_rate (this mem) |}
  end.

End Limiter.

End Q3Token.

(** ** [src/API BASED PRODUCTS/Question 3/leaky_bucket_python.py] *)

Module Q3Leaky.

(** The value of ["id"]: the caller's [request_id], or [f"req_{t}"] for a
    clock reading [t] when the caller gave none. *)
Inductive RequestId : Type :=
| Given (request_id : string)
| Stamped (t : Q).

Record Request : Type := mkRequest { id : RequestId; timestamp : Q }.

Record LeakyBucket : Type := mkLeakyBucket {
  capacity : Z;
  leak_rate : Q;
  queue : list Request;
  last_leak_time : Q
}.

Definition set_queue (v : list Request) (self : LeakyBucket) : LeakyBucket :=
  {| capacity := capacity self; leak_rate := leak_rate self;
     queue := v; last_leak_time := last_leak_time self |}.

Definition set_last_leak_time (v : Q) (self : LeakyBucket) : LeakyBucket :=
  {| capacity := capacity self; leak_rate := leak_rate self;
     queue := queue self; last_leak_time := v |}.

Definition __init__ {S} (capacity : Z) (leak_rate : Q) : M S LeakyBucket :=
  now <- time_time ;;
  ret {| capacity := capacity; leak_rate := leak_rate;
         queue := []; last_leak_time := now |}.

Definition popleft : M LeakyBucket unit :=
  self <- get ;;
  match queue self with
  | [] => raise IndexError
  | _ :: rest => put (set_queue rest self)
  end.

Definition _leak : M LeakyBucket unit :=
  now <- time_time ;;
  self <- get ;;
  let elapsed := now - last_leak_time self in
  let requests_to_leak := py_int (elapsed * leak_rate self) in
  if (0 <? requests_to_leak)%Z then
    for_range (Z.min requests_to_leak (len (queue self))) popleft ;;
    self <- get ;;
    put (set_last_leak_time now self)
  else ret tt.

(** [request_id or f"req_{time.time()}"]: [None] and the empty string are
    falsy, and only then is the clock read. *)
Definition request_id_or_stamp {S} (request_id : option string)
  : M S RequestId :=
  match request_id with
  | Some (String c s) => ret (Given (String c s))
  | _ => t <- time_time ;; ret (Stamped t)
  end.

Definition add_request (request_id : option string) : M LeakyBucket bool :=
  _leak ;;
  self <- get ;;
  if (len (queue self) <? capacity self)%Z then
    i <- request_id_or_stamp request_id ;;
    t <- time_time ;;
    self <- get ;;
    put (set_queue (queue self ++ [{| id := i; timestamp := t |}]) self) ;;
    ret true
  else ret false.

Definition get_queue_size : M LeakyBucket Z :=
  _leak ;;
  self <- get ;;
  ret (len (queue self)).

Definition get_wait_time : M LeakyBucket Q :=
  _leak ;;
  self <- get ;;
  if (len (queue self) <? capacity self)%Z then ret 0
  else py_div 1 (leak_rate self).

Definition is_full : M LeakyBucket bool :=
  _leak ;;
  self <- get ;;
  ret (capacity self <=? len (queue self))%Z.

Module Limiter.

Record LeakyBucketRateLimiter : Type := mkLimiter {
  capacity : Z;
  leak_rate : Q;
  buckets : gmap string nat
}.

Definition __init__ (capacity : Z) (leak_rate : Q) : LeakyBucketRateLimiter :=
  {| capacity := capacity; leak_rate := leak_rate; buckets := ∅ |}.

Record ClientInfo : Type := mkInfo {
  info_client_id : string;
  info_queue_size : Z;
  info_capacity : Z;
  info_leak_rate : Q;
  info_is_full : bool
}.

Abbreviation State := (Mem LeakyBucket LeakyBucketRateLimiter).

(** The block under [with self.lock:] of [allow_request]:
    [if client_id not in self.buckets:
         self.buckets[client_id] = LeakyBucket(self.capacity, self.leak_rate)] *)
Definition ensure_bucket (client_id : string) : M State unit :=
  mem <- get ;;
  match buckets (this mem) !! client_id with
  | Some _ => ret tt
  | None =>
      b <- Q3Leaky.__init__ (capacity (this mem)) (leak_rate (this mem)) ;;
      r <- alloc b ;;
      mem <- get ;;
      put (set_this {| capacity := capacity (this mem);
                       leak_rate := leak_rate (this mem);
                       buckets := <[client_id := r]> (buckets (this mem)) |}
             mem)
  end.

(** [self.buckets[client_id]] *)
Definition getitem (client_id : string) : M State nat :=
  mem <- get ;;
  match buckets (this mem) !! client_id with
  | Some r => ret r
  | None => raise (KeyError client_id)
  end.

Definition allow_request (client_id : string) (request_id : option string)
  : M State (bool * option Q) :=
  ensure_bucket client_id ;;
  bucket <- getitem client_id ;;
  ok <- at_ref bucket (add_request request_id) ;;
  if ok then ret (true, None)
  else
    retry_after <- at_ref bucket get_wait_time ;;
    ret (false, Some retry_after).

Definition get_client_info (client_id : string) : M State ClientInfo :=
  mem <- get ;;
  match buckets (this mem) !! client_id with
  | None =>
      ret {| info_client_id := client_id;
             info_queue_size := 0;
             info_capacity := capacity (this mem);
             info_leak_rate := leak_rate (this mem);
             info_is_full := false |}
  | Some _ =>
      bucket <- getitem client_id ;;
      size <- at_ref bucket get_queue_size ;;
      mem <- get ;;
      full <- at_ref bucket is_full ;;
      ret {| info_client_id := client_id;
             info_queue_size := size;
             info_capacity := capacity (this mem);
             info_leak_rate := leak_rate (this mem);
             info_is_full := full |}
  end.

End Limiter.

End Q3Leaky.

(** ** [src/API Project/question3_rate_limiting/leaky_bucket.py] *)

Module ApLeaky.

Record LeakyBucket : Type := mkLeakyBucket {
  capacity : Z;
  leak_rate : Q;
  queue : list Q;
  last_leak : Q
}.

Definition set_queue (v : list Q) (self : LeakyBucket) : LeakyBucket :=
  {| capacity := capacity self; leak_rate := leak_rate self;
     queue := v; last_leak := last_leak self |}.

Definition set_last_leak (v : Q) (self : LeakyBucket) : LeakyBucket :=
  {| capacity := capacity self; leak_rate := leak_rate self;
     queue := queue self; last_leak := v |}.

(** [append] on [deque(maxlen=capacity)]: a full deque drops its oldest
    entry. *)
Definition deque_append (maxlen : Z) (x : Q) (q : list Q) : list Q :=
  let q' := q ++ [x] in
  if (maxlen <? len q')%Z then skipn 1 q' else q'.

Definition append_now : M LeakyBucket unit :=
  now <- time_time ;;
  self <- get ;;
  put (set_queue (deque_append (capacity self) now (queue self)) self).

Definition __init__ {S} (capacity : Z) (leak_rate : Q) (initial_size : Z)
  : M S LeakyBucket :=
  if (capacity <=? 0)%Z then
    raise (ValueError "Capacity must be greater than 0")
  else if Qleb leak_rate 0 then
    raise (ValueError "Leak rate must be greater than 0")
  else
    now <- time_time ;;
    on_new {| capacity := capacity; leak_rate := leak_rate;
              queue := []; last_leak := now |}
      (for_range (Z.min initial_size capacity) append_now).

(** [if self.queue: self.queue.popleft()] *)
Definition popleft_if_any : M LeakyBucket unit :=
  self <- get ;;
  match queue self with
  | [] => ret tt
  | _ :: rest => put (set_queue rest self)
  end.

Definition _leak_requests : M LeakyBucket unit :=
  current_time <- time_time ;;
  self <- get ;;
  let elapsed := current_time - last_leak self in
  let requests_to_process := py_int (elapsed * leak_rate self) in
  if (0 <? requests_to_process)%Z then
    for_range (Z.min requests_to_process (len (queue self))) popleft_if_any ;;
    self <- get ;;
    put (set_last_leak current_time self)
  else ret tt.

Definition add_request : M LeakyBucket bool :=
  _leak_requests ;;
  self <- get ;;
  if (len (queue self) <? capacity self)%Z then
    append_now ;;
    ret true
  else ret false.

Definition get_queue_size : M LeakyBucket Z :=
  _leak_requests ;;
  self <- get ;;
  ret (len (queue self)).

Definition get_wait_time : M LeakyBucket Q :=
  _leak_requests ;;
  self <- get ;;
  if (len (queue self) <? capacity self)%Z then ret 0
  else
    match queue self with
    | _ :: _ =>
        let requests_ahead := len (queue self) in
        time_to_process <- py_div (inject_Z requests_ahead) (leak_rate self) ;;
        ret (py_max 0 time_to_process)
    | [] => ret 0
    end.

End ApLeaky.

(** ** Sequences of public operations

    A caller may interleave the public methods of one limiter in any order;
    a call that raises leaves the limiter as it was at the raise and the
    caller goes on. *)

Module RlTokenTrace.
Import RlToken RlToken.Limiter.

Inductive op : Type :=
| Consume (tokens_ : Q)
| GetAvailableTokens
| Reset
| AllowRequest.

Definition run_op (o : op) : M TokenBucketRateLimiter unit :=
  match o with
  | Consume c => attempt (in_bucket (consume c))
  | GetAvailableTokens => attempt (in_bucket get_available_tokens)
  | Reset => attempt (in_bucket reset)
  | AllowRequest => attempt allow_request
  end.

Fixpoint run_ops (os : list op) : M TokenBucketRateLimiter unit :=
  match os with
  | [] => ret tt
  | o :: os' => run_op o ;; run_ops os'
  end.

Definition cost_positive (o : op) : Prop :=
  match o with
  | Consume c => 0 < c
  | _ => True
  end.

End RlTokenTrace.

Module RlLeakyTrace.
Import RlLeaky RlLeaky.Limiter.

Inductive op : Type :=
| AddRequest
| GetQueueSize
| GetWaitTime
| Reset
| AllowRequest.

Definition run_op (o : op) : M LeakyBucketRateLimiter unit :=
  match o with
  | AddRequest => attempt (in_bucket add_request)
  | GetQueueSize => attempt (in_bucket get_queue_size)
  | GetWaitTime => attempt (in_bucket get_wait_time)
  | Reset => attempt (in_bucket reset)
  | AllowRequest => attempt allow_request
  end.

Fixpoint run_ops (os : list op) : M LeakyBucketRateLimiter unit :=
  match os with
  | [] => ret tt
  | o :: os' => run_op o ;; run_ops os'
  end.

End RlLeakyTrace.

(** [n] calls in a row, results in call order. *)
Fixpoint calls {S A} (n : nat) (m : M S A) : M S (list A) :=
  match n with
  | O => ret []
  | Datatypes.S k => a <- m ;; rest <- calls k m ;; ret (a :: rest)
  end.

(** A clock that stands still: no time elapses between calls. *)
Definition frozen (t : Q) : World := {| clock := fun _ => t; reads := 0 |}.

Definition standing (t : Q) (w : World) : Prop := forall n, clock w n = t.

(** Outcomes of [allow_request] compared up to the value of the rational
    retry-after, not its representation as a fraction. *)
Definition outcome_eq (a b : bool * option Q) : Prop :=
  fst a = fst b /\
  match snd a, snd b with
  | Some x, Some y => x == y
  | None, None => True
  | _, _ => False
  end.

(** What [n] requests of cost 1 get from a bucket at [level] while no time
    passes: one token each while a whole token is left, then the wait for
    the missing part of one token, every time. *)
Fixpoint burst (n : nat) (level rate : Q) : list (bool * option Q) :=
  match n with
  | O => []
  | Datatypes.S k =>
      if Qleb 1 level then (true, None) :: burst k (level - 1) rate
      else (false, Some ((1 - level) / rate)) :: burst k level rate
  end.

(** ** The client registry as a store invariant

    Every reference in the dictionary points into the store, and no two
    clients hold the same reference. *)

Definition refs_wf {O} (refs : gmap string nat) (h : list O) : Prop :=
  (forall c r, refs !! c = Some r -> (r < length h)%nat) /\
  (forall c1 c2 r, refs !! c1 = Some r -> refs !! c2 = Some r -> c1 = c2).

(** The bucket object a client's entry refers to, if the client has one. *)
Definition bucket_of {O} (refs : gmap string nat) (h : list O) (c : string)
  : option O :=
  match refs !! c with
  | Some r => h !! r
  | None => None
  end.

(** The registry keeps one configuration for all its clients: every
    bucket it refers to was built from the registry's capacity and rate. *)
Definition q3_config_is (c r : Q) (b : Q3Token.TokenBucket) : Prop :=
  Q3Token.capacity b = c /\ Q3Token.refill_rate b = r.

Definition tb_registry_ok (mem : Q3Token.Limiter.State) : Prop :=
  refs_wf (Q3Token.Limiter.buckets (this mem)) (heap mem) /\
  forall c b,
    bucket_of (Q3Token.Limiter.buckets (this mem)) (heap mem) c = Some b ->
    q3_config_is (Q3Token.Limiter.capacity (this mem))
      (Q3Token.Limiter.refill_rate (this mem)) b.

Definition q3_leaky_config_is (c : Z) (r : Q) (b : Q3Leaky.LeakyBucket)
  : Prop :=
  Q3Leaky.capacity b = c /\ Q3Leaky.leak_rate b = r.

(** ** Two concurrent callers of [allow_request]

    Each [with lock:] block runs without interruption, and so does the
    dictionary read between them; a scheduler picks which caller takes its
    next step.  A step that raises ends its caller. *)

Definition catch_into {S A} (handler : exn -> A) (m : M S A) : M S A :=
  fun s w =>
    match m s w with
    | (Ok a, s', w') => (Ok a, s', w')
    | (Raise e, s', w') => (Ok (handler e), s', w')
    end.

(** How many steps a schedule gives to one of the callers. *)
Fixpoint turns (who : bool) (sched : list bool) : nat :=
  match sched with
  | [] => 0
  | b :: rest => (if Bool.eqb who b then 1 else 0) + turns who rest
  end.

Module Q3TokenThreads.
Import Q3Token Q3Token.Limiter.

(** Where a caller of [allow_request] stands: about to enter the registry
    lock; past it; holding [bucket] before [consume]; refused, before
    [wait_time_for_tokens]; returned. *)
Inductive Caller : Type :=
| Entered
| Ensured
| Holding (bucket : nat)
| Refused (bucket : nat)
| Returned (bucket : nat) (out : bool * option Q)
| Crashed (e : exn).

Definition step (client_id : string) (tokens_ : Q) (c : Caller)
  : M State Caller :=
  match c with
  | Entered => ensure_bucket client_id ;; ret Ensured
  | Ensured => bucket <- getitem client_id ;; ret (Holding bucket)
  | Holding bucket =>
      ok <- at_ref bucket (consume tokens_) ;;
      ret (if ok : bool then Returned bucket (true, None) else Refused bucket)
  | Refused bucket =>
      retry_after <- at_ref bucket (wait_time_for_tokens tokens_) ;;
      ret (Returned bucket (false, Some retry_after))
  | Returned _ _ => ret c
  | Crashed _ => ret c
  end.

(** [true] schedules the first caller, [false] the second. *)
Fixpoint interleave (sched : list bool) (client_id : string)
  (tokens1 tokens2 : Q) (c1 c2 : Caller) : M State (Caller * Caller) :=
  match sched with
  | [] => ret (c1, c2)
  | true :: rest =>
      c1' <- catch_into Crashed (step client_id tokens1 c1) ;;
      interleave rest client_id tokens1 tokens2 c1' c2
  | false :: rest =>
      c2' <- catch_into Crashed (step client_id tokens2 c2) ;;
      interleave rest client_id tokens1 tokens2 c1 c2'
  end.

Definition allowed (c : Caller) : bool :=
  match c with
  | Returned _ (true, _) => true
  | _ => false
  end.

(** The bucket reference a caller has in its local variable [bucket]. *)
Definition holds (c : Caller) : option nat :=
  match c with
  | Holding b | Refused b | Returned b _ => Some b
  | _ => None
  end.

Definition started (c : Caller) : bool :=
  match c with
  | Entered => false
  | _ => true
  end.

Definition crashed (c : Caller) : bool :=
  match c with
  | Crashed _ => true
  | _ => false
  end.

Definition returned (c : Caller) : bool :=
  match c with
  | Returned _ _ => true
  | _ => false
  end.

(** Steps a caller still has to take, at most. *)
Definition remaining (c : Caller) : nat :=
  match c with
  | Entered => 4
  | Ensured => 3
  | Holding _ => 2
  | Refused _ => 1
  | _ => 0
  end.

(** The caller's request was refused. *)
Definition denied (c : Caller) : bool :=
  match c with
  | Refused _ | Returned _ (false, _) => true
  | _ => false
  end.

(** Tokens a caller was granted. *)
Definition spent (cost : Q) (c : Caller) : Q :=
  if allowed c then cost else 0.

(** What two callers for the so far unseen client [c] and the registry
    share at any point of any interleaving that started from [mem0]:
    either neither caller has passed the registry lock and nothing
    changed, or exactly one bucket was added to the store, it is the one
    registered for [c], and every reference a caller holds is to it.  While
    the clock stands at [t], the tokens granted and the tokens left add up
    to the capacity, and a caller is refused only if the two costs together
    exceed it. *)
Definition shared (mem0 : State) (c : string) (t : Q)
  (cost1 : Q) (c1 : Caller) (cost2 : Q) (c2 : Caller)
  (mem : State) (w : World) : Prop :=
  let n0 := length (heap mem0) in
  capacity (this mem) = capacity (this mem0) /\
  refill_rate (this mem) = refill_rate (this mem0) /\
  (forall b, holds c1 = Some b -> b = n0) /\
  (forall b, holds c2 = Some b -> b = n0) /\
  (0 < refill_rate (this mem0) -> crashed c1 = false /\ crashed c2 = false) /\
  if started c1 || started c2 then
    length (heap mem) = Datatypes.S n0 /\
    buckets (this mem) !! c = Some n0 /\
    exists b,
      heap mem !! n0 = Some b /\
      q3_config_is (capacity (this mem0)) (refill_rate (this mem0)) b /\
      (standing t w -> 0 < cost1 -> 0 < cost2 ->
       last_refill_time b = t /\
       tokens b == capacity (this mem0) - spent cost1 c1 - spent cost2 c2 /\
       (allowed c1 || allowed c2 = true -> 0 <= tokens b) /\
       (denied c1 || denied c2 = true -> capacity (this mem0) < cost1 + cost2))
  else mem = mem0.

End Q3TokenThreads.

Module Q3LeakyThreads.
Import Q3Leaky Q3Leaky.Limiter.

Inductive Caller : Type :=
| Entered
| Ensured
| Holding (bucket : nat)
| Refused (bucket : nat)
| Returned (bucket : nat) (out : bool * option Q)
| Crashed (e : exn).

Definition step (client_id : string) (request_id : option string)
  (c : Caller) : M State Caller :=
  match c with
  | Entered => ensure_bucket client_id ;; ret Ensured
  | Ensured => bucket <- getitem client_id ;; ret (Holding bucket)
  | Holding bucket =>
      ok <- at_ref bucket (add_request request_id) ;;
      ret (if ok : bool then Returned bucket (true, None) else Refused bucket)
  | Refused bucket =>
      retry_after <- at_ref bucket get_wait_time ;;
      ret (Returned bucket (false, Some retry_after))
  | Returned _ _ => ret c
  | Crashed _ => ret c
  end.

Fixpoint interleave (sched : list bool) (client_id : string)
  (request1 request2 : option string) (c1 c2 : Caller)
  : M State (Caller * Caller) :=
  match sched with
  | [] => ret (c1, c2)
  | true :: rest =>
      c1' <- catch_into Crashed (step client_id request1 c1) ;;
      interleave rest client_id request1 request2 c1' c2
  | false :: rest =>
      c2' <- catch_into Crashed (step client_id request2 c2) ;;
      interleave rest client_id request1 request2 c1 c2'
  end.

Definition allowed (c : Caller) : bool :=
  match c with
  | Returned _ (true, _) => true
  | _ => false
  end.

Definition holds (c : Caller) : option nat :=
  match c with
  | Holding b | Refused b | Returned b _ => Some b
  | _ => None
  end.

Definition started (c : Caller) : bool :=
  match c with
  | Entered => false
  | _ => true
  end.

Definition crashed (c : Caller) : bool :=
  match c with
  | Crashed _ => true
  | _ => false
  end.

Definition returned (c : Caller) : bool :=
  match c with
  | Returned _ _ => true
  | _ => false
  end.

Definition remaining (c : Caller) : nat :=
  match c with
  | Entered => 4
  | Ensured => 3
  | Holding _ => 2
  | Refused _ => 1
  | _ => 0
  end.

Definition denied (c : Caller) : bool :=
  match c with
  | Refused _ | Returned _ (false, _) => true
  | _ => false
  end.

(** Queue slots a caller was granted. *)
Definition granted (c : Caller) : Z := if allowed c then 1 else 0.

(** As for the token buckets; while the clock stands at [t] nothing leaks,
    the shared queue holds exactly the requests granted so far, within the
    capacity, and a caller is refused only if the capacity is below two. *)
Definition shared (mem0 : State) (c : string) (t : Q)
  (c1 c2 : Caller) (mem : State) (w : World) : Prop :=
  let n0 := length (heap mem0) in
  capacity (this mem) = capacity (this mem0) /\
  leak_rate (this mem) = leak_rate (this mem0) /\
  (forall b, holds c1 = Some b -> b = n0) /\
  (forall b, holds c2 = Some b -> b = n0) /\
  (0 < leak_rate (this mem0) -> crashed c1 = false /\ crashed c2 = false) /\
  if started c1 || started c2 then
    length (heap mem) = Datatypes.S n0 /\
    buckets (this mem) !! c = Some n0 /\
    exists b,
      heap mem !! n0 = Some b /\
      q3_leaky_config_is (capacity (this mem0)) (leak_rate (this mem0)) b /\
      (standing t w ->
       last_leak_time b = t /\
       len (queue b) = (granted c1 + granted c2)%Z /\
       ((0 < len (queue b))%Z -> (len (queue b) <= capacity (this mem0))%Z) /\
       (denied c1 || denied c2 = true -> (capacity (this mem0) < 2)%Z))
  else mem = mem0.

End Q3LeakyThreads.

(** ** Example registries

    One known client, ["bob"], whose bucket is partly used; used to
    instantiate the registry theorems. *)

Definition bob_token_bucket : Q3Token.TokenBucket :=
  Q3Token.mkTokenBucket 10 2 4 7.

Definition bob_leaky_bucket : Q3Leaky.LeakyBucket :=
  Q3Leaky.mkLeakyBucket 5 2 [Q3Leaky.mkRequest (Q3Leaky.Given "r1") 7] 7.

Definition token_registry_with_bob : Q3Token.Limiter.State :=
  mkMem [bob_token_bucket]
    (Q3Token.Limiter.mkLimiter 10 2 (<["bob" := 0%nat]> ∅)).

Definition leaky_registry_with_bob : Q3Leaky.Limiter.State :=
  mkMem [bob_leaky_bucket]
    (Q3Leaky.Limiter.mkLimiter 5 2 (<["bob" := 0%nat]> ∅)).

(** ** State invariants of computations *)

(** [m] keeps [I]: from a state in [I], whatever the clock and whether or
    not [m] raises, the state [m] leaves is in [I]. *)
Definition preserves {S A} (I : S -> Prop) (m : M S A) : Prop :=
  forall s w, I s -> I (state (m s w)).

Module RlTokenInv.
Import RlToken RlToken.Limiter.

Definition level_ok (self : TokenBucket) : Prop :=
  0 <= tokens self <= capacity self.

Definition config_is (c r : Q) (self : TokenBucket) : Prop :=
  capacity self = c /\ refill_rate self = r.

Definition inv (c r : Q) (self : TokenBucket) : Prop :=
  config_is c r self /\ level_ok self.

Definition limiter_inv (c r : Q) (l : TokenBucketRateLimiter) : Prop :=
  inv c r (bucket l).

End RlTokenInv.

Module RlLeakyInv.
Import RlLeaky RlLeaky.Limiter.

Definition level_ok (self : LeakyBucket) : Prop :=
  (0 <= len (RlLeaky.bucket self) <= capacity self)%Z.

Definition config_is (c : Z) (r : Q) (self : LeakyBucket) : Prop :=
  capacity self = c /\ leak_rate self = r.

Definition inv (c : Z) (r : Q) (self : LeakyBucket) : Prop :=
  config_is c r self /\ level_ok self.

Definition limiter_inv (c : Z) (r : Q) (l : LeakyBucketRateLimiter) : Prop :=
  inv c r (bucket l).

End RlLeakyInv.

(** ** [src/API Project/question3_rate_limiting/token_bucket.py] *)

Module ApToken.

Record TokenBucket : Type := mkTokenBucket {
  capacity : Q;
  refill_rate : Q;
  tokens : Q;
  last_refill : Q
}.

Definition set_tokens (v : Q) (self : TokenBucket) : TokenBucket :=
  {| capacity := capacity self; refill_rate := refill_rate self;
     tokens := v; last_refill := last_refill self |}.

Definition set_last_refill (v : Q) (self : TokenBucket) : TokenBucket :=
  {| capacity := capacity self; refill_rate := refill_rate self;
     tokens := tokens self; last_refill := v |}.

(** [initial_tokens] is taken as given when it is not [None]: it is
    compared with nothing. *)
Definition __init__ {S} (capacity refill_rate : Q) (initial_tokens : option Q)
  : M S TokenBucket :=
  if Qleb capacity 0 then
    raise (ValueError "Capacity must be greater than 0")
  else if Qleb refill_rate 0 then
    raise (ValueError "Refill rate must be greater than 0")
  else
    now <- time_time ;;
    ret {| capacity := capacity; refill_rate := refill_rate;
           tokens := match initial_tokens with
                     | Some t => t
                     | None => capacity
                     end;
           last_refill := now |}.

Definition _refill_tokens : M TokenBucket unit :=
  current_time <- time_time ;;
  self <- get ;;
  let elapsed := current_time - last_refill self in
  let tokens_to_add := elapsed * refill_rate self in
  if Qltb 0 tokens_to_add then
    put (set_last_refill current_time
           (set_tokens (py_min (capacity self) (tokens self + tokens_to_add))
              self))
  else ret tt.

Definition consume (tokens_ : Q) : M TokenBucket bool :=
  _refill_tokens ;;
  self <- get ;;
  if Qleb tokens_ (tokens self) then
    put (set_tokens (tokens self - tokens_) self) ;;
    ret true
  else ret false.

Definition get_available_tokens : M TokenBucket Q :=
  _refill_tokens ;;
  self <- get ;;
  ret (tokens self).

Definition get_wait_time (tokens_ : Q) : M TokenBucket Q :=
  _refill_tokens ;;
  self <- get ;;
  if Qleb tokens_ (tokens self) then ret 0
  else
    let tokens_needed := tokens_ - tokens self in
    py_div tokens_needed (refill_rate self).

Module Limiter.

Record TokenBucketRateLimiter : Type := mkLimiter { bucket : TokenBucket }.

Definition in_bucket {A} (m : M TokenBucket A) : M TokenBucketRateLimiter A :=
  zoom bucket (fun b _ => {| bucket := b |}) m.

(** [burst_size if burst_size is not None else int(requests_per_second)] *)
Definition __init__ {S} (requests_per_second : Q) (burst_size : option Z)
  : M S TokenBucketRateLimiter :=
  let burst := match burst_size with
               | Some b => b
               | None => py_int requests_per_second
               end in
  b <- ApToken.__init__ (inject_Z burst) requests_per_second
         (Some (inject_Z burst)) ;;
  ret {| bucket := b |}.

Definition allow_request : M TokenBucketRateLimiter bool :=
  in_bucket (consume 1).

Record Status : Type := mkStatus {
  available_tokens : Q;
  status_capacity : Q;
  status_refill_rate : Q;
  wait_time_seconds : Q
}.

Definition get_status : M TokenBucketRateLimiter Status :=
  available <- in_bucket get_available_tokens ;;
  wait_time <- in_bucket (get_wait_time 1) ;;
  self <- get ;;
  ret {| available_tokens := available;
         status_capacity := capacity (bucket self);
         status_refill_rate := refill_rate (bucket self);
         wait_time_seconds := wait_time |}.

End Limiter.

End ApToken.

(** ** The rest of [src/API Project/question3_rate_limiting/leaky_bucket.py] *)

Module ApLeakyLimiter.
Import ApLeaky.

(** [get_oldest_request_age]: it does not leak first. *)
Definition get_oldest_request_age : M LeakyBucket Q :=
  self <- get ;;
  match queue self with
  | [] => ret 0
  | oldest :: _ => now <- time_time ;; ret (now - oldest)
  end.

Record LeakyBucketRateLimiter : Type := mkLimiter { bucket : LeakyBucket }.

Definition in_bucket {A} (m : M LeakyBucket A) : M LeakyBucketRateLimiter A :=
  zoom bucket (fun b _ => {| bucket := b |}) m.

(** [bucket_size if bucket_size is not None
     else int(requests_per_second * 2)] *)
Definition __init__ {S} (requests_per_second : Q) (bucket_size : option Z)
  : M S LeakyBucketRateLimiter :=
  let size := match bucket_size with
              | Some b => b
              | None => py_int (requests_per_second * 2)
              end in
  b <- ApLeaky.__init__ size requests_per_second 0 ;;
  ret {| bucket := b |}.

Definition allow_request : M LeakyBucketRateLimiter bool :=
  in_bucket add_request.

Record Status : Type := mkStatus {
  queue_size : Z;
  status_capacity : Z;
  status_leak_rate : Q;
  wait_time_seconds : Q;
  oldest_request_age_seconds : Q;
  available_space : Z
}.

Definition get_status : M LeakyBucketRateLimiter Status :=
  size <- in_bucket get_queue_size ;;
  wait_time <- in_bucket get_wait_time ;;
  oldest_age <- in_bucket get_oldest_request_age ;;
  self <- get ;;
  ret {| queue_size := size;
         status_capacity := capacity (bucket self);
         status_leak_rate := leak_rate (bucket self);
         wait_time_seconds := wait_time;
         oldest_request_age_seconds := oldest_age;
         available_space := (capacity (bucket self) - size)%Z |}.

End ApLeakyLimiter.

(** ** Counting and serving requests *)


(** Requests [(client_id, tokens)] served one after the other by the
    token-bucket registry of [Question 3], answers in order; an exception
    ends the run, as it ends the loops of the demonstrations. *)
Fixpoint serve (reqs : list (string * Q))
  : M Q3Token.Limiter.State (list (bool * option Q)) :=
  match reqs with
  | [] => ret []
  | (client_id, tokens_) :: rest =>
      o <- Q3Token.Limiter.allow_request client_id tokens_ ;;
      os <- serve rest ;;
      ret (o :: os)
  end.

(** The world after [k] more readings of the clock. *)
Definition ticks (k : nat) (w : World) : World :=
  {| clock := clock w; reads := k + reads w |}.

(** * Properties *)

(** ** Arithmetic of the prelude *)

Lemma Qltb_lt (x y : Q) : Qltb x y = true <-> x < y.
Proof.
  unfold Qltb. rewrite Qlt_alt. destruct (x ?= y); split; congruence.
Qed.

Lemma Qltb_ge (x y : Q) : Qltb x y = false <-> y <= x.
Proof.
  unfold Qltb. rewrite Qle_alt, <- (Qcompare_antisym x y).
  destruct (x ?= y); simpl; split; congruence.
Qed.

Lemma Qleb_le (x y : Q) : Qleb x y = true <-> x <= y.
Proof.
  unfold Qleb. rewrite Qle_alt. destruct (x ?= y); split; congruence.
Qed.

Lemma Qleb_gt (x y : Q) : Qleb x y = false <-> y < x.
Proof.
  unfold Qleb. rewrite Qlt_alt, <- (Qcompare_antisym x y).
  destruct (x ?= y); simpl; split; congruence.
Qed.

Lemma py_min_le_l (a b : Q) : py_min a b <= a.
Proof.
  unfold py_min. destruct (Qltb b a) eqn:E; [|lra].
  apply Qltb_lt in E. lra.
Qed.

Lemma py_min_glb (a b c : Q) : c <= a -> c <= b -> c <= py_min a b.
Proof. unfold py_min. destruct (Qltb b a); auto. Qed.

(** ** Rules for [preserves] *)

Section Preserves.
Context {S : Type} (I : S -> Prop).

Lemma preserves_ret {A} (a : A) : preserves I (ret a).
Proof. intros s w H. exact H. Qed.

Lemma preserves_raise {A} (e : exn) : preserves I (@raise S A e).
Proof. intros s w H. exact H. Qed.

Lemma preserves_time : preserves I time_time.
Proof. intros s w H. exact H. Qed.

Lemma preserves_div (a b : Q) : preserves I (py_div a b).
Proof. intros s w H. unfold py_div. destruct (Qeq_bool b 0); exact H. Qed.

Lemma preserves_bind {A B} (m : M S A) (k : A -> M S B) :
  preserves I m -> (forall a, preserves I (k a)) -> preserves I (bind m k).
Proof.
  intros Hm Hk s w H. unfold bind.
  specialize (Hm s w H). destruct (m s w) as [[[a|e] s'] w']; simpl in Hm.
  - apply Hk, Hm.
  - exact Hm.
Qed.

Lemma preserves_attempt {A} (m : M S A) :
  preserves I m -> preserves I (attempt m).
Proof.
  intros Hm s w H. unfold attempt.
  specialize (Hm s w H). destruct (m s w) as [[r s'] w']. exact Hm.
Qed.

Lemma preserves_repeat (n : nat) (body : M S unit) :
  preserves I body -> preserves I (repeat_ n body).
Proof.
  intros Hb. induction n as [|n IH]; simpl.
  - apply preserves_ret.
  - apply preserves_bind; auto.
Qed.

Lemma preserves_for_range (n : Z) (body : M S unit) :
  preserves I body -> preserves I (for_range n body).
Proof. apply preserves_repeat. Qed.

End Preserves.

Lemma preserves_zoom {S T A} (I : T -> Prop) (proj : S -> T)
  (upd : T -> S -> S) (m : M T A) :
  (forall t s, proj (upd t s) = t) ->
  preserves I m -> preserves (fun s => I (proj s)) (zoom proj upd m).
Proof.
  intros Hpu Hm s w H. unfold zoom.
  specialize (Hm (proj s) w H). destruct (m (proj s) w) as [[r t'] w'].
  unfold state in *; simpl in *. now rewrite Hpu.
Qed.

(** A state written by [put] must itself be in the invariant. *)
Lemma preserves_put {S} (I : S -> Prop) (s' : S) : I s' -> preserves I (put s').
Proof. intros H s w _. exact H. Qed.

(** [self <- get ;; k self]: [k] may assume the invariant of what it read. *)
Lemma preserves_get_bind {S B} (I : S -> Prop) (k : S -> M S B) :
  (forall s, I s -> preserves I (k s)) -> preserves I (bind get k).
Proof. intros Hk s w H. unfold bind, get. now apply Hk. Qed.

(** The same, keeping that [k] runs from the very state it was given. *)
Lemma preserves_get_bind_at {S B} (I : S -> Prop) (k : S -> M S B) :
  (forall s w, I s -> I (state (k s s w))) -> preserves I (bind get k).
Proof. intros Hk s w H. unfold bind, get. now apply Hk. Qed.

(** ** The capacity bound on [src/rate_limiting] *)

Module RlTokenFacts.
Import RlToken RlToken.Limiter RlTokenTrace RlTokenInv.

Lemma tb_refill_keeps c r : preserves (inv c r) _refill_tokens.
Proof.
  unfold _refill_tokens.
  apply preserves_bind; [apply preserves_time|]. intros now.
  apply preserves_get_bind. intros self [[Hc Hr] [H0 H1]].
  destruct (Qltb 0 _) eqn:E; [|apply preserves_ret].
  apply preserves_put. apply Qltb_lt in E.
  split; [split; assumption|]. unfold level_ok; simpl. split.
  - apply py_min_glb; lra.
  - apply py_min_le_l.
Qed.

Lemma tb_consume_keeps c r cost : 0 < cost -> preserves (inv c r) (consume cost).
Proof.
  intros Hpos. unfold consume.
  apply preserves_bind; [apply tb_refill_keeps|]. intros _.
  apply preserves_get_bind. intros self [[Hc Hr] [H0 H1]].
  destruct (Qleb cost _) eqn:E; [|apply preserves_ret].
  apply Qleb_le in E.
  apply preserves_bind; [|intros; apply preserves_ret].
  apply preserves_put. split; [split; assumption|].
  unfold level_ok; simpl. lra.
Qed.

Lemma tb_get_available_keeps c r : preserves (inv c r) get_available_tokens.
Proof.
  unfold get_available_tokens.
  apply preserves_bind; [apply tb_refill_keeps|]. intros _.
  apply preserves_get_bind. intros; apply preserves_ret.
Qed.

Lemma tb_reset_keeps c r : preserves (inv c r) reset.
Proof.
  unfold reset.
  apply preserves_get_bind. intros self [[Hc Hr] [H0 H1]].
  assert (Hfull : inv c r (set_tokens (capacity self) self)).
  { split; [split; assumption|]. unfold level_ok; simpl. lra. }
  apply preserves_bind; [now apply preserves_put|]. intros _.
  apply preserves_bind; [apply preserves_time|]. intros now.
  apply preserves_get_bind. intros self' [[Hc' Hr'] [H0' H1']].
  apply preserves_put. split; [split; assumption|].
  unfold level_ok; simpl. lra.
Qed.

Lemma tb_in_bucket_keeps {A} c r (m : M TokenBucket A) :
  preserves (inv c r) m -> preserves (limiter_inv c r) (in_bucket m).
Proof.
  intros Hm. unfold in_bucket, limiter_inv.
  apply (preserves_zoom (inv c r)); auto.
Qed.

Lemma tb_allow_request_keeps c r : preserves (limiter_inv c r) allow_request.
Proof.
  unfold allow_request.
  apply preserves_bind.
  { apply tb_in_bucket_keeps, tb_consume_keeps. lra. }
  intros [|]; [apply preserves_ret|].
  apply preserves_bind; [apply tb_in_bucket_keeps, tb_get_available_keeps|].
  intros available. apply preserves_get_bind. intros self _.
  apply preserves_bind; [apply preserves_div|]. intros; apply preserves_ret.
Qed.

Lemma tb_run_op_keeps c r o :
  cost_positive o -> preserves (limiter_inv c r) (run_op o).
Proof.
  destruct o; simpl; intros Hpos; apply preserves_attempt.
  - now apply tb_in_bucket_keeps, tb_consume_keeps.
  - apply tb_in_bucket_keeps, tb_get_available_keeps.
  - apply tb_in_bucket_keeps, tb_reset_keeps.
  - apply tb_allow_request_keeps.
Qed.

Lemma tb_run_ops_keeps c r os :
  Forall cost_positive os -> preserves (limiter_inv c r) (run_ops os).
Proof.
  induction 1 as [|o os Ho _ IH]; simpl.
  - apply preserves_ret.
  - apply preserves_bind; [now apply tb_run_op_keeps|]. intros _. exact IH.
Qed.

Lemma tb_limiter_init_inv {S} c r (s s' : S) w w' l :
  Limiter.__init__ c r s w = (Ok l, s', w') -> limiter_inv c r l.
Proof.
  unfold Limiter.__init__, RlToken.__init__, bind, ret, raise, time_time.
  destruct (Qleb c 0) eqn:Ec; [discriminate|].
  destruct (Qleb r 0) eqn:Er; [discriminate|].
  intros [= <- _ _]. apply Qleb_gt in Ec.
  unfold limiter_inv, inv, config_is, level_ok; simpl.
  repeat split; lra.
Qed.

End RlTokenFacts.

Module RlLeakyFacts.
Import RlLeaky RlLeaky.Limiter RlLeakyTrace RlLeakyInv.

Lemma len_nonneg {A} (l : list A) : (0 <= len l)%Z.
Proof. unfold len. lia. Qed.

Lemma len_cons {A} (x : A) (l : list A) : len (x :: l) = (len l + 1)%Z.
Proof. unfold len. simpl. lia. Qed.

Lemma len_snoc {A} (x : A) (l : list A) : len (l ++ [x]) = (len l + 1)%Z.
Proof. unfold len. rewrite length_app. simpl. lia. Qed.

Lemma lb_popleft_keeps c r : preserves (inv c r) popleft.
Proof.
  unfold popleft. apply preserves_get_bind. intros self [[Hc Hr] [H0 H1]].
  destruct (RlLeaky.bucket self) as [|x rest] eqn:E; [apply preserves_raise|].
  apply preserves_put. split; [split; assumption|].
  unfold level_ok; simpl. rewrite len_cons in H1.
  pose proof (len_nonneg rest). lia.
Qed.

Lemma lb_leak_keeps c r : preserves (inv c r) _leak_requests.
Proof.
  unfold _leak_requests.
  apply preserves_bind; [apply preserves_time|]. intros now.
  apply preserves_get_bind. intros self _.
  destruct (0 <? _)%Z; [|apply preserves_ret].
  apply preserves_bind; [apply preserves_for_range, lb_popleft_keeps|].
  intros _. apply preserves_get_bind. intros self' [[Hc Hr] [H0 H1]].
  apply preserves_put. split; [split; assumption|]. split; assumption.
Qed.

Lemma lb_add_request_keeps c r : preserves (inv c r) add_request.
Proof.
  unfold add_request.
  apply preserves_bind; [apply lb_leak_keeps|]. intros _.
  apply preserves_get_bind_at. intros self w [[Hc Hr] [H0 H1]].
  destruct (_ <? _)%Z eqn:E; [|split; [split|split]; assumption].
  apply Z.ltb_lt in E.
  unfold bind, time_time, get, put, ret, state; simpl.
  split; [split; assumption|]. unfold level_ok; simpl.
  rewrite len_snoc. lia.
Qed.

Lemma lb_get_queue_size_keeps c r : preserves (inv c r) get_queue_size.
Proof.
  unfold get_queue_size.
  apply preserves_bind; [apply lb_leak_keeps|]. intros _.
  apply preserves_get_bind. intros; apply preserves_ret.
Qed.

Lemma lb_get_wait_time_keeps c r : preserves (inv c r) get_wait_time.
Proof.
  unfold get_wait_time.
  apply preserves_bind; [apply lb_leak_keeps|]. intros _.
  apply preserves_get_bind. intros self _.
  destruct (_ =? _)%Z; [apply preserves_ret|apply preserves_div].
Qed.

Lemma lb_reset_keeps c r : preserves (inv c r) reset.
Proof.
  unfold reset.
  apply preserves_get_bind_at. intros self w [[Hc Hr] [H0 H1]].
  unfold bind, time_time, get, put, ret, state; simpl.
  split; [split; assumption|]. unfold level_ok; simpl. unfold len; simpl. lia.
Qed.

Lemma lb_in_bucket_keeps {A} c r (m : M LeakyBucket A) :
  preserves (inv c r) m -> preserves (limiter_inv c r) (in_bucket m).
Proof.
  intros Hm. unfold in_bucket, limiter_inv.
  apply (preserves_zoom (inv c r)); auto.
Qed.

Lemma lb_allow_request_keeps c r : preserves (limiter_inv c r) allow_request.
Proof.
  unfold allow_request.
  apply preserves_bind; [apply lb_in_bucket_keeps, lb_add_request_keeps|].
  intros [|]; [apply preserves_ret|].
  apply preserves_bind; [apply lb_in_bucket_keeps, lb_get_wait_time_keeps|].
  intros; apply preserves_ret.
Qed.

Lemma lb_run_op_keeps c r o : preserves (limiter_inv c r) (run_op o).
Proof.
  destruct o; simpl; apply preserves_attempt.
  - apply lb_in_bucket_keeps, lb_add_request_keeps.
  - apply lb_in_bucket_keeps, lb_get_queue_size_keeps.
  - apply lb_in_bucket_keeps, lb_get_wait_time_keeps.
  - apply lb_in_bucket_keeps, lb_reset_keeps.
  - apply lb_allow_request_keeps.
Qed.

Lemma lb_run_ops_keeps c r os : preserves (limiter_inv c r) (run_ops os).
Proof.
  induction os as [|o os IH]; simpl.
  - apply preserves_ret.
  - apply preserves_bind; [apply lb_run_op_keeps|]. intros _. exact IH.
Qed.

Lemma lb_limiter_init_inv {S} c r (s s' : S) w w' l :
  Limiter.__init__ c r s w = (Ok l, s', w') -> limiter_inv c r l.
Proof.
  unfold Limiter.__init__, RlLeaky.__init__, bind, ret, raise, time_time.
  destruct (c <=? 0)%Z eqn:Ec; [discriminate|].
  destruct (Qleb r 0) eqn:Er; [discriminate|].
  intros [= <- _ _]. apply Z.leb_gt in Ec.
  unfold limiter_inv, inv, config_is, level_ok; simpl.
  repeat split; unfold len; simpl; lia.
Qed.

End RlLeakyFacts.

(** C1 — Capacity bound.  A limiter of [src/rate_limiting] is constructed
    and then used through any sequence of its public operations
    ([consume], [get_available_tokens], [reset], [allow_request] for the
    token bucket; [add_request], [get_queue_size], [get_wait_time], [reset],
    [allow_request] for the leaky bucket), under any clock, every [consume]
    cost being positive.  After the sequence, hence before and after each
    of its operations, [0 <= tokens <= capacity] holds in the token bucket
    and [0 <= len(bucket) <= capacity] in the leaky bucket. *)
Theorem capacity_bound
  (c r : Q) (wt wt' : World) (lt : RlToken.Limiter.TokenBucketRateLimiter)
  (ost : list RlTokenTrace.op)
  (n : Z) (q : Q) (wl wl' : World) (ll : RlLeaky.Limiter.LeakyBucketRateLimiter)
  (osl : list RlLeakyTrace.op) :
  RlToken.Limiter.__init__ c r tt wt = (Ok lt, tt, wt') ->
  Forall RlTokenTrace.cost_positive ost ->
  RlLeaky.Limiter.__init__ n q tt wl = (Ok ll, tt, wl') ->
  (let b := RlToken.Limiter.bucket (state (RlTokenTrace.run_ops ost lt wt')) in
   0 <= RlToken.tokens b <= RlToken.capacity b) /\
  (let b := RlLeaky.Limiter.bucket (state (RlLeakyTrace.run_ops osl ll wl')) in
   (0 <= len (RlLeaky.bucket b) <= RlLeaky.capacity b)%Z).
Proof.
  intros Ht Hpos Hl. split.
  - apply RlTokenFacts.tb_limiter_init_inv in Ht.
    apply (RlTokenFacts.tb_run_ops_keeps c r ost Hpos lt wt' Ht).
  - apply RlLeakyFacts.lb_limiter_init_inv in Hl.
    apply (RlLeakyFacts.lb_run_ops_keeps n q osl ll wl' Hl).
Qed.

Lemma capacity_bound_witness :
  (0 <= RlToken.tokens (RlToken.Limiter.bucket (state (RlTokenTrace.run_ops
          [RlTokenTrace.Consume 3; RlTokenTrace.AllowRequest;
           RlTokenTrace.Reset; RlTokenTrace.GetAvailableTokens]
          {| RlToken.Limiter.bucket := RlToken.mkTokenBucket 10 2 10 0 |}
          (tick (frozen 0)))))
   <= 10) /\
  (0 <= len (RlLeaky.bucket (RlLeaky.Limiter.bucket (state
          (RlLeakyTrace.run_ops
             [RlLeakyTrace.AddRequest; RlLeakyTrace.AllowRequest;
              RlLeakyTrace.GetWaitTime; RlLeakyTrace.Reset;
              RlLeakyTrace.AddRequest]
             {| RlLeaky.Limiter.bucket := RlLeaky.mkLeakyBucket 5 2 [] 0 |}
             (tick (frozen 0))))))
   <= 5)%Z.
Proof.
  apply (capacity_bound 10 2 (frozen 0) (tick (frozen 0))
           {| RlToken.Limiter.bucket := RlToken.mkTokenBucket 10 2 10 0 |}
           [RlTokenTrace.Consume 3; RlTokenTrace.AllowRequest;
            RlTokenTrace.Reset; RlTokenTrace.GetAvailableTokens]
           5 2 (frozen 0) (tick (frozen 0))
           {| RlLeaky.Limiter.bucket := RlLeaky.mkLeakyBucket 5 2 [] 0 |}
           [RlLeakyTrace.AddRequest; RlLeakyTrace.AllowRequest;
            RlLeakyTrace.GetWaitTime; RlLeakyTrace.Reset;
            RlLeakyTrace.AddRequest]).
  - reflexivity.
  - repeat constructor.
  - reflexivity.
Defined.

(** ** [consume] of the token buckets *)

Lemma rl_refill_returns (self : RlToken.TokenBucket) (w : World) :
  result (RlToken._refill_tokens self w) = Ok tt.
Proof.
  unfold RlToken._refill_tokens, bind, time_time, get, put, ret.
  destruct (Qltb 0 _); reflexivity.
Qed.



(** ** References and the store *)

Lemma at_ref_run {O S A} (r : nat) (m : M O A) (mem : Mem O S) (w : World)
  (o : O) :
  heap mem !! r = Some o ->
  at_ref r m mem w =
    (result (m o w),
     {| heap := <[r := state (m o w)]> (heap mem); this := this mem |},
     world (m o w)).
Proof.
  intros H. unfold at_ref. rewrite H.
  destruct (m o w) as [[res o'] w']. reflexivity.
Qed.

Lemma refs_wf_empty {O} (h : list O) : refs_wf ∅ h.
Proof. split; intros *; rewrite lookup_empty; discriminate. Qed.

(** Storing into an allocated cell keeps the registry well formed. *)
Lemma refs_wf_update {O} (refs : gmap string nat) (h : list O) r o :
  refs_wf refs h -> refs_wf refs (<[r := o]> h).
Proof.
  intros [Hb Hi]. split; [|exact Hi].
  intros c r' Hc. rewrite length_insert. eauto.
Qed.

(** Registering a new client with a freshly allocated cell keeps it too. *)
Lemma refs_wf_register {O} (refs : gmap string nat) (h : list O) c o :
  refs !! c = None ->
  refs_wf refs h -> refs_wf (<[c := length h]> refs) (h ++ [o]).
Proof.
  intros Hnone [Hb Hi]. split.
  - intros c' r. rewrite length_app; simpl.
    destruct (decide (c = c')) as [->|Hne].
    + rewrite lookup_insert_eq. intros [= <-]. lia.
    + rewrite lookup_insert_ne by done. intros H. apply Hb in H. lia.
  - intros c1 c2 r.
    destruct (decide (c = c1)) as [E1|H1]; destruct (decide (c = c2)) as [E2|H2];
      subst; rewrite ?lookup_insert_eq, ?lookup_insert_ne by done; try done.
    + intros [= <-] H. apply Hb in H. lia.
    + intros H [= <-]. apply Hb in H. lia.
    + apply Hi.
Qed.

(** A cell other than the one written is read back unchanged, also through
    the registry. *)
Lemma bucket_of_update {O} (refs : gmap string nat) (h : list O) a b r o :
  refs_wf refs h -> a <> b -> refs !! a = Some r ->
  bucket_of refs (<[r := o]> h) b = bucket_of refs h b.
Proof.
  intros [Hb Hi] Hne Ha. unfold bucket_of.
  destruct (refs !! b) as [rb|] eqn:Eb; [|reflexivity].
  apply list_lookup_insert_ne. intros ->. apply Hne. eauto.
Qed.

Lemma bucket_of_register {O} (refs : gmap string nat) (h : list O) a b o :
  refs_wf refs h -> a <> b ->
  bucket_of (<[a := length h]> refs) (h ++ [o]) b = bucket_of refs h b.
Proof.
  intros [Hb Hi] Hne. unfold bucket_of.
  rewrite lookup_insert_ne by done.
  destruct (refs !! b) as [rb|] eqn:Eb; [|reflexivity].
  apply lookup_app_l. eauto.
Qed.

(** ** The token-bucket registry of [Question 3] *)

Module Q3TokenFacts.
Import Q3Token Q3Token.Limiter.

(** The registry after [client_id] was registered with a new bucket. *)
Lemma tbr_ensure_present (mem : State) w c r :
  buckets (this mem) !! c = Some r -> ensure_bucket c mem w = (Ok tt, mem, w).
Proof. intros H. unfold ensure_bucket, bind, get. rewrite H. reflexivity. Qed.

Lemma tbr_ensure_absent (mem : State) w c :
  buckets (this mem) !! c = None ->
  ensure_bucket c mem w =
    (Ok tt,
     {| heap := heap mem ++
                [ {| Q3Token.capacity := capacity (this mem);
                     Q3Token.refill_rate := refill_rate (this mem);
                     tokens := capacity (this mem);
                     last_refill_time := clock w (reads w) |} ];
        this := {| capacity := capacity (this mem);
                   refill_rate := refill_rate (this mem);
                   buckets := <[c := length (heap mem)]> (buckets (this mem)) |}
     |},
     tick w).
Proof. intros H. unfold ensure_bucket, bind, get. rewrite H. reflexivity. Qed.

Lemma tbr_allow_absent (mem : State) w a cost :
  buckets (this mem) !! a = None ->
  allow_request a cost mem w =
    allow_request a cost (state (ensure_bucket a mem w)) (tick w).
Proof.
  intros H. unfold allow_request.
  unfold bind at 1. unfold bind at 4.
  rewrite (tbr_ensure_absent _ _ _ H). unfold state; cbn [fst snd].
  erewrite tbr_ensure_present; [reflexivity|].
  cbn [this buckets]. apply lookup_insert_eq.
Qed.

(** [allow_request] for a registered client, in terms of the two bucket
    methods it calls on the client's cell. *)
Lemma tbr_allow_present_run (mem : State) w a cost r o :
  buckets (this mem) !! a = Some r -> heap mem !! r = Some o ->
  let x := consume cost o w in
  let y := wait_time_for_tokens cost (state x) (world x) in
  allow_request a cost mem w =
    match result x with
    | Ok true =>
        (Ok (true, None),
         {| heap := <[r := state x]> (heap mem); this := this mem |}, world x)
    | Ok false =>
        (match result y with
         | Ok q => Ok (false, Some q)
         | Raise e => Raise e
         end,
         {| heap := <[r := state y]> (heap mem); this := this mem |}, world y)
    | Raise e =>
        (Raise e,
         {| heap := <[r := state x]> (heap mem); this := this mem |}, world x)
    end.
Proof.
  intros Ha Hr. unfold allow_request, bind.
  rewrite (tbr_ensure_present _ _ _ _ Ha).
  unfold getitem, bind, get. rewrite Ha. unfold ret at 1.
  rewrite (at_ref_run _ _ _ _ _ Hr).
  destruct (consume cost o w) as [[[[|]|e] o1] w1]; unfold result, state, world;
    simpl; try reflexivity.
  assert (H1 : <[r := o1]> (heap mem) !! r = Some o1).
  { apply list_lookup_insert_eq. now apply lookup_lt_Some in Hr. }
  rewrite (at_ref_run r _ (mkMem (<[r := o1]> (heap mem)) (this mem)) _ _ H1).
  destruct (wait_time_for_tokens cost o1 w1) as [[[q|e] o2] w2];
    unfold result, state, world; simpl;
    now rewrite list_insert_insert_eq.
Qed.

Lemma tbr_allow_present_state (I : TokenBucket -> Prop) (mem : State)
  w a cost r o :
  preserves I (consume cost) -> preserves I (wait_time_for_tokens cost) ->
  buckets (this mem) !! a = Some r -> heap mem !! r = Some o -> I o ->
  exists o', I o' /\
    state (allow_request a cost mem w) =
      {| heap := <[r := o']> (heap mem); this := this mem |}.
Proof.
  intros Hc Hw Ha Hr Ho. rewrite (tbr_allow_present_run _ _ _ _ _ _ Ha Hr).
  pose proof (Hc o w Ho) as H1.
  pose proof (Hw _ (world (consume cost o w)) H1) as H2.
  destruct (result (consume cost o w)) as [[|]|e]; unfold state at 1; simpl;
    eauto.
Qed.

Lemma tbr_ensure_wf (mem : State) w a :
  refs_wf (buckets (this mem)) (heap mem) ->
  let mem1 := state (ensure_bucket a mem w) in
  refs_wf (buckets (this mem1)) (heap mem1) /\
  exists r o, buckets (this mem1) !! a = Some r /\ heap mem1 !! r = Some o.
Proof.
  intros Hwf. destruct (buckets (this mem) !! a) as [r|] eqn:Ha.
  - rewrite (tbr_ensure_present _ _ _ _ Ha). unfold state; simpl.
    split; [exact Hwf|].
    destruct (lookup_lt_is_Some_2 (heap mem) r) as [o Ho].
    { destruct Hwf as [Hb _]. eauto. }
    eauto.
  - rewrite (tbr_ensure_absent _ _ _ Ha). unfold state; simpl. split.
    + now apply refs_wf_register.
    + eexists _, _. split; [apply lookup_insert_eq|].
      apply list_lookup_middle. reflexivity.
Qed.

Lemma tbr_ensure_frame (mem : State) w a b :
  refs_wf (buckets (this mem)) (heap mem) -> a <> b ->
  let mem1 := state (ensure_bucket a mem w) in
  buckets (this mem1) !! b = buckets (this mem) !! b /\
  bucket_of (buckets (this mem1)) (heap mem1) b =
    bucket_of (buckets (this mem)) (heap mem) b.
Proof.
  intros Hwf Hne. destruct (buckets (this mem) !! a) as [r|] eqn:Ha.
  - rewrite (tbr_ensure_present _ _ _ _ Ha). now unfold state.
  - rewrite (tbr_ensure_absent _ _ _ Ha). unfold state; simpl. split.
    + now apply lookup_insert_ne.
    + now apply bucket_of_register.
Qed.

(** What [allow_request] does to the registry: it registers the client if
    need be, and then writes to that client's cell only; an invariant of
    the two bucket methods that holds of the cell before holds after. *)
Lemma tbr_allow_state (I : TokenBucket -> Prop) (mem : State) w a cost :
  preserves I (consume cost) -> preserves I (wait_time_for_tokens cost) ->
  refs_wf (buckets (this mem)) (heap mem) ->
  let mem1 := state (ensure_bucket a mem w) in
  (forall r o, buckets (this mem1) !! a = Some r -> heap mem1 !! r = Some o ->
               I o) ->
  exists r o',
    buckets (this mem1) !! a = Some r /\ I o' /\
    state (allow_request a cost mem w) =
      {| heap := <[r := o']> (heap mem1); this := this mem1 |}.
Proof.
  intros Hc Hw Hwf mem1 HI.
  destruct (tbr_ensure_wf mem w a Hwf) as (Hwf1 & r & o & Hr & Ho).
  fold mem1 in Hwf1, Hr, Ho. specialize (HI r o Hr Ho).
  destruct (buckets (this mem) !! a) as [r0|] eqn:Ha.
  - assert (mem1 = mem) as E.
    { unfold mem1. now rewrite (tbr_ensure_present _ _ _ _ Ha). }
    rewrite E in *.
    destruct (tbr_allow_present_state I mem w a cost r o Hc Hw Hr Ho HI)
      as (o' & HI' & Ho').
    eauto.
  - rewrite (tbr_allow_absent _ _ _ _ Ha). fold mem1.
    destruct (tbr_allow_present_state I mem1 (tick w) a cost r o Hc Hw Hr Ho HI)
      as (o' & HI' & Ho').
    eauto.
Qed.

Lemma tbr_allow_wf (mem : State) w a cost :
  refs_wf (buckets (this mem)) (heap mem) ->
  let mem' := state (allow_request a cost mem w) in
  refs_wf (buckets (this mem')) (heap mem').
Proof.
  intros Hwf mem'.
  destruct (tbr_allow_state (fun _ => True) mem w a cost) as (r & o' & Hr & _ & E);
    try done.
  unfold mem'. rewrite E. simpl.
  apply refs_wf_update. now apply tbr_ensure_wf.
Qed.

Lemma tbr_allow_frame (mem : State) w a b cost :
  refs_wf (buckets (this mem)) (heap mem) -> a <> b ->
  let mem' := state (allow_request a cost mem w) in
  buckets (this mem') !! b = buckets (this mem) !! b /\
  bucket_of (buckets (this mem')) (heap mem') b =
    bucket_of (buckets (this mem)) (heap mem) b.
Proof.
  intros Hwf Hne mem'.
  destruct (tbr_allow_state (fun _ => True) mem w a cost) as (r & o' & Hr & _ & E);
    try done.
  destruct (tbr_ensure_wf mem w a Hwf) as (Hwf1 & _).
  destruct (tbr_ensure_frame mem w a b Hwf Hne) as [Hb1 Hb2].
  unfold mem'. rewrite E. simpl. split; [exact Hb1|].
  rewrite <- Hb2. now apply (bucket_of_update _ _ a b r).
Qed.

End Q3TokenFacts.

(** ** The leaky-bucket registry of [Question 3] *)

Module Q3LeakyFacts.
Import Q3Leaky Q3Leaky.Limiter.

(** The registry after [client_id] was registered with a new, empty bucket. *)
Lemma lbr_ensure_present (mem : State) w c r :
  buckets (this mem) !! c = Some r -> ensure_bucket c mem w = (Ok tt, mem, w).
Proof. intros H. unfold ensure_bucket, bind, get. rewrite H. reflexivity. Qed.

Lemma lbr_ensure_absent (mem : State) w c :
  buckets (this mem) !! c = None ->
  ensure_bucket c mem w =
    (Ok tt,
     {| heap := heap mem ++
                [ {| Q3Leaky.capacity := capacity (this mem);
                     Q3Leaky.leak_rate := leak_rate (this mem);
                     queue := [];
                     last_leak_time := clock w (reads w) |} ];
        this := {| capacity := capacity (this mem);
                   leak_rate := leak_rate (this mem);
                   buckets := <[c := length (heap mem)]> (buckets (this mem)) |}
     |},
     tick w).
Proof. intros H. unfold ensure_bucket, bind, get. rewrite H. reflexivity. Qed.

Lemma lbr_allow_absent (mem : State) w a rid :
  buckets (this mem) !! a = None ->
  allow_request a rid mem w =
    allow_request a rid (state (ensure_bucket a mem w)) (tick w).
Proof.
  intros H. unfold allow_request.
  unfold bind at 1. unfold bind at 4.
  rewrite (lbr_ensure_absent _ _ _ H). unfold state; cbn [fst snd].
  erewrite lbr_ensure_present; [reflexivity|].
  cbn [this buckets]. apply lookup_insert_eq.
Qed.

(** [allow_request] for a registered client, in terms of the two bucket
    methods it calls on the client's cell. *)
Lemma lbr_allow_present_run (mem : State) w a rid r o :
  buckets (this mem) !! a = Some r -> heap mem !! r = Some o ->
  let x := add_request rid o w in
  let y := get_wait_time (state x) (world x) in
  allow_request a rid mem w =
    match result x with
    | Ok true =>
        (Ok (true, None),
         {| heap := <[r := state x]> (heap mem); this := this mem |}, world x)
    | Ok false =>
        (match result y with
         | Ok q => Ok (false, Some q)
         | Raise e => Raise e
         end,
         {| heap := <[r := state y]> (heap mem); this := this mem |}, world y)
    | Raise e =>
        (Raise e,
         {| heap := <[r := state x]> (heap mem); this := this mem |}, world x)
    end.
Proof.
  intros Ha Hr. unfold allow_request, bind.
  rewrite (lbr_ensure_present _ _ _ _ Ha).
  unfold getitem, bind, get. rewrite Ha. unfold ret at 1.
  rewrite (at_ref_run _ _ _ _ _ Hr).
  destruct (add_request rid o w) as [[[[|]|e] o1] w1]; unfold result, state, world;
    simpl; try reflexivity.
  assert (H1 : <[r := o1]> (heap mem) !! r = Some o1).
  { apply list_lookup_insert_eq. now apply lookup_lt_Some in Hr. }
  rewrite (at_ref_run r _ (mkMem (<[r := o1]> (heap mem)) (this mem)) _ _ H1).
  destruct (get_wait_time o1 w1) as [[[q|e] o2] w2];
    unfold result, state, world; simpl;
    now rewrite list_insert_insert_eq.
Qed.

Lemma lbr_allow_present_state (I : LeakyBucket -> Prop) (mem : State)
  w a rid r o :
  preserves I (add_request rid) -> preserves I (get_wait_time) ->
  buckets (this mem) !! a = Some r -> heap mem !! r = Some o -> I o ->
  exists o', I o' /\
    state (allow_request a rid mem w) =
      {| heap := <[r := o']> (heap mem); this := this mem |}.
Proof.
  intros Hc Hw Ha Hr Ho. rewrite (lbr_allow_present_run _ _ _ _ _ _ Ha Hr).
  pose proof (Hc o w Ho) as H1.
  pose proof (Hw _ (world (add_request rid o w)) H1) as H2.
  destruct (result (add_request rid o w)) as [[|]|e]; unfold state at 1; simpl;
    eauto.
Qed.

Lemma lbr_ensure_wf (mem : State) w a :
  refs_wf (buckets (this mem)) (heap mem) ->
  let mem1 := state (ensure_bucket a mem w) in
  refs_wf (buckets (this mem1)) (heap mem1) /\
  exists r o, buckets (this mem1) !! a = Some r /\ heap mem1 !! r = Some o.
Proof.
  intros Hwf. destruct (buckets (this mem) !! a) as [r|] eqn:Ha.
  - rewrite (lbr_ensure_present _ _ _ _ Ha). unfold state; simpl.
    split; [exact Hwf|].
    destruct (lookup_lt_is_Some_2 (heap mem) r) as [o Ho].
    { destruct Hwf as [Hb _]. eauto. }
    eauto.
  - rewrite (lbr_ensure_absent _ _ _ Ha). unfold state; simpl. split.
    + now apply refs_wf_register.
    + eexists _, _. split; [apply lookup_insert_eq|].
      apply list_lookup_middle. reflexivity.
Qed.

Lemma lbr_ensure_frame (mem : State) w a b :
  refs_wf (buckets (this mem)) (heap mem) -> a <> b ->
  let mem1 := state (ensure_bucket a mem w) in
  buckets (this mem1) !! b = buckets (this mem) !! b /\
  bucket_of (buckets (this mem1)) (heap mem1) b =
    bucket_of (buckets (this mem)) (heap mem) b.
Proof.
  intros Hwf Hne. destruct (buckets (this mem) !! a) as [r|] eqn:Ha.
  - rewrite (lbr_ensure_present _ _ _ _ Ha). now unfold state.
  - rewrite (lbr_ensure_absent _ _ _ Ha). unfold state; simpl. split.
    + now apply lookup_insert_ne.
    + now apply bucket_of_register.
Qed.

(** What [allow_request] does to the registry: it registers the client if
    need be, and then writes to that client's cell only; an invariant of
    the two bucket methods that holds of the cell before holds after. *)
Lemma lbr_allow_state (I : LeakyBucket -> Prop) (mem : State) w a rid :
  preserves I (add_request rid) -> preserves I (get_wait_time) ->
  refs_wf (buckets (this mem)) (heap mem) ->
  let mem1 := state (ensure_bucket a mem w) in
  (forall r o, buckets (this mem1) !! a = Some r -> heap mem1 !! r = Some o ->
               I o) ->
  exists r o',
    buckets (this mem1) !! a = Some r /\ I o' /\
    state (allow_request a rid mem w) =
      {| heap := <[r := o']> (heap mem1); this := this mem1 |}.
Proof.
  intros Hc Hw Hwf mem1 HI.
  destruct (lbr_ensure_wf mem w a Hwf) as (Hwf1 & r & o & Hr & Ho).
  fold mem1 in Hwf1, Hr, Ho. specialize (HI r o Hr Ho).
  destruct (buckets (this mem) !! a) as [r0|] eqn:Ha.
  - assert (mem1 = mem) as E.
    { unfold mem1. now rewrite (lbr_ensure_present _ _ _ _ Ha). }
    rewrite E in *.
    destruct (lbr_allow_present_state I mem w a rid r o Hc Hw Hr Ho HI)
      as (o' & HI' & Ho').
    eauto.
  - rewrite (lbr_allow_absent _ _ _ _ Ha). fold mem1.
    destruct (lbr_allow_present_state I mem1 (tick w) a rid r o Hc Hw Hr Ho HI)
      as (o' & HI' & Ho').
    eauto.
Qed.

Lemma lbr_allow_wf (mem : State) w a rid :
  refs_wf (buckets (this mem)) (heap mem) ->
  let mem' := state (allow_request a rid mem w) in
  refs_wf (buckets (this mem')) (heap mem').
Proof.
  intros Hwf mem'.
  destruct (lbr_allow_state (fun _ => True) mem w a rid) as (r & o' & Hr & _ & E);
    try done.
  unfold mem'. rewrite E. simpl.
  apply refs_wf_update. now apply lbr_ensure_wf.
Qed.

Lemma lbr_allow_frame (mem : State) w a b rid :
  refs_wf (buckets (this mem)) (heap mem) -> a <> b ->
  let mem' := state (allow_request a rid mem w) in
  buckets (this mem') !! b = buckets (this mem) !! b /\
  bucket_of (buckets (this mem')) (heap mem') b =
    bucket_of (buckets (this mem)) (heap mem) b.
Proof.
  intros Hwf Hne mem'.
  destruct (lbr_allow_state (fun _ => True) mem w a rid) as (r & o' & Hr & _ & E);
    try done.
  destruct (lbr_ensure_wf mem w a Hwf) as (Hwf1 & _).
  destruct (lbr_ensure_frame mem w a b Hwf Hne) as [Hb1 Hb2].
  unfold mem'. rewrite E. simpl. split; [exact Hb1|].
  rewrite <- Hb2. now apply (bucket_of_update _ _ a b r).
Qed.

End Q3LeakyFacts.


(** ** Per-client isolation and the view of an unseen client *)

(** C8 — Per-client isolation.  In both multi-client limiters of
    [Question 3], [allow_request] for client [a], whatever it returns or
    raises, leaves the registry entry of any other client [b] and the whole
    bucket object behind it (level or queue, timestamp, configuration)
    exactly as they were. *)
Theorem per_client_isolation
  (memt : Q3Token.Limiter.State) (meml : Q3Leaky.Limiter.State)
  (a b : string) (cost : Q) (rid : option string) (wt wl : World) :
  a <> b ->
  refs_wf (Q3Token.Limiter.buckets (this memt)) (heap memt) ->
  refs_wf (Q3Leaky.Limiter.buckets (this meml)) (heap meml) ->
  (let mem' := state (Q3Token.Limiter.allow_request a cost memt wt) in
   Q3Token.Limiter.buckets (this mem') !! b =
     Q3Token.Limiter.buckets (this memt) !! b /\
   bucket_of (Q3Token.Limiter.buckets (this mem')) (heap mem') b =
     bucket_of (Q3Token.Limiter.buckets (this memt)) (heap memt) b) /\
  (let mem' := state (Q3Leaky.Limiter.allow_request a rid meml wl) in
   Q3Leaky.Limiter.buckets (this mem') !! b =
     Q3Leaky.Limiter.buckets (this meml) !! b /\
   bucket_of (Q3Leaky.Limiter.buckets (this mem')) (heap mem') b =
     bucket_of (Q3Leaky.Limiter.buckets (this meml)) (heap meml) b).
Proof.
  intros Hne Ht Hl. split.
  - now apply Q3TokenFacts.tbr_allow_frame.
  - now apply Q3LeakyFacts.lbr_allow_frame.
Qed.

Lemma per_client_isolation_witness :
  (Q3Token.Limiter.buckets
     (this (state (Q3Token.Limiter.allow_request "alice" 100
                     token_registry_with_bob (frozen 9)))) !! "bob" =
     Some 0%nat /\
   bucket_of
     (Q3Token.Limiter.buckets
        (this (state (Q3Token.Limiter.allow_request "alice" 100
                        token_registry_with_bob (frozen 9)))))
     (heap (state (Q3Token.Limiter.allow_request "alice" 100
                     token_registry_with_bob (frozen 9)))) "bob" =
     Some bob_token_bucket) /\
  (Q3Leaky.Limiter.buckets
     (this (state (Q3Leaky.Limiter.allow_request "alice" None
                     leaky_registry_with_bob (frozen 9)))) !! "bob" =
     Some 0%nat /\
   bucket_of
     (Q3Leaky.Limiter.buckets
        (this (state (Q3Leaky.Limiter.allow_request "alice" None
                        leaky_registry_with_bob (frozen 9)))))
     (heap (state (Q3Leaky.Limiter.allow_request "alice" None
                     leaky_registry_with_bob (frozen 9)))) "bob" =
     Some bob_leaky_bucket).
Proof.
  apply (per_client_isolation token_registry_with_bob leaky_registry_with_bob
           "alice" "bob" 100 None (frozen 9) (frozen 9)).
  - discriminate.
  - apply (refs_wf_register ∅ [] "bob" bob_token_bucket);
      [apply lookup_empty|apply refs_wf_empty].
  - apply (refs_wf_register ∅ [] "bob" bob_leaky_bucket);
      [apply lookup_empty|apply refs_wf_empty].
Defined.

(** C10 — [get_client_info] for a client that is not in the registry
    returns the view of an unused bucket ([tokens_available = capacity];
    [queue_size = 0] and [is_full = False]) with the limiter's
    configuration, and changes nothing: the registry, every bucket and even
    the clock are as before, and no limiter was created for the client. *)
Theorem get_client_info_unseen
  (memt : Q3Token.Limiter.State) (meml : Q3Leaky.Limiter.State)
  (c : string) (wt wl : World) :
  Q3Token.Limiter.buckets (this memt) !! c = None ->
  Q3Leaky.Limiter.buckets (this meml) !! c = None ->
  Q3Token.Limiter.get_client_info c memt wt =
    (Ok {| Q3Token.Limiter.info_client_id := c;
           Q3Token.Limiter.info_tokens_available :=
             Q3Token.Limiter.capacity (this memt);
           Q3Token.Limiter.info_capacity :=
             Q3Token.Limiter.capacity (this memt);
           Q3Token.Limiter.info_refill_rate :=
             Q3Token.Limiter.refill_rate (this memt) |},
     memt, wt) /\
  Q3Leaky.Limiter.get_client_info c meml wl =
    (Ok {| Q3Leaky.Limiter.info_client_id := c;
           Q3Leaky.Limiter.info_queue_size := 0;
           Q3Leaky.Limiter.info_capacity :=
             Q3Leaky.Limiter.capacity (this meml);
           Q3Leaky.Limiter.info_leak_rate :=
             Q3Leaky.Limiter.leak_rate (this meml);
           Q3Leaky.Limiter.info_is_full := false |},
     meml, wl).
Proof.
  intros Ht Hl. split.
  - unfold Q3Token.Limiter.get_client_info, bind, get. now rewrite Ht.
  - unfold Q3Leaky.Limiter.get_client_info, bind, get. now rewrite Hl.
Qed.

Lemma get_client_info_unseen_witness :
  Q3Token.Limiter.get_client_info "alice" token_registry_with_bob (frozen 9) =
    (Ok (Q3Token.Limiter.mkInfo "alice" 10 10 2),
     token_registry_with_bob, frozen 9) /\
  Q3Leaky.Limiter.get_client_info "alice" leaky_registry_with_bob (frozen 9) =
    (Ok (Q3Leaky.Limiter.mkInfo "alice" 0 5 2 false),
     leaky_registry_with_bob, frozen 9).
Proof.
  apply (get_client_info_unseen token_registry_with_bob
           leaky_registry_with_bob "alice" (frozen 9) (frozen 9));
    reflexivity.
Defined.

(** ** The leak never raises *)

Lemma rl_popleft_loop (k : nat) (self : RlLeaky.LeakyBucket) (w : World) :
  (k <= length (RlLeaky.bucket self))%nat ->
  repeat_ k RlLeaky.popleft self w =
    (Ok tt, RlLeaky.set_bucket (skipn k (RlLeaky.bucket self)) self, w).
Proof.
  revert self. induction k as [|k IH]; intros self Hk.
  - destruct self; reflexivity.
  - destruct self as [c r [|x rest] l]; simpl in Hk; [lia|].
    simpl. unfold bind at 1. unfold RlLeaky.popleft, bind, get, put; simpl.
    rewrite IH by (simpl; lia). reflexivity.
Qed.

Lemma q3_popleft_loop (k : nat) (self : Q3Leaky.LeakyBucket) (w : World) :
  (k <= length (Q3Leaky.queue self))%nat ->
  repeat_ k Q3Leaky.popleft self w =
    (Ok tt, Q3Leaky.set_queue (skipn k (Q3Leaky.queue self)) self, w).
Proof.
  revert self. induction k as [|k IH]; intros self Hk.
  - destruct self; reflexivity.
  - destruct self as [c r [|x rest] l]; simpl in Hk; [lia|].
    simpl. unfold bind at 1. unfold Q3Leaky.popleft, bind, get, put; simpl.
    rewrite IH by (simpl; lia). reflexivity.
Qed.

Lemma ap_popleft_loop (k : nat) (self : ApLeaky.LeakyBucket) (w : World) :
  repeat_ k ApLeaky.popleft_if_any self w =
    (Ok tt, ApLeaky.set_queue (skipn k (ApLeaky.queue self)) self, w).
Proof.
  revert self. induction k as [|k IH]; intros self.
  - destruct self; reflexivity.
  - destruct self as [c r [|x rest] l]; simpl; unfold bind at 1;
      unfold ApLeaky.popleft_if_any, bind, get, put, ret; simpl;
      rewrite IH; simpl; try reflexivity.
    now rewrite skipn_nil.
Qed.

Lemma to_nat_min_len {A} (n : Z) (l : list A) :
  (Z.to_nat (Z.min n (len l)) <= length l)%nat.
Proof. unfold len. lia. Qed.

Lemma rl_leak_returns (self : RlLeaky.LeakyBucket) (w : World) :
  result (RlLeaky._leak_requests self w) = Ok tt.
Proof.
  unfold RlLeaky._leak_requests, bind, time_time, get.
  destruct (0 <? _)%Z; [|reflexivity].
  unfold for_range. rewrite rl_popleft_loop by apply to_nat_min_len.
  reflexivity.
Qed.

Lemma q3_leak_returns (self : Q3Leaky.LeakyBucket) (w : World) :
  result (Q3Leaky._leak self w) = Ok tt.
Proof.
  unfold Q3Leaky._leak, bind, time_time, get.
  destruct (0 <? _)%Z; [|reflexivity].
  unfold for_range. rewrite q3_popleft_loop by apply to_nat_min_len.
  reflexivity.
Qed.

Lemma ap_leak_returns (self : ApLeaky.LeakyBucket) (w : World) :
  result (ApLeaky._leak_requests self w) = Ok tt.
Proof.
  unfold ApLeaky._leak_requests, bind, time_time, get.
  destruct (0 <? _)%Z; [|reflexivity].
  unfold for_range. rewrite ap_popleft_loop. reflexivity.
Qed.

(** The leak keeps the configuration. *)
Lemma rl_leak_config (self : RlLeaky.LeakyBucket) (w : World) :
  let adv := state (RlLeaky._leak_requests self w) in
  RlLeaky.capacity adv = RlLeaky.capacity self /\
  RlLeaky.leak_rate adv = RlLeaky.leak_rate self.
Proof.
  unfold RlLeaky._leak_requests, bind, time_time, get.
  destruct (0 <? _)%Z; [|now unfold state].
  unfold for_range. rewrite rl_popleft_loop by apply to_nat_min_len.
  now unfold state.
Qed.

Lemma q3_leak_config (self : Q3Leaky.LeakyBucket) (w : World) :
  let adv := state (Q3Leaky._leak self w) in
  Q3Leaky.capacity adv = Q3Leaky.capacity self /\
  Q3Leaky.leak_rate adv = Q3Leaky.leak_rate self.
Proof.
  unfold Q3Leaky._leak, bind, time_time, get.
  destruct (0 <? _)%Z; [|now unfold state].
  unfold for_range. rewrite q3_popleft_loop by apply to_nat_min_len.
  now unfold state.
Qed.

Lemma ap_leak_config (self : ApLeaky.LeakyBucket) (w : World) :
  let adv := state (ApLeaky._leak_requests self w) in
  ApLeaky.capacity adv = ApLeaky.capacity self /\
  ApLeaky.leak_rate adv = ApLeaky.leak_rate self.
Proof.
  unfold ApLeaky._leak_requests, bind, time_time, get.
  destruct (0 <? _)%Z; [|now unfold state].
  unfold for_range. rewrite ap_popleft_loop. now unfold state.
Qed.

Lemma py_div_run {S} (a b : Q) (s : S) (w : World) :
  ~ b == 0 -> py_div a b s w = (Ok (a / b), s, w).
Proof.
  intros H. unfold py_div. destruct (Qeq_bool b 0) eqn:E; [|reflexivity].
  apply Qeq_bool_iff in E. contradiction.
Qed.

(** ** Wait time of the leaky buckets *)

(** C5 as stated fails on two of the three leaky buckets.  In
    [src/rate_limiting], a bucket of capacity 5 and rate 2 holding one
    request is not full, yet [get_wait_time] returns [1/2], not [0].  In
    [Question 3], a full bucket of capacity 5 and rate 2 returns [1/2],
    not [queueLength / rate = 5/2]. *)
Lemma get_wait_time_not_as_stated :
  (exists t,
     RlLeaky.get_wait_time (RlLeaky.mkLeakyBucket 5 2 [0] 0) (frozen 0) =
       (Ok t, RlLeaky.mkLeakyBucket 5 2 [0] 0, tick (frozen 0)) /\
     (len [0] < 5)%Z /\ t == 1 # 2 /\ ~ t == 0) /\
  (exists t (q : list Q3Leaky.Request),
     q = repeat (Q3Leaky.mkRequest (Q3Leaky.Given "r") 0) 5 /\
     Q3Leaky.get_wait_time (Q3Leaky.mkLeakyBucket 5 2 q 0) (frozen 0) =
       (Ok t, Q3Leaky.mkLeakyBucket 5 2 q 0, tick (frozen 0)) /\
     len q = 5%Z /\ t == 1 # 2 /\ ~ t == inject_Z (len q) / 2).
Proof.
  split.
  - eexists. split; [reflexivity|]. repeat split; discriminate.
  - eexists _, _. split; [reflexivity|]. split; [reflexivity|].
    repeat split; discriminate.
Qed.

(** C5, amended — what [get_wait_time] returns after the leak, per
    variant, for a positive leak rate.  [API Project]: [0] while the queue
    is below capacity, [len(queue) / leak_rate] once it is full.
    [src/rate_limiting]: [0] only for an empty queue, otherwise
    [len(bucket) / leak_rate], full or not.  [Question 3]: [0] while below
    capacity, [1 / leak_rate] once full.  In every case the bucket is left
    as the leak left it. *)
Theorem get_wait_time_by_variant
  (ap : ApLeaky.LeakyBucket) (rl : RlLeaky.LeakyBucket)
  (q3 : Q3Leaky.LeakyBucket) (w : World) :
  0 < ApLeaky.leak_rate ap -> (0 < ApLeaky.capacity ap)%Z ->
  0 < RlLeaky.leak_rate rl ->
  0 < Q3Leaky.leak_rate q3 ->
  (let adv := state (ApLeaky._leak_requests ap w) in
   let w1 := world (ApLeaky._leak_requests ap w) in
   ((len (ApLeaky.queue adv) < ApLeaky.capacity adv)%Z ->
    ApLeaky.get_wait_time ap w = (Ok 0, adv, w1)) /\
   ((ApLeaky.capacity adv <= len (ApLeaky.queue adv))%Z ->
    ApLeaky.get_wait_time ap w =
      (Ok (inject_Z (len (ApLeaky.queue adv)) / ApLeaky.leak_rate adv),
       adv, w1))) /\
  (let adv := state (RlLeaky._leak_requests rl w) in
   let w1 := world (RlLeaky._leak_requests rl w) in
   (len (RlLeaky.bucket adv) = 0%Z ->
    RlLeaky.get_wait_time rl w = (Ok 0, adv, w1)) /\
   (len (RlLeaky.bucket adv) <> 0%Z ->
    RlLeaky.get_wait_time rl w =
      (Ok (inject_Z (len (RlLeaky.bucket adv)) / RlLeaky.leak_rate adv),
       adv, w1))) /\
  (let adv := state (Q3Leaky._leak q3 w) in
   let w1 := world (Q3Leaky._leak q3 w) in
   ((len (Q3Leaky.queue adv) < Q3Leaky.capacity adv)%Z ->
    Q3Leaky.get_wait_time q3 w = (Ok 0, adv, w1)) /\
   ((Q3Leaky.capacity adv <= len (Q3Leaky.queue adv))%Z ->
    Q3Leaky.get_wait_time q3 w =
      (Ok (1 / Q3Leaky.leak_rate adv), adv, w1))).
Proof.
  intros Hap Hcap Hrl Hq3. split; [|split].
  - pose proof (ap_leak_returns ap w) as Hr.
    pose proof (ap_leak_config ap w) as [Hc Hl].
    unfold ApLeaky.get_wait_time, bind.
    destruct (ApLeaky._leak_requests ap w) as [[[[]|e] adv] w1];
      [clear Hr|discriminate Hr].
    unfold state, world in *; simpl in *. unfold get.
    split; intros H.
    + apply Z.ltb_lt in H. now rewrite H.
    + assert (E : (len (ApLeaky.queue adv) <? ApLeaky.capacity adv)%Z = false)
        by now apply Z.ltb_ge.
      rewrite E.
      destruct (ApLeaky.queue adv) as [|x rest] eqn:Eq;
        [unfold len in H; simpl in H; lia|].
      rewrite py_div_run by (rewrite Hl; lra).
      unfold ret, py_max.
      assert (Hpos : 0 < inject_Z (len (x :: rest)) / ApLeaky.leak_rate adv).
      { rewrite Hl. apply Qlt_shift_div_l; [exact Hap|].
        rewrite Qmult_0_l. unfold len; simpl length.
        change 0 with (inject_Z 0). rewrite <- Zlt_Qlt. lia. }
      apply Qltb_lt in Hpos. now rewrite Hpos.
  - pose proof (rl_leak_returns rl w) as Hr.
    pose proof (rl_leak_config rl w) as [Hc Hl].
    unfold RlLeaky.get_wait_time, bind.
    destruct (RlLeaky._leak_requests rl w) as [[[[]|e] adv] w1];
      [clear Hr|discriminate Hr].
    unfold state, world in *; simpl in *. unfold get.
    split; intros H.
    + apply Z.eqb_eq in H. now rewrite H.
    + apply Z.eqb_neq in H. rewrite H.
      now rewrite py_div_run by (rewrite Hl; lra).
  - pose proof (q3_leak_returns q3 w) as Hr.
    pose proof (q3_leak_config q3 w) as [Hc Hl].
    unfold Q3Leaky.get_wait_time, bind.
    destruct (Q3Leaky._leak q3 w) as [[[[]|e] adv] w1];
      [clear Hr|discriminate Hr].
    unfold state, world in *; simpl in *. unfold get.
    split; intros H.
    + apply Z.ltb_lt in H. now rewrite H.
    + apply Z.ltb_ge in H. rewrite H.
      now rewrite py_div_run by (rewrite Hl; lra).
Qed.

Lemma get_wait_time_by_variant_witness :
  ApLeaky.get_wait_time (ApLeaky.mkLeakyBucket 5 2 [0; 0; 0; 0; 0] 0)
    (frozen 0) =
    (Ok (inject_Z 5 / 2), ApLeaky.mkLeakyBucket 5 2 [0; 0; 0; 0; 0] 0,
     tick (frozen 0)) /\
  RlLeaky.get_wait_time (RlLeaky.mkLeakyBucket 5 2 [0] 0) (frozen 0) =
    (Ok (inject_Z 1 / 2), RlLeaky.mkLeakyBucket 5 2 [0] 0, tick (frozen 0)) /\
  Q3Leaky.get_wait_time
    (Q3Leaky.mkLeakyBucket 1 2 [Q3Leaky.mkRequest (Q3Leaky.Given "r") 0] 0)
    (frozen 0) =
    (Ok (1 / 2),
     Q3Leaky.mkLeakyBucket 1 2 [Q3Leaky.mkRequest (Q3Leaky.Given "r") 0] 0,
     tick (frozen 0)).
Proof.
  destruct (get_wait_time_by_variant
              (ApLeaky.mkLeakyBucket 5 2 [0; 0; 0; 0; 0] 0)
              (RlLeaky.mkLeakyBucket 5 2 [0] 0)
              (Q3Leaky.mkLeakyBucket 1 2
                 [Q3Leaky.mkRequest (Q3Leaky.Given "r") 0] 0)
              (frozen 0))
    as ((_ & Hap) & (_ & Hrl) & (_ & Hq3)); try reflexivity.
  split; [|split].
  - apply Hap. vm_compute. discriminate.
  - apply Hrl. vm_compute. discriminate.
  - apply Hq3. vm_compute. discriminate.
Defined.

(** ** Clock regression in the refill *)

(** In [src/rate_limiting] a clock reading at or before [last_refill] makes
    [_refill_tokens] a no-op on the whole bucket, and it never raises. *)
Lemma rl_refill_regression_noop (self : RlToken.TokenBucket) (w : World) :
  0 <= RlToken.refill_rate self ->
  clock w (reads w) <= RlToken.last_refill self ->
  RlToken._refill_tokens self w = (Ok tt, self, tick w).
Proof.
  intros Hr Hnow.
  unfold RlToken._refill_tokens, bind, time_time, get.
  assert (E : Qltb 0 ((clock w (reads w) - RlToken.last_refill self) *
                      RlToken.refill_rate self) = false).
  { apply Qltb_ge. nra. }
  now rewrite E.
Qed.

(** C6 — the failing input.  The [Question 3] bucket has no guard: with
    [last_refill_time = 100] and the clock reading [99], [_refill] applies
    the negative elapsed time; a full bucket of capacity 10 and rate 2
    drops to 8 tokens and its timestamp moves back to 99.  The sibling
    [_refill_tokens] of [src/rate_limiting] leaves the same bucket
    untouched. *)
Theorem q3_refill_applies_negative_elapsed :
  Q3Token._refill (Q3Token.mkTokenBucket 10 2 10 100) (frozen 99) =
    (Ok tt, Q3Token.mkTokenBucket 10 2 8 99, tick (frozen 99)) /\
  RlToken._refill_tokens (RlToken.mkTokenBucket 10 2 10 100) (frozen 99) =
    (Ok tt, RlToken.mkTokenBucket 10 2 10 100, tick (frozen 99)).
Proof. split; reflexivity. Qed.

(** ** Validation at construction *)

(** [src/rate_limiting] and [API Project] reject a non-positive capacity or
    rate with [ValueError], before reading the clock. *)
Lemma rl_token_init_rejects {S} (c r : Q) (s : S) (w : World) :
  c <= 0 \/ r <= 0 ->
  exists msg, RlToken.__init__ c r s w = (Raise (ValueError msg), s, w).
Proof.
  intros H. unfold RlToken.__init__.
  destruct (Qleb c 0) eqn:Ec; [eexists; reflexivity|].
  destruct (Qleb r 0) eqn:Er; [eexists; reflexivity|].
  apply Qleb_gt in Ec, Er. destruct H; lra.
Qed.

Lemma rl_leaky_init_rejects {S} (c : Z) (r : Q) (s : S) (w : World) :
  (c <= 0)%Z \/ r <= 0 ->
  exists msg, RlLeaky.__init__ c r s w = (Raise (ValueError msg), s, w).
Proof.
  intros H. unfold RlLeaky.__init__.
  destruct (c <=? 0)%Z eqn:Ec; [eexists; reflexivity|].
  destruct (Qleb r 0) eqn:Er; [eexists; reflexivity|].
  apply Z.leb_gt in Ec. apply Qleb_gt in Er. destruct H; [lia|lra].
Qed.

Lemma ap_leaky_init_rejects {S} (c : Z) (r : Q) (n : Z) (s : S) (w : World) :
  (c <= 0)%Z \/ r <= 0 ->
  exists msg, ApLeaky.__init__ c r n s w = (Raise (ValueError msg), s, w).
Proof.
  intros H. unfold ApLeaky.__init__.
  destruct (c <=? 0)%Z eqn:Ec; [eexists; reflexivity|].
  destruct (Qleb r 0) eqn:Er; [eexists; reflexivity|].
  apply Z.leb_gt in Ec. apply Qleb_gt in Er. destruct H; [lia|lra].
Qed.

(** C7 — the failing input.  The [Question 3] constructors validate
    nothing: [TokenBucket(0, 0)] and [LeakyBucket(0, 0)] are built, empty
    and with rate zero, where the [src/rate_limiting] constructors raise
    [ValueError] on the same arguments.  A limiter configured that way
    fails later instead: the first request is refused and the retry-after
    divides by the zero rate. *)
Theorem q3_init_accepts_invalid :
  Q3Token.__init__ 0 0 tt (frozen 0) =
    (Ok (Q3Token.mkTokenBucket 0 0 0 0), tt, tick (frozen 0)) /\
  Q3Leaky.__init__ 0 0 tt (frozen 0) =
    (Ok (Q3Leaky.mkLeakyBucket 0 0 [] 0), tt, tick (frozen 0)) /\
  RlToken.__init__ 0 0 tt (frozen 0) =
    (Raise (ValueError "Capacity must be positive"), tt, frozen 0) /\
  RlLeaky.__init__ 0 0 tt (frozen 0) =
    (Raise (ValueError "Capacity must be positive"), tt, frozen 0) /\
  result (Q3Token.Limiter.allow_request "u" 1
            (mkMem [] (Q3Token.Limiter.__init__ 0 0)) (frozen 0)) =
    Raise ZeroDivisionError /\
  result (Q3Leaky.Limiter.allow_request "u" None
            (mkMem [] (Q3Leaky.Limiter.__init__ 0 0)) (frozen 0)) =
    Raise ZeroDivisionError.
Proof. repeat split. Qed.

(** ** A cost above the capacity *)

Lemma q3_refill_run (b : Q3Token.TokenBucket) (w : World) :
  Q3Token._refill b w =
    (Ok tt,
     {| Q3Token.capacity := Q3Token.capacity b;
        Q3Token.refill_rate := Q3Token.refill_rate b;
        Q3Token.tokens :=
          py_min (Q3Token.capacity b)
            (Q3Token.tokens b +
             (clock w (reads w) - Q3Token.last_refill_time b) *
             Q3Token.refill_rate b);
        Q3Token.last_refill_time := clock w (reads w) |},
     tick w).
Proof. reflexivity. Qed.

Lemma q3_refill_config c r : preserves (q3_config_is c r) Q3Token._refill.
Proof. intros b w H. exact H. Qed.

Lemma q3_consume_config c r cost :
  preserves (q3_config_is c r) (Q3Token.consume cost).
Proof.
  unfold Q3Token.consume.
  apply preserves_bind; [apply q3_refill_config|]. intros _.
  apply preserves_get_bind. intros b H.
  destruct (Qleb cost _); [|apply preserves_ret].
  apply preserves_bind; [|intros; apply preserves_ret].
  now apply preserves_put.
Qed.

Lemma q3_wait_config c r cost :
  preserves (q3_config_is c r) (Q3Token.wait_time_for_tokens cost).
Proof.
  unfold Q3Token.wait_time_for_tokens.
  apply preserves_bind; [apply q3_refill_config|]. intros _.
  apply preserves_get_bind. intros b H.
  destruct (Qleb cost _); [apply preserves_ret|apply preserves_div].
Qed.

(** A cost above the capacity is refused in every state of the bucket:
    the refill clamps the level to the capacity before the comparison. *)
Lemma q3_consume_over_capacity (b : Q3Token.TokenBucket) (w : World) cost :
  Q3Token.capacity b < cost ->
  Q3Token.consume cost b w = (Ok false, state (Q3Token._refill b w), tick w).
Proof.
  intros H. unfold Q3Token.consume, bind. rewrite q3_refill_run.
  unfold get, state; simpl.
  assert (E : Qleb cost
                (py_min (Q3Token.capacity b)
                   (Q3Token.tokens b +
                    (clock w (reads w) - Q3Token.last_refill_time b) *
                    Q3Token.refill_rate b)) = false).
  { apply Qleb_gt. eapply Qle_lt_trans; [apply py_min_le_l|exact H]. }
  now rewrite E.
Qed.

Lemma q3_wait_over_capacity (b : Q3Token.TokenBucket) (w : World) cost :
  Q3Token.capacity b < cost -> 0 < Q3Token.refill_rate b ->
  exists q,
    Q3Token.wait_time_for_tokens cost b w =
      (Ok q, state (Q3Token._refill b w), tick w) /\
    0 < q /\ (cost - Q3Token.capacity b) / Q3Token.refill_rate b <= q.
Proof.
  intros H Hr. unfold Q3Token.wait_time_for_tokens, bind.
  rewrite q3_refill_run. unfold get, state; simpl.
  set (lvl := py_min _ _).
  assert (Hl : lvl <= Q3Token.capacity b) by apply py_min_le_l.
  assert (E : Qleb cost lvl = false) by (apply Qleb_gt; lra).
  rewrite E. rewrite py_div_run by lra.
  eexists. split; [reflexivity|]. split.
  - apply Qlt_shift_div_l; [exact Hr|]. lra.
  - apply Qle_shift_div_l; [exact Hr|].
    unfold Qdiv. rewrite <- Qmult_assoc, (Qmult_comm (/ _)), Qmult_inv_r by lra.
    lra.
Qed.

Lemma bucket_of_update_same {O} (refs : gmap string nat) (h : list O) c r o :
  refs !! c = Some r -> (r < length h)%nat ->
  bucket_of refs (<[r := o]> h) c = Some o.
Proof.
  intros Hc Hr. unfold bucket_of. rewrite Hc.
  now apply list_lookup_insert_eq.
Qed.

Lemma tbr_allow_after_ensure (mem : Q3Token.Limiter.State) w a cost :
  Q3Token.Limiter.allow_request a cost mem w =
    Q3Token.Limiter.allow_request a cost
      (state (Q3Token.Limiter.ensure_bucket a mem w))
      (world (Q3Token.Limiter.ensure_bucket a mem w)).
Proof.
  destruct (Q3Token.Limiter.buckets (this mem) !! a) as [r|] eqn:Ha.
  - now rewrite (Q3TokenFacts.tbr_ensure_present _ _ _ _ Ha).
  - rewrite (Q3TokenFacts.tbr_allow_absent _ _ _ _ Ha).
    now rewrite (Q3TokenFacts.tbr_ensure_absent _ _ _ Ha).
Qed.

Lemma tbr_ensure_ok (mem : Q3Token.Limiter.State) w a :
  tb_registry_ok mem ->
  let mem1 := state (Q3Token.Limiter.ensure_bucket a mem w) in
  tb_registry_ok mem1 /\
  Q3Token.Limiter.capacity (this mem1) = Q3Token.Limiter.capacity (this mem) /\
  Q3Token.Limiter.refill_rate (this mem1) =
    Q3Token.Limiter.refill_rate (this mem).
Proof.
  intros [Hwf Hcfg].
  destruct (Q3Token.Limiter.buckets (this mem) !! a) as [r|] eqn:Ha.
  - rewrite (Q3TokenFacts.tbr_ensure_present _ _ _ _ Ha). unfold state; simpl.
    split; [split; assumption|split; reflexivity].
  - rewrite (Q3TokenFacts.tbr_ensure_absent _ _ _ Ha). unfold state; simpl.
    split; [|split; reflexivity]. split; simpl.
    + now apply refs_wf_register.
    + intros c b. destruct (decide (a = c)) as [<-|Hne].
      * unfold bucket_of. rewrite lookup_insert_eq, list_lookup_middle by done.
        intros [= <-]. split; reflexivity.
      * rewrite bucket_of_register by done. apply Hcfg.
Qed.

Lemma tbr_allow_ok (mem : Q3Token.Limiter.State) w a cost :
  tb_registry_ok mem ->
  tb_registry_ok (state (Q3Token.Limiter.allow_request a cost mem w)).
Proof.
  intros Hok. pose proof Hok as [Hwf _].
  destruct (tbr_ensure_ok mem w a Hok) as ([Hwf1 Hcfg1] & Hc & Hr).
  set (mem1 := state (Q3Token.Limiter.ensure_bucket a mem w)) in *.
  destruct (Q3TokenFacts.tbr_allow_state
              (q3_config_is (Q3Token.Limiter.capacity (this mem1))
                 (Q3Token.Limiter.refill_rate (this mem1)))
              mem w a cost)
    as (r & o' & Ha & Ho' & E).
  - apply q3_consume_config.
  - apply q3_wait_config.
  - exact Hwf.
  - intros r o Ha Ho. fold mem1 in Ha, Ho.
    apply (Hcfg1 a). unfold bucket_of. now rewrite Ha.
  - fold mem1 in Ha, E. rewrite E. split; simpl.
    + now apply refs_wf_update.
    + intros c b. destruct (decide (a = c)) as [<-|Hne].
      * rewrite (bucket_of_update_same _ _ a r) by (destruct Hwf1; eauto).
        now intros [= <-].
      * rewrite (bucket_of_update _ _ a c r) by done. apply Hcfg1.
Qed.

Lemma tb_registry_ok_init (c r : Q) :
  tb_registry_ok (mkMem [] (Q3Token.Limiter.__init__ c r)).
Proof.
  split; [apply refs_wf_empty|].
  intros c' b. unfold bucket_of. simpl. now rewrite lookup_empty.
Qed.

(** For a limiter with a positive refill rate, a request whose cost
    exceeds the capacity is denied in every state of the registry and
    under every clock, for a new client as for a known one; what the
    caller gets is the ordinary return value [(False, retry_after)] with a
    finite, positive [retry_after]; and the registry invariant is kept. *)
Lemma tbr_over_capacity_denied
  (mem : Q3Token.Limiter.State) (w : World) (c : string) (cost : Q) :
  tb_registry_ok mem ->
  Q3Token.Limiter.capacity (this mem) < cost ->
  0 < Q3Token.Limiter.refill_rate (this mem) ->
  (exists retry_after,
     result (Q3Token.Limiter.allow_request c cost mem w) =
       Ok (false, Some retry_after) /\
     0 < retry_after /\
     (cost - Q3Token.Limiter.capacity (this mem)) /
       Q3Token.Limiter.refill_rate (this mem) <= retry_after) /\
  tb_registry_ok (state (Q3Token.Limiter.allow_request c cost mem w)).
Proof.
  intros Hok Hcost Hrate. split; [|now apply tbr_allow_ok].
  destruct (tbr_ensure_ok mem w c Hok) as ([Hwf1 Hcfg1] & Hc & Hr).
  destruct (Q3TokenFacts.tbr_ensure_wf mem w c (proj1 Hok))
    as (_ & r & o & Ha & Ho).
  rewrite tbr_allow_after_ensure.
  set (mem1 := state (Q3Token.Limiter.ensure_bucket c mem w)) in *.
  set (w1 := world (Q3Token.Limiter.ensure_bucket c mem w)).
  destruct (Hcfg1 c o) as [Hoc Hor].
  { unfold bucket_of. now rewrite Ha. }
  rewrite Hc in Hoc. rewrite Hr in Hor.
  rewrite (Q3TokenFacts.tbr_allow_present_run mem1 w1 c cost r o Ha Ho).
  rewrite q3_consume_over_capacity by (rewrite Hoc; exact Hcost).
  set (adv := state (Q3Token._refill o w1)).
  change (result (Ok false, adv, tick w1)) with (@Ok bool false).
  change (state (Ok false, adv, tick w1)) with adv.
  change (world (Ok false, adv, tick w1)) with (tick w1).
  cbv beta iota.
  destruct (q3_wait_over_capacity adv (tick w1) cost) as (q & Eq & Hq & Hlow).
  { change (Q3Token.capacity adv) with (Q3Token.capacity o).
    rewrite Hoc. exact Hcost. }
  { change (Q3Token.refill_rate adv) with (Q3Token.refill_rate o).
    rewrite Hor. exact Hrate. }
  rewrite Eq. exists q. split; [reflexivity|]. split; [exact Hq|].
  change (Q3Token.capacity adv) with (Q3Token.capacity o) in Hlow.
  change (Q3Token.refill_rate adv) with (Q3Token.refill_rate o) in Hlow.
  now rewrite Hoc, Hor in Hlow.
Qed.

(** C4 — the failing input.  On a new [Question 3] limiter of capacity 10
    and rate 2, [allow_request("u", tokens=100)] is answered
    [(False, 45.0)]: an ordinary denial with a finite wait of 45 seconds,
    not a condition of its own.  The wait is not one after which the
    tokens are available: when the caller comes back 45 seconds later the
    same request is denied with the same 45 seconds, and so it is at
    every later reading of the clock, with some finite positive wait
    each time. *)
Theorem q3_over_capacity_retry_after_never_suffices :
  let x := Q3Token.Limiter.allow_request "u" 100
             (mkMem [] (Q3Token.Limiter.__init__ 10 2)) (frozen 0) in
  result x = Ok (false, Some (90 # 2)) /\
  90 # 2 == 45 /\
  result (Q3Token.Limiter.allow_request "u" 100 (state x) (frozen 45)) =
    Ok (false, Some (90 # 2)) /\
  forall w : World,
    exists retry_after,
      result (Q3Token.Limiter.allow_request "u" 100 (state x) w) =
        Ok (false, Some retry_after) /\
      0 < retry_after.
Proof.
  intros x. split; [reflexivity|]. split; [reflexivity|].
  split; [reflexivity|]. intros w.
  assert (Hok : tb_registry_ok (state x)).
  { apply tbr_allow_ok, tb_registry_ok_init. }
  destruct (tbr_over_capacity_denied (state x) w "u" 100 Hok)
    as [(q & Hq & Hpos & _) _]; try reflexivity.
  exists q. split; assumption.
Qed.

(** ** A burst of requests while the clock stands *)

Lemma standing_frozen (t : Q) : standing t (frozen t).
Proof. intros n. reflexivity. Qed.

Lemma standing_tick (t : Q) (w : World) : standing t w -> standing t (tick w).
Proof. intros H n. apply H. Qed.

Lemma rl_refill_standing (b : RlToken.TokenBucket) (w : World) (t : Q) :
  standing t w -> RlToken.last_refill b = t ->
  RlToken._refill_tokens b w = (Ok tt, b, tick w).
Proof.
  intros Hw Hl. unfold RlToken._refill_tokens, bind, time_time, get.
  rewrite (Hw (reads w)), Hl.
  assert (E : Qltb 0 ((t - t) * RlToken.refill_rate b) = false).
  { apply Qltb_ge. assert ((t - t) * RlToken.refill_rate b == 0) by ring. lra. }
  now rewrite E.
Qed.

Lemma rl_consume_standing (b : RlToken.TokenBucket) (w : World) (t cost : Q) :
  standing t w -> RlToken.last_refill b = t ->
  RlToken.consume cost b w =
    if Qleb cost (RlToken.tokens b) then
      (Ok true, RlToken.set_tokens (RlToken.tokens b - cost) b, tick w)
    else (Ok false, b, tick w).
Proof.
  intros Hw Hl. unfold RlToken.consume, bind.
  rewrite (rl_refill_standing b w t Hw Hl). unfold get, put, ret.
  now destruct (Qleb cost (RlToken.tokens b)).
Qed.

Lemma rl_get_available_standing (b : RlToken.TokenBucket) (w : World) (t : Q) :
  standing t w -> RlToken.last_refill b = t ->
  RlToken.get_available_tokens b w = (Ok (RlToken.tokens b), b, tick w).
Proof.
  intros Hw Hl. unfold RlToken.get_available_tokens, bind.
  now rewrite (rl_refill_standing b w t Hw Hl).
Qed.

Lemma rl_allow_standing (l : RlToken.Limiter.TokenBucketRateLimiter) (w : World)
  (t : Q) :
  standing t w -> RlToken.last_refill (RlToken.Limiter.bucket l) = t ->
  0 < RlToken.refill_rate (RlToken.Limiter.bucket l) ->
  RlToken.Limiter.allow_request l w =
    if Qleb 1 (RlToken.tokens (RlToken.Limiter.bucket l)) then
      (Ok (true, None),
       {| RlToken.Limiter.bucket :=
            RlToken.set_tokens (RlToken.tokens (RlToken.Limiter.bucket l) - 1)
              (RlToken.Limiter.bucket l) |},
       tick w)
    else
      (Ok (false,
           Some ((1 - RlToken.tokens (RlToken.Limiter.bucket l)) /
                 RlToken.refill_rate (RlToken.Limiter.bucket l))),
       l, tick (tick w)).
Proof.
  intros Hw Hl Hr.
  unfold RlToken.Limiter.allow_request, RlToken.Limiter.in_bucket, zoom, bind.
  rewrite (rl_consume_standing _ w t 1 Hw Hl).
  destruct (Qleb 1 (RlToken.tokens (RlToken.Limiter.bucket l))) eqn:E;
    [reflexivity|].
  cbn [RlToken.Limiter.bucket].
  rewrite (rl_get_available_standing _ (tick w) t (standing_tick _ _ Hw) Hl).
  unfold get. cbn [RlToken.Limiter.bucket].
  rewrite py_div_run by lra.
  apply Qleb_gt in E.
  assert (Hpos : 0 < (1 - RlToken.tokens (RlToken.Limiter.bucket l)) /
                     RlToken.refill_rate (RlToken.Limiter.bucket l)).
  { apply Qlt_shift_div_l; [exact Hr|]. lra. }
  unfold ret, py_max. apply Qltb_lt in Hpos. rewrite Hpos.
  now destruct l.
Qed.

Lemma rl_calls_standing (n : nat) :
  forall (l : RlToken.Limiter.TokenBucketRateLimiter) (w : World) (t : Q),
    standing t w -> RlToken.last_refill (RlToken.Limiter.bucket l) = t ->
    0 < RlToken.refill_rate (RlToken.Limiter.bucket l) ->
    exists l' w',
      calls n RlToken.Limiter.allow_request l w =
        (Ok (burst n (RlToken.tokens (RlToken.Limiter.bucket l))
               (RlToken.refill_rate (RlToken.Limiter.bucket l))),
         l', w').
Proof.
  induction n as [|n IH]; intros l w t Hw Hl Hr.
  - eexists _, _. reflexivity.
  - cbn [calls burst]. unfold bind at 1.
    rewrite (rl_allow_standing l w t Hw Hl Hr).
    destruct (Qleb 1 (RlToken.tokens (RlToken.Limiter.bucket l))).
    + edestruct (IH {| RlToken.Limiter.bucket :=
                         RlToken.set_tokens
                           (RlToken.tokens (RlToken.Limiter.bucket l) - 1)
                           (RlToken.Limiter.bucket l) |} (tick w) t)
        as (l' & w' & E); [now apply standing_tick|exact Hl|exact Hr|].
      unfold bind. rewrite E. eexists _, _. reflexivity.
    + edestruct (IH l (tick (tick w)) t) as (l' & w' & E);
        [now do 2 apply standing_tick|exact Hl|exact Hr|].
      unfold bind. rewrite E. eexists _, _. reflexivity.
Qed.

Lemma Qleb_compat (c x y : Q) : x == y -> Qleb c x = Qleb c y.
Proof.
  intros H. unfold Qleb.
  now rewrite (Qcompare_comp c c (Qeq_refl c) x y H).
Qed.

Lemma py_min_eq_r (a b : Q) : b <= a -> py_min a b == b.
Proof.
  intros H. unfold py_min. destruct (Qltb b a) eqn:E; [reflexivity|].
  apply Qltb_ge in E. lra.
Qed.

(** [consume(1)] and [wait_time_for_tokens(1)] of [Question 3] on a bucket
    whose level is worth [k], while the clock stands at the bucket's
    timestamp. *)
Lemma q3_refill_standing (b : Q3Token.TokenBucket) (w : World) (t k : Q) :
  standing t w -> Q3Token.last_refill_time b = t ->
  Q3Token.tokens b == k -> k <= Q3Token.capacity b ->
  let b' := state (Q3Token._refill b w) in
  Q3Token._refill b w = (Ok tt, b', tick w) /\
  Q3Token.last_refill_time b' = t /\
  q3_config_is (Q3Token.capacity b) (Q3Token.refill_rate b) b' /\
  Q3Token.tokens b' == k.
Proof.
  intros Hw Hl Hk Hc. rewrite q3_refill_run. unfold state; simpl.
  rewrite (Hw (reads w)), Hl. repeat split.
  rewrite py_min_eq_r.
  - rewrite Hk. ring.
  - assert ((t - t) * Q3Token.refill_rate b == 0) by ring. lra.
Qed.

Lemma q3_consume_standing (b : Q3Token.TokenBucket) (w : World)
  (t k cost : Q) :
  standing t w -> Q3Token.last_refill_time b = t ->
  Q3Token.tokens b == k -> k <= Q3Token.capacity b ->
  let x := Q3Token.consume cost b w in
  world x = tick w /\
  Q3Token.last_refill_time (state x) = t /\
  q3_config_is (Q3Token.capacity b) (Q3Token.refill_rate b) (state x) /\
  (Qleb cost k = true ->
   result x = Ok true /\ Q3Token.tokens (state x) == k - cost) /\
  (Qleb cost k = false ->
   result x = Ok false /\ Q3Token.tokens (state x) == k).
Proof.
  intros Hw Hl Hk Hc.
  destruct (q3_refill_standing b w t k Hw Hl Hk Hc) as (E & Hl' & Hcfg & Hk').
  unfold Q3Token.consume, bind. rewrite E.
  set (b' := state (Q3Token._refill b w)) in *. clearbody b'. unfold get.
  rewrite (Qleb_compat cost _ k Hk').
  destruct (Qleb cost k); unfold put, ret, world, state, result; simpl.
  - repeat split; try apply Hcfg; try discriminate; try assumption.
    now rewrite Hk'.
  - repeat split; try apply Hcfg; try discriminate; assumption.
Qed.

Lemma q3_wait_standing (b : Q3Token.TokenBucket) (w : World)
  (t k cost : Q) :
  standing t w -> Q3Token.last_refill_time b = t ->
  Q3Token.tokens b == k -> k <= Q3Token.capacity b ->
  let y := Q3Token.wait_time_for_tokens cost b w in
  world y = tick w /\
  Q3Token.last_refill_time (state y) = t /\
  q3_config_is (Q3Token.capacity b) (Q3Token.refill_rate b) (state y) /\
  Q3Token.tokens (state y) == k /\
  (Qleb cost k = false -> 0 < Q3Token.refill_rate b ->
   exists q, result y = Ok q /\ q == (cost - k) / Q3Token.refill_rate b).
Proof.
  intros Hw Hl Hk Hc.
  destruct (q3_refill_standing b w t k Hw Hl Hk Hc) as (E & Hl' & Hcfg & Hk').
  unfold Q3Token.wait_time_for_tokens, bind. rewrite E.
  set (b' := state (Q3Token._refill b w)) in *. clearbody b'. unfold get.
  rewrite (Qleb_compat cost _ k Hk').
  destruct Hcfg as [Hcap Hrate].
  destruct (Qleb cost k).
  - unfold ret, world, state, result; simpl.
    repeat split; try assumption. discriminate.
  - unfold py_div. rewrite Hrate.
    destruct (Qeq_bool (Q3Token.refill_rate b) 0) eqn:Ez;
      unfold raise, ret, world, state, result; simpl;
      repeat split; try assumption; intros _ Hr.
    + apply Qeq_bool_iff in Ez. lra.
    + eexists. split; [reflexivity|]. now rewrite Hk'.
Qed.

Lemma outcome_eq_refl (a : bool * option Q) : outcome_eq a a.
Proof. destruct a as [ok [q|]]; split; simpl; auto. reflexivity. Qed.

Lemma q3_calls_standing (n : nat) :
  forall (mem : Q3Token.Limiter.State) (w : World) (t : Q) (c : string)
         (r : nat) (b : Q3Token.TokenBucket) (k : Q),
    standing t w ->
    Q3Token.Limiter.buckets (this mem) !! c = Some r ->
    heap mem !! r = Some b ->
    Q3Token.last_refill_time b = t ->
    Q3Token.tokens b == k -> k <= Q3Token.capacity b ->
    0 < Q3Token.refill_rate b ->
    exists res mem' w',
      calls n (Q3Token.Limiter.allow_request c 1) mem w = (Ok res, mem', w') /\
      Forall2 outcome_eq res (burst n k (Q3Token.refill_rate b)).
Proof.
  induction n as [|n IH]; intros mem w t c r b k Hw Hc Hb Hl Hk Hcap Hr.
  - eexists _, _, _. split; [reflexivity|constructor].
  - cbn [calls burst]. unfold bind at 1.
    rewrite (Q3TokenFacts.tbr_allow_present_run mem w c 1 r b Hc Hb).
    destruct (q3_consume_standing b w t k 1 Hw Hl Hk Hcap)
      as (Hxw & Hxl & [Hxc Hxr] & Hyes & Hno).
    set (x := Q3Token.consume 1 b w) in *. clearbody x.
    assert (Hlen : (r < length (heap mem))%nat) by now apply lookup_lt_Some in Hb.
    destruct (Qleb 1 k) eqn:E.
    + destruct (Hyes eq_refl) as [Rx Kx]. rewrite Rx.
      destruct (IH (mkMem (<[r := state x]> (heap mem)) (this mem)) (world x)
                  t c r (state x) (k - 1))
        as (res & mem' & w' & Ecalls & Hres).
      * rewrite Hxw. now apply standing_tick.
      * exact Hc.
      * now apply list_lookup_insert_eq.
      * exact Hxl.
      * exact Kx.
      * rewrite Hxc. lra.
      * now rewrite Hxr.
      * unfold bind. rewrite Ecalls. eexists _, _, _. split; [reflexivity|].
        constructor; [apply outcome_eq_refl|]. now rewrite Hxr in Hres.
    + destruct (Hno eq_refl) as [Rx Kx]. rewrite Rx.
      assert (Kcap : k <= Q3Token.capacity (state x)) by now rewrite Hxc.
      assert (Hr' : 0 < Q3Token.refill_rate (state x)) by now rewrite Hxr.
      assert (Hxw' : standing t (world x)).
      { rewrite Hxw. now apply standing_tick. }
      destruct (q3_wait_standing (state x) (world x) t k 1 Hxw' Hxl Kx Kcap)
        as (Hyw & Hyl & [Hyc Hyr] & Ky & Hyq).
      destruct (Hyq E Hr') as (q & Rq & Hq).
      set (y := Q3Token.wait_time_for_tokens 1 (state x) (world x)) in *.
      clearbody y. rewrite Rq.
      destruct (IH (mkMem (<[r := state y]> (heap mem)) (this mem)) (world y)
                  t c r (state y) k)
        as (res & mem' & w' & Ecalls & Hres).
      * rewrite Hyw. now apply standing_tick.
      * exact Hc.
      * now apply list_lookup_insert_eq.
      * exact Hyl.
      * exact Ky.
      * rewrite Hyc, Hxc. exact Hcap.
      * now rewrite Hyr.
      * unfold bind. rewrite Ecalls. eexists _, _, _. split; [reflexivity|].
        constructor.
        -- split; [reflexivity|]. simpl. now rewrite Hq, Hxr.
        -- now rewrite Hyr, Hxr in Hres.
Qed.

Lemma q3_calls_after_ensure (n : nat) (mem : Q3Token.Limiter.State) w c cost :
  calls (Datatypes.S n) (Q3Token.Limiter.allow_request c cost) mem w =
    calls (Datatypes.S n) (Q3Token.Limiter.allow_request c cost)
      (state (Q3Token.Limiter.ensure_bucket c mem w))
      (world (Q3Token.Limiter.ensure_bucket c mem w)).
Proof.
  cbn [calls]. unfold bind at 1. unfold bind at 3.
  now rewrite tbr_allow_after_ensure.
Qed.

(** C3 as stated fails on its last number.  With capacity 10, rate 2 and a
    clock standing at 0, the 12th of twelve calls is answered
    [(False, 0.5)] by both limiters; the retry-after is half a second away
    from the stated 1.0 s. *)
Lemma twelfth_retry_after_is_half :
  (exists res l w',
     calls 12 RlToken.Limiter.allow_request
       {| RlToken.Limiter.bucket := RlToken.mkTokenBucket 10 2 10 0 |}
       (tick (frozen 0)) = (Ok res, l, w') /\
     res !! 11%nat = Some (false, Some (1 # 2))) /\
  (exists res mem' w',
     calls 12 (Q3Token.Limiter.allow_request "user_123" 1)
       (mkMem [] (Q3Token.Limiter.__init__ 10 2)) (frozen 0) =
       (Ok res, mem', w') /\
     res !! 11%nat = Some (false, Some (1 # 2))) /\
  Qabs ((1 # 2) - 1) == 1 # 2.
Proof.
  split; [|split].
  - eexists _, _, _. split; [vm_compute; reflexivity|reflexivity].
  - eexists _, _, _. split; [vm_compute; reflexivity|reflexivity].
  - reflexivity.
Qed.

(** C3, amended — [TokenBucket(capacity=10, rate=2)], twelve calls of
    [allow_request] with cost 1 while the clock stands still, at whatever
    time: the first ten return [(True, None)]; the 11th and the 12th both
    return [False] with a retry-after of 0.5 s.  A denied call takes
    nothing from the bucket, so the wait for one token does not grow.
    Proved for the single-bucket limiter of [src/rate_limiting], started
    by its constructor, and for any client of a new [Question 3] limiter. *)
Theorem burst_of_twelve (t : Q) (client_id : string) :
  (exists l0 l w',
     RlToken.Limiter.__init__ 10 2 tt (frozen t) = (Ok l0, tt, tick (frozen t)) /\
     calls 12 RlToken.Limiter.allow_request l0 (tick (frozen t)) =
       (Ok (repeat (true, None) 10 ++
            [(false, Some (1 # 2)); (false, Some (1 # 2))]),
        l, w')) /\
  (exists res mem' w',
     calls 12 (Q3Token.Limiter.allow_request client_id 1)
       (mkMem [] (Q3Token.Limiter.__init__ 10 2)) (frozen t) =
       (Ok res, mem', w') /\
     Forall2 outcome_eq res
       (repeat (true, None) 10 ++
        [(false, Some (1 # 2)); (false, Some (1 # 2))])).
Proof.
  split.
  - exists {| RlToken.Limiter.bucket := RlToken.mkTokenBucket 10 2 10 t |}.
    destruct (rl_calls_standing 12
                {| RlToken.Limiter.bucket := RlToken.mkTokenBucket 10 2 10 t |}
                (tick (frozen t)) t)
      as (l & w' & E); try reflexivity.
    + apply standing_tick, standing_frozen.
    + exists l, w'. split; [reflexivity|exact E].
  - rewrite q3_calls_after_ensure.
    rewrite (Q3TokenFacts.tbr_ensure_absent _ _ client_id)
      by apply lookup_empty.
    unfold state, world; cbn [fst snd].
    destruct (q3_calls_standing 12
                (mkMem ([] ++ [Q3Token.mkTokenBucket 10 2 10 t])
                   (Q3Token.Limiter.mkLimiter 10 2
                      (<[client_id := 0%nat]> ∅)))
                (tick (frozen t)) t client_id 0%nat
                (Q3Token.mkTokenBucket 10 2 10 t) 10)
      as (res & mem' & w' & E & Hres); try reflexivity.
    + apply standing_tick, standing_frozen.
    + apply lookup_insert_eq.
    + discriminate.
    + exists res, mem', w'. split; [exact E|exact Hres].
Qed.

(** ** Two concurrent first requests: the token-bucket registry *)

Module Q3TokenThreadFacts.
Import Q3Token Q3Token.Limiter Q3TokenThreads.

Lemma tt_step_entered_present (mem : State) w c cost r :
  buckets (this mem) !! c = Some r ->
  catch_into Crashed (step c cost Entered) mem w = (Ok Ensured, mem, w).
Proof.
  intros H. unfold catch_into, step, bind.
  now rewrite (Q3TokenFacts.tbr_ensure_present _ _ _ _ H).
Qed.

Lemma tt_step_entered_absent (mem : State) w c cost :
  buckets (this mem) !! c = None ->
  catch_into Crashed (step c cost Entered) mem w =
    (Ok Ensured, state (ensure_bucket c mem w), tick w).
Proof.
  intros H. unfold catch_into, step, bind.
  now rewrite (Q3TokenFacts.tbr_ensure_absent _ _ _ H).
Qed.

Lemma tt_step_ensured (mem : State) w c cost r :
  buckets (this mem) !! c = Some r ->
  catch_into Crashed (step c cost Ensured) mem w = (Ok (Holding r), mem, w).
Proof.
  intros H. unfold catch_into, step, getitem, bind, get. now rewrite H.
Qed.

Lemma tt_step_holding (mem : State) w c cost r b :
  heap mem !! r = Some b ->
  catch_into Crashed (step c cost (Holding r)) mem w =
    (Ok match result (consume cost b w) with
        | Ok true => Returned r (true, None)
        | Ok false => Refused r
        | Raise e => Crashed e
        end,
     {| heap := <[r := state (consume cost b w)]> (heap mem);
        this := this mem |},
     world (consume cost b w)).
Proof.
  intros H. unfold catch_into, step, bind. rewrite (at_ref_run _ _ _ _ _ H).
  now destruct (result (consume cost b w)) as [[|]|e].
Qed.

Lemma tt_step_refused (mem : State) w c cost r b :
  heap mem !! r = Some b ->
  catch_into Crashed (step c cost (Refused r)) mem w =
    (Ok match result (wait_time_for_tokens cost b w) with
        | Ok q => Returned r (false, Some q)
        | Raise e => Crashed e
        end,
     {| heap := <[r := state (wait_time_for_tokens cost b w)]> (heap mem);
        this := this mem |},
     world (wait_time_for_tokens cost b w)).
Proof.
  intros H. unfold catch_into, step, bind. rewrite (at_ref_run _ _ _ _ _ H).
  now destruct (result (wait_time_for_tokens cost b w)) as [q|e].
Qed.

(** [consume] and [wait_time_for_tokens] read the clock once and keep the
    configuration; [consume] never raises, [wait_time_for_tokens] does not
    either when the rate is positive. *)
Lemma tt_consume_facts (b : TokenBucket) (w : World) (cost : Q) :
  let x := consume cost b w in
  world x = tick w /\
  q3_config_is (Q3Token.capacity b) (Q3Token.refill_rate b) (state x) /\
  exists ok, result x = Ok ok.
Proof.
  unfold consume, bind. rewrite q3_refill_run. unfold get, state at 1.
  cbn [fst snd].
  destruct (Qleb cost _); unfold put, ret, world, state, result; simpl;
    (split; [reflexivity|]); (split; [split; reflexivity|]); eauto.
Qed.

Lemma tt_wait_facts (b : TokenBucket) (w : World) (cost : Q) :
  let y := wait_time_for_tokens cost b w in
  world y = tick w /\
  q3_config_is (Q3Token.capacity b) (Q3Token.refill_rate b) (state y) /\
  (0 < Q3Token.refill_rate b -> exists q, result y = Ok q).
Proof.
  unfold wait_time_for_tokens, bind. rewrite q3_refill_run. unfold get.
  destruct (Qleb cost _).
  - unfold ret, world, state, result; simpl.
    split; [reflexivity|]. split; [split; reflexivity|]. eauto.
  - unfold py_div. cbn [Q3Token.refill_rate].
    destruct (Qeq_bool (Q3Token.refill_rate b) 0) eqn:Ez;
      unfold raise, ret, world, state, result; simpl;
      (split; [reflexivity|]); (split; [split; reflexivity|]).
    + intros Hr. apply Qeq_bool_iff in Ez. lra.
    + eauto.
Qed.

Lemma tt_shared_sym mem0 c t cost1 c1 cost2 c2 mem w :
  shared mem0 c t cost1 c1 cost2 c2 mem w ->
  shared mem0 c t cost2 c2 cost1 c1 mem w.
Proof.
  unfold shared. intros (Hc & Hr & H1 & H2 & Hcr & H).
  repeat (split; [assumption || (intros; apply and_comm; auto)|]).
  rewrite orb_comm. destruct (started c1 || started c2); [|exact H].
  destruct H as (Hlen & Hreg & b & Hb & Hcfg & Hlvl).
  split; [exact Hlen|]. split; [exact Hreg|].
  exists b. split; [exact Hb|]. split; [exact Hcfg|].
  intros Hs Hp2 Hp1. destruct (Hlvl Hs Hp1 Hp2) as (Hl & Hsum & Hnn & Hden).
  split; [exact Hl|]. split; [rewrite Hsum; ring|].
  split; [now rewrite orb_comm|].
  rewrite orb_comm. intros Hd. specialize (Hden Hd). lra.
Qed.

Lemma tt_shared_init (mem0 : State) c t cost1 cost2 w :
  shared mem0 c t cost1 Entered cost2 Entered mem0 w.
Proof. unfold shared; simpl. repeat split; congruence. Qed.

(** One step of the first caller keeps what the callers share, and brings
    that caller closer to its return. *)
Lemma tt_step_shared mem0 c t cost1 c1 cost2 c2 mem w :
  buckets (this mem0) !! c = None ->
  shared mem0 c t cost1 c1 cost2 c2 mem w ->
  exists c1',
    result (catch_into Crashed (step c cost1 c1) mem w) = Ok c1' /\
    shared mem0 c t cost1 c1' cost2 c2
      (state (catch_into Crashed (step c cost1 c1) mem w))
      (world (catch_into Crashed (step c cost1 c1) mem w)) /\
    (remaining c1' <= remaining c1 - 1)%nat /\
    clock (world (catch_into Crashed (step c cost1 c1) mem w)) = clock w.
Proof.
  intros Hnone (Hc & Hr & H1 & H2 & Hcr & H).
  destruct c1 as [| |r|r|r out|e].
  - (* about to enter the registry lock *)
    exists Ensured. simpl in H. destruct (started c2) eqn:Es.
    + destruct H as (Hlen & Hreg & b & Hb & Hcfg & Hlvl).
      rewrite (tt_step_entered_present _ _ _ _ _ Hreg).
      split; [reflexivity|]. split; [|now split; [simpl; lia|]].
      unfold shared, state, world; simpl.
      repeat (split; [assumption || discriminate || (intros; now apply Hcr)|]).
      exists b. auto.
    + subst mem. rewrite (tt_step_entered_absent _ _ _ _ Hnone).
      rewrite (Q3TokenFacts.tbr_ensure_absent _ _ _ Hnone).
      split; [reflexivity|]. split; [|now split; [simpl; lia|]].
      unfold shared, state, world; simpl.
      repeat (split; [reflexivity || assumption || discriminate
                      || (intros; now apply Hcr)|]).
      split; [rewrite length_app; simpl; lia|].
      split; [apply lookup_insert_eq|].
      eexists. split; [now apply list_lookup_middle|].
      split; [split; reflexivity|].
      intros Hs _ _. simpl. split; [apply Hs|].
      destruct c2; try discriminate Es. unfold spent; simpl.
      split; [ring|]. split; discriminate.
  - (* past the lock, about to read the dictionary *)
    simpl in H. destruct H as (Hlen & Hreg & b & Hb & Hcfg & Hlvl).
    exists (Holding (length (heap mem0))).
    rewrite (tt_step_ensured _ _ _ _ _ Hreg).
    split; [reflexivity|]. split; [|now split; [simpl; lia|]].
    unfold shared, state, world; simpl.
    repeat (split; [assumption || (intros ? [= <-]; reflexivity)
                    || (intros; now apply Hcr)|]).
    exists b. auto.
  - (* about to call consume *)
    simpl in H. destruct H as (Hlen & Hreg & b & Hb & [Hbc Hbr] & Hlvl).
    pose proof (H1 r eq_refl) as ->.
    rewrite (tt_step_holding _ _ _ _ _ _ Hb).
    destruct (tt_consume_facts b w cost1) as (Hxw & [Hxc Hxr] & [ok Hok]).
    assert (Hx : forall k, standing t w -> last_refill_time b = t ->
              tokens b == k -> k <= Q3Token.capacity b ->
              last_refill_time (state (consume cost1 b w)) = t /\
              (Qleb cost1 k = true ->
               result (consume cost1 b w) = Ok true /\
               tokens (state (consume cost1 b w)) == k - cost1) /\
              (Qleb cost1 k = false ->
               result (consume cost1 b w) = Ok false /\
               tokens (state (consume cost1 b w)) == k)).
    { intros k Hs Hl Hk Hle.
      destruct (q3_consume_standing b w t k cost1 Hs Hl Hk Hle)
        as (_ & ? & _ & ? & ?). auto. }
    set (x := consume cost1 b w) in *. clearbody x.
    rewrite Hok. eexists. split; [reflexivity|].
    split; [|split; [destruct ok; simpl; lia|unfold world at 1; cbn [snd]; now rewrite Hxw]].
    unfold state at 1 2, world at 1; cbn [fst snd]. rewrite Hxw.
    assert (Hlen0 : (length (heap mem0) < length (heap mem))%nat) by lia.
    unfold shared. cbn [this heap].
    split; [exact Hc|]. split; [exact Hr|].
    split; [now destruct ok; intros ? [= <-]|]. split; [exact H2|].
    split; [intros Hp; destruct (Hcr Hp); now destruct ok|].
    replace (started (if ok then _ else _) || started c2) with true
      by now destruct ok.
    split; [now rewrite length_insert|]. split; [exact Hreg|].
    exists (state x). split; [now apply list_lookup_insert_eq|].
    split; [split; congruence|].
    intros Hs Hp1 Hp2. change (standing t w) in Hs.
    destruct (Hlvl Hs Hp1 Hp2) as (Hl & Hsum & Hnn & Hden).
    unfold spent in *. simpl in Hsum, Hnn, Hden.
    assert (Hs2 : 0 <= (if allowed c2 then cost2 else 0) <= cost2)
      by (destruct (allowed c2); lra).
    destruct (Hx _ Hs Hl Hsum) as (Hxl & Hyes & Hno); [rewrite Hbc; lra|].
    split; [exact Hxl|].
    destruct (Qleb cost1 (capacity (this mem0) - 0 -
                          (if allowed c2 then cost2 else 0))) eqn:E.
    + destruct (Hyes eq_refl) as [Rx Kx].
      assert (ok = true) as -> by congruence. simpl.
      apply Qleb_le in E.
      split; [rewrite Kx; ring|]. split; [intros _; lra|exact Hden].
    + destruct (Hno eq_refl) as [Rx Kx].
      assert (ok = false) as -> by congruence. simpl.
      apply Qleb_gt in E.
      split; [exact Kx|]. split; [intros Ha; rewrite Kx, <- Hsum; auto|].
      intros _. lra.
  - (* refused, about to ask for the wait time *)
    simpl in H. destruct H as (Hlen & Hreg & b & Hb & [Hbc Hbr] & Hlvl).
    pose proof (H1 r eq_refl) as ->.
    rewrite (tt_step_refused _ _ _ _ _ _ Hb).
    destruct (tt_wait_facts b w cost1) as (Hyw & [Hyc Hyr] & Hq).
    assert (Hy : forall k, standing t w -> last_refill_time b = t ->
              tokens b == k -> k <= Q3Token.capacity b ->
              last_refill_time (state (wait_time_for_tokens cost1 b w)) = t /\
              tokens (state (wait_time_for_tokens cost1 b w)) == k).
    { intros k Hs Hl Hk Hle.
      destruct (q3_wait_standing b w t k cost1 Hs Hl Hk Hle)
        as (_ & ? & _ & ? & _). auto. }
    set (y := wait_time_for_tokens cost1 b w) in *. clearbody y.
    eexists. split; [reflexivity|].
    split; [|split; [destruct (result y); simpl; lia|unfold world at 1; cbn [snd]; now rewrite Hyw]].
    unfold state at 1 2, world at 1; cbn [fst snd]. rewrite Hyw.
    assert (Hlen0 : (length (heap mem0) < length (heap mem))%nat) by lia.
    unfold shared. cbn [this heap].
    split; [exact Hc|]. split; [exact Hr|].
    split; [now destruct (result y); intros ? [= <-]|]. split; [exact H2|].
    split.
    { intros Hp. destruct (Hcr Hp) as [_ Hcr2]. split; [|exact Hcr2].
      destruct Hq as [q Eq]; [rewrite Hbr; exact Hp|]. now rewrite Eq. }
    replace (started match result y with Ok q => _ | Raise e => _ end
             || started c2) with true by now destruct (result y).
    split; [now rewrite length_insert|]. split; [exact Hreg|].
    exists (state y). split; [now apply list_lookup_insert_eq|].
    split; [split; congruence|].
    intros Hs Hp1 Hp2. change (standing t w) in Hs.
    destruct (Hlvl Hs Hp1 Hp2) as (Hl & Hsum & Hnn & Hden).
    unfold spent in *. simpl in Hsum, Hnn, Hden.
    assert (Hs2 : 0 <= (if allowed c2 then cost2 else 0) <= cost2)
      by (destruct (allowed c2); lra).
    destruct (Hy _ Hs Hl Hsum) as (Hyl & Ky); [rewrite Hbc; lra|].
    split; [exact Hyl|].
    assert (Ea : allowed match result y with
                         | Ok q => Returned (length (heap mem0)) (false, Some q)
                         | Raise e => Crashed e
                         end = false) by now destruct (result y).
    rewrite Ea. simpl.
    split; [exact Ky|]. split; [intros Ha; rewrite Ky, <- Hsum; auto|].
    intros _. now apply Hden.
  - (* returned *)
    exists (Returned r out). simpl.
    split; [reflexivity|]. split; [|now split; [simpl; lia|]].
    unfold shared. repeat (split; [assumption|]). exact H.
  - (* ended by an exception *)
    exists (Crashed e). simpl.
    split; [reflexivity|]. split; [|now split; [simpl; lia|]].
    unfold shared. repeat (split; [assumption|]). exact H.
Qed.

Lemma tt_interleave_shared mem0 c t cost1 cost2 (sched : list bool) :
  buckets (this mem0) !! c = None ->
  forall c1 c2 mem w,
    shared mem0 c t cost1 c1 cost2 c2 mem w ->
    exists c1' c2',
      result (interleave sched c cost1 cost2 c1 c2 mem w) = Ok (c1', c2') /\
      shared mem0 c t cost1 c1' cost2 c2'
        (state (interleave sched c cost1 cost2 c1 c2 mem w))
        (world (interleave sched c cost1 cost2 c1 c2 mem w)) /\
      (remaining c1' <= remaining c1 - turns true sched)%nat /\
      (remaining c2' <= remaining c2 - turns false sched)%nat /\
      clock (world (interleave sched c cost1 cost2 c1 c2 mem w)) = clock w.
Proof.
  intros Hnone. induction sched as [|who sched IH]; intros c1 c2 mem w Hsh.
  - exists c1, c2. simpl. split; [reflexivity|]. split; [exact Hsh|].
    repeat split; lia.
  - destruct who; cbn [interleave turns Bool.eqb]; unfold bind.
    + destruct (tt_step_shared _ _ _ _ _ _ _ _ _ Hnone Hsh)
        as (c1' & Ec & Hsh' & Hrem & Hclk).
      destruct (catch_into Crashed (step c cost1 c1) mem w) as [[res mem1] w1].
      unfold result, state, world in Ec, Hsh', Hclk. simpl in Ec, Hsh', Hclk.
      subst res.
      destruct (IH c1' c2 mem1 w1 Hsh') as (d1 & d2 & E & Hd & R1 & R2 & Rc).
      exists d1, d2. split; [exact E|]. split; [exact Hd|].
      repeat split; [lia|lia|congruence].
    + apply tt_shared_sym in Hsh.
      destruct (tt_step_shared _ _ _ _ _ _ _ _ _ Hnone Hsh)
        as (c2' & Ec & Hsh' & Hrem & Hclk).
      destruct (catch_into Crashed (step c cost2 c2) mem w) as [[res mem1] w1].
      unfold result, state, world in Ec, Hsh', Hclk. simpl in Ec, Hsh', Hclk.
      subst res.
      apply tt_shared_sym in Hsh'.
      destruct (IH c1 c2' mem1 w1 Hsh') as (d1 & d2 & E & Hd & R1 & R2 & Rc).
      exists d1, d2. split; [exact E|]. split; [exact Hd|].
      repeat split; [lia|lia|congruence].
Qed.

Lemma tt_done_returned (cl : Caller) :
  remaining cl = 0%nat -> crashed cl = false -> returned cl = true.
Proof. destruct cl; simpl; congruence. Qed.

End Q3TokenThreadFacts.

(** ** Two concurrent first requests: the leaky-bucket registry *)

Module Q3LeakyThreadFacts.
Import Q3Leaky Q3Leaky.Limiter Q3LeakyThreads.

Lemma lt_step_entered_present (mem : State) w c rid r :
  buckets (this mem) !! c = Some r ->
  catch_into Crashed (step c rid Entered) mem w = (Ok Ensured, mem, w).
Proof.
  intros H. unfold catch_into, step, bind.
  now rewrite (Q3LeakyFacts.lbr_ensure_present _ _ _ _ H).
Qed.

Lemma lt_step_entered_absent (mem : State) w c rid :
  buckets (this mem) !! c = None ->
  catch_into Crashed (step c rid Entered) mem w =
    (Ok Ensured, state (ensure_bucket c mem w), tick w).
Proof.
  intros H. unfold catch_into, step, bind.
  now rewrite (Q3LeakyFacts.lbr_ensure_absent _ _ _ H).
Qed.

Lemma lt_step_ensured (mem : State) w c rid r :
  buckets (this mem) !! c = Some r ->
  catch_into Crashed (step c rid Ensured) mem w = (Ok (Holding r), mem, w).
Proof.
  intros H. unfold catch_into, step, getitem, bind, get. now rewrite H.
Qed.

Lemma lt_step_holding (mem : State) w c rid r b :
  heap mem !! r = Some b ->
  catch_into Crashed (step c rid (Holding r)) mem w =
    (Ok match result (add_request rid b w) with
        | Ok true => Returned r (true, None)
        | Ok false => Refused r
        | Raise e => Crashed e
        end,
     {| heap := <[r := state (add_request rid b w)]> (heap mem);
        this := this mem |},
     world (add_request rid b w)).
Proof.
  intros H. unfold catch_into, step, bind. rewrite (at_ref_run _ _ _ _ _ H).
  now destruct (result (add_request rid b w)) as [[|]|e].
Qed.

Lemma lt_step_refused (mem : State) w c rid r b :
  heap mem !! r = Some b ->
  catch_into Crashed (step c rid (Refused r)) mem w =
    (Ok match result (get_wait_time b w) with
        | Ok q => Returned r (false, Some q)
        | Raise e => Crashed e
        end,
     {| heap := <[r := state (get_wait_time b w)]> (heap mem);
        this := this mem |},
     world (get_wait_time b w)).
Proof.
  intros H. unfold catch_into, step, bind. rewrite (at_ref_run _ _ _ _ _ H).
  now destruct (result (get_wait_time b w)) as [q|e].
Qed.

Lemma py_int_zero (x : Q) : x == 0 -> py_int x = 0%Z.
Proof.
  unfold Qeq, py_int. simpl. intros H.
  replace (Qnum x) with 0%Z by lia. apply Z.quot_0_l. discriminate.
Qed.

(** The leak reads the clock once, whatever it removes. *)
Lemma lt_leak_run (b : LeakyBucket) (w : World) :
  _leak b w = (Ok tt, state (_leak b w), tick w).
Proof.
  unfold _leak, bind, time_time, get.
  destruct (0 <? _)%Z; [|reflexivity].
  unfold for_range. rewrite q3_popleft_loop by apply to_nat_min_len.
  reflexivity.
Qed.

(** While the clock stands at the bucket's timestamp nothing leaks. *)
Lemma lt_leak_standing (b : LeakyBucket) (w : World) (t : Q) :
  standing t w -> last_leak_time b = t -> state (_leak b w) = b.
Proof.
  intros Hw Hl. unfold _leak, bind, time_time, get.
  rewrite (Hw (reads w)), Hl.
  rewrite py_int_zero by ring. reflexivity.
Qed.

Lemma lt_add_facts (b : LeakyBucket) (w : World) (rid : option string) :
  let x := add_request rid b w in
  clock (world x) = clock w /\
  q3_leaky_config_is (Q3Leaky.capacity b) (Q3Leaky.leak_rate b) (state x) /\
  (exists ok, result x = Ok ok) /\
  forall t, standing t w -> last_leak_time b = t ->
    last_leak_time (state x) = t /\
    (result x = Ok true ->
     len (queue (state x)) = (len (queue b) + 1)%Z /\
     (len (queue (state x)) <= Q3Leaky.capacity b)%Z) /\
    (result x <> Ok true ->
     queue (state x) = queue b /\
     (Q3Leaky.capacity b <= len (queue b))%Z).
Proof.
  pose proof (q3_leak_config b w) as [Hc Hr].
  unfold add_request, bind. rewrite lt_leak_run.
  assert (Hst : forall t, standing t w -> last_leak_time b = t ->
                          state (_leak b w) = b)
    by (intros; eapply lt_leak_standing; eauto).
  set (b1 := state (_leak b w)) in *. clearbody b1.
  unfold get. destruct (len (queue b1) <? Q3Leaky.capacity b1)%Z eqn:E.
  - assert (Eid : exists i k,
               request_id_or_stamp rid b1 (tick w) = (Ok i, b1, k) /\
               clock k = clock w).
    { destruct rid as [[|ch s]|]; eexists _, _; split; reflexivity. }
    destruct Eid as (i & k & Eid & Hk). rewrite Eid.
    unfold time_time, put, ret, world, state, result; simpl.
    split; [exact Hk|]. split; [split; assumption|]. split; [eauto|].
    intros t Hw Hl. rewrite (Hst t Hw Hl) in *.
    split; [exact Hl|]. split; [|congruence]. intros _.
    apply Z.ltb_lt in E. rewrite RlLeakyFacts.len_snoc. lia.
  - unfold ret, world, state, result; simpl.
    split; [reflexivity|]. split; [split; assumption|]. split; [eauto|].
    intros t Hw Hl. rewrite (Hst t Hw Hl) in *.
    split; [exact Hl|]. split; [discriminate|]. intros _.
    split; [reflexivity|]. now apply Z.ltb_ge in E.
Qed.

Lemma lt_wait_facts (b : LeakyBucket) (w : World) :
  let y := get_wait_time b w in
  clock (world y) = clock w /\
  q3_leaky_config_is (Q3Leaky.capacity b) (Q3Leaky.leak_rate b) (state y) /\
  (0 < Q3Leaky.leak_rate b -> exists q, result y = Ok q) /\
  forall t, standing t w -> last_leak_time b = t ->
    last_leak_time (state y) = t /\ queue (state y) = queue b.
Proof.
  pose proof (q3_leak_config b w) as [Hc Hr].
  unfold get_wait_time, bind. rewrite lt_leak_run.
  assert (Hst : forall t, standing t w -> last_leak_time b = t ->
                          state (_leak b w) = b)
    by (intros; eapply lt_leak_standing; eauto).
  set (b1 := state (_leak b w)) in *. clearbody b1.
  unfold get. destruct (len (queue b1) <? Q3Leaky.capacity b1)%Z.
  - unfold ret, world, state, result; simpl.
    split; [reflexivity|]. split; [split; assumption|]. split; [eauto|].
    intros t Hw Hl. now rewrite (Hst t Hw Hl).
  - unfold py_div. destruct (Qeq_bool (Q3Leaky.leak_rate b1) 0) eqn:Ez;
      unfold raise, ret, world, state, result; simpl;
      (split; [reflexivity|]); (split; [split; assumption|]); split;
      try (intros t Hw Hl; now rewrite (Hst t Hw Hl)).
    + intros Hp. apply Qeq_bool_iff in Ez. rewrite Hr in Ez. lra.
    + eauto.
Qed.

Lemma lt_shared_sym mem0 c t c1 c2 mem w :
  shared mem0 c t c1 c2 mem w -> shared mem0 c t c2 c1 mem w.
Proof.
  unfold shared. intros (Hc & Hr & H1 & H2 & Hcr & H).
  repeat (split; [assumption || (intros; apply and_comm; auto)|]).
  rewrite orb_comm. destruct (started c1 || started c2); [|exact H].
  destruct H as (Hlen & Hreg & b & Hb & Hcfg & Hlvl).
  split; [exact Hlen|]. split; [exact Hreg|].
  exists b. split; [exact Hb|]. split; [exact Hcfg|].
  intros Hs. destruct (Hlvl Hs) as (Hl & Hsum & Hcap & Hden).
  split; [exact Hl|]. split; [lia|]. split; [exact Hcap|].
  now rewrite orb_comm.
Qed.

Lemma lt_shared_init (mem0 : State) c t w :
  shared mem0 c t Entered Entered mem0 w.
Proof. unfold shared; simpl. repeat split; congruence. Qed.

Lemma lt_step_shared mem0 c t rid c1 c2 mem w :
  buckets (this mem0) !! c = None ->
  shared mem0 c t c1 c2 mem w ->
  exists c1',
    result (catch_into Crashed (step c rid c1) mem w) = Ok c1' /\
    shared mem0 c t c1' c2
      (state (catch_into Crashed (step c rid c1) mem w))
      (world (catch_into Crashed (step c rid c1) mem w)) /\
    (remaining c1' <= remaining c1 - 1)%nat /\
    clock (world (catch_into Crashed (step c rid c1) mem w)) = clock w.
Proof.
  intros Hnone (Hc & Hr & H1 & H2 & Hcr & H).
  destruct c1 as [| |r|r|r out|e].
  - (* about to enter the registry lock *)
    exists Ensured. simpl in H. destruct (started c2) eqn:Es.
    + destruct H as (Hlen & Hreg & b & Hb & Hcfg & Hlvl).
      rewrite (lt_step_entered_present _ _ _ _ _ Hreg).
      split; [reflexivity|]. split; [|now split; [simpl; lia|]].
      unfold shared, state, world; simpl.
      repeat (split; [assumption || discriminate || (intros; now apply Hcr)|]).
      exists b. auto.
    + subst mem. rewrite (lt_step_entered_absent _ _ _ _ Hnone).
      rewrite (Q3LeakyFacts.lbr_ensure_absent _ _ _ Hnone).
      split; [reflexivity|]. split; [|now split; [simpl; lia|]].
      unfold shared, state, world; simpl.
      repeat (split; [reflexivity || assumption || discriminate
                      || (intros; now apply Hcr)|]).
      split; [rewrite length_app; simpl; lia|].
      split; [apply lookup_insert_eq|].
      eexists. split; [now apply list_lookup_middle|].
      split; [split; reflexivity|].
      intros Hs. simpl. split; [apply Hs|].
      destruct c2; try discriminate Es. unfold granted, len; simpl.
      split; [reflexivity|]. split; [lia|discriminate].
  - (* past the lock, about to read the dictionary *)
    simpl in H. destruct H as (Hlen & Hreg & b & Hb & Hcfg & Hlvl).
    exists (Holding (length (heap mem0))).
    rewrite (lt_step_ensured _ _ _ _ _ Hreg).
    split; [reflexivity|]. split; [|now split; [simpl; lia|]].
    unfold shared, state, world; simpl.
    repeat (split; [assumption || (intros ? [= <-]; reflexivity)
                    || (intros; now apply Hcr)|]).
    exists b. auto.
  - (* about to call add_request *)
    simpl in H. destruct H as (Hlen & Hreg & b & Hb & [Hbc Hbr] & Hlvl).
    pose proof (H1 r eq_refl) as ->.
    rewrite (lt_step_holding _ _ _ _ _ _ Hb).
    destruct (lt_add_facts b w rid) as (Hxw & [Hxc Hxr] & [ok Hok] & Hx).
    set (x := add_request rid b w) in *. clearbody x.
    rewrite Hok. eexists. split; [reflexivity|].
    split; [|split; [destruct ok; simpl; lia|exact Hxw]].
    unfold state at 1 2, world at 1; cbn [fst snd].
    assert (Hlen0 : (length (heap mem0) < length (heap mem))%nat) by lia.
    unfold shared. cbn [this heap].
    split; [exact Hc|]. split; [exact Hr|].
    split; [now destruct ok; intros ? [= <-]|]. split; [exact H2|].
    split; [intros Hp; destruct (Hcr Hp); now destruct ok|].
    replace (started (if ok then _ else _) || started c2) with true
      by now destruct ok.
    split; [now rewrite length_insert|]. split; [exact Hreg|].
    exists (state x). split; [now apply list_lookup_insert_eq|].
    split; [split; congruence|].
    intros Hs'. assert (Hs : standing t w).
    { intros n. rewrite <- Hxw. apply Hs'. }
    destruct (Hlvl Hs) as (Hl & Hsum & Hcap & Hden).
    destruct (Hx t Hs Hl) as (Hxl & Hyes & Hno).
    split; [exact Hxl|]. unfold granted in *. simpl in Hsum, Hden.
    destruct ok.
    + destruct (Hyes Hok) as [Hlen' Hle]. simpl. rewrite Hlen', Hsum.
      split; [lia|]. split; [|exact Hden].
      intros _. rewrite <- Hbc, <- Hsum, <- Hlen'. exact Hle.
    + destruct Hno as [Hq Hfull]; [rewrite Hok; discriminate|].
      rewrite Hq. simpl. split; [assumption|]. split; [assumption|].
      intros _. rewrite <- Hbc. destruct (allowed c2); lia.
  - (* refused, about to ask for the wait time *)
    simpl in H. destruct H as (Hlen & Hreg & b & Hb & [Hbc Hbr] & Hlvl).
    pose proof (H1 r eq_refl) as ->.
    rewrite (lt_step_refused _ _ _ _ _ _ Hb).
    destruct (lt_wait_facts b w) as (Hyw & [Hyc Hyr] & Hq & Hy).
    set (y := get_wait_time b w) in *. clearbody y.
    eexists. split; [reflexivity|].
    split; [|split; [destruct (result y); simpl; lia|exact Hyw]].
    unfold state at 1 2, world at 1; cbn [fst snd].
    assert (Hlen0 : (length (heap mem0) < length (heap mem))%nat) by lia.
    unfold shared. cbn [this heap].
    split; [exact Hc|]. split; [exact Hr|].
    split; [now destruct (result y); intros ? [= <-]|]. split; [exact H2|].
    split.
    { intros Hp. destruct (Hcr Hp) as [_ Hcr2]. split; [|exact Hcr2].
      destruct Hq as [q Eq]; [rewrite Hbr; exact Hp|]. now rewrite Eq. }
    replace (started match result y with Ok q => _ | Raise e => _ end
             || started c2) with true by now destruct (result y).
    split; [now rewrite length_insert|]. split; [exact Hreg|].
    exists (state y). split; [now apply list_lookup_insert_eq|].
    split; [split; congruence|].
    intros Hs'. assert (Hs : standing t w).
    { intros n. rewrite <- Hyw. apply Hs'. }
    destruct (Hlvl Hs) as (Hl & Hsum & Hcap & Hden).
    destruct (Hy t Hs Hl) as (Hyl & Hyq).
    split; [exact Hyl|]. unfold granted in *. simpl in Hsum, Hden.
    assert (Ea : allowed match result y with
                         | Ok q => Returned (length (heap mem0)) (false, Some q)
                         | Raise e => Crashed e
                         end = false) by now destruct (result y).
    rewrite Ea, Hyq. simpl. split; [assumption|]. split; [assumption|].
    intros _. now apply Hden.
  - (* returned *)
    exists (Returned r out). simpl.
    split; [reflexivity|]. split; [|now split; [simpl; lia|]].
    unfold shared. repeat (split; [assumption|]). exact H.
  - (* ended by an exception *)
    exists (Crashed e). simpl.
    split; [reflexivity|]. split; [|now split; [simpl; lia|]].
    unfold shared. repeat (split; [assumption|]). exact H.
Qed.

Lemma lt_interleave_shared mem0 c t rid1 rid2 (sched : list bool) :
  buckets (this mem0) !! c = None ->
  forall c1 c2 mem w,
    shared mem0 c t c1 c2 mem w ->
    exists c1' c2',
      result (interleave sched c rid1 rid2 c1 c2 mem w) = Ok (c1', c2') /\
      shared mem0 c t c1' c2'
        (state (interleave sched c rid1 rid2 c1 c2 mem w))
        (world (interleave sched c rid1 rid2 c1 c2 mem w)) /\
      (remaining c1' <= remaining c1 - turns true sched)%nat /\
      (remaining c2' <= remaining c2 - turns false sched)%nat /\
      clock (world (interleave sched c rid1 rid2 c1 c2 mem w)) = clock w.
Proof.
  intros Hnone. induction sched as [|who sched IH]; intros c1 c2 mem w Hsh.
  - exists c1, c2. simpl. split; [reflexivity|]. split; [exact Hsh|].
    repeat split; lia.
  - destruct who; cbn [interleave turns Bool.eqb]; unfold bind.
    + destruct (lt_step_shared _ _ _ rid1 _ _ _ _ Hnone Hsh)
        as (c1' & Ec & Hsh' & Hrem & Hclk).
      destruct (catch_into Crashed (step c rid1 c1) mem w) as [[res mem1] w1].
      unfold result, state, world in Ec, Hsh', Hclk. simpl in Ec, Hsh', Hclk.
      subst res.
      destruct (IH c1' c2 mem1 w1 Hsh') as (d1 & d2 & E & Hd & R1 & R2 & Rc).
      exists d1, d2. split; [exact E|]. split; [exact Hd|].
      repeat split; [lia|lia|congruence].
    + apply lt_shared_sym in Hsh.
      destruct (lt_step_shared _ _ _ rid2 _ _ _ _ Hnone Hsh)
        as (c2' & Ec & Hsh' & Hrem & Hclk).
      destruct (catch_into Crashed (step c rid2 c2) mem w) as [[res mem1] w1].
      unfold result, state, world in Ec, Hsh', Hclk. simpl in Ec, Hsh', Hclk.
      subst res.
      apply lt_shared_sym in Hsh'.
      destruct (IH c1 c2' mem1 w1 Hsh') as (d1 & d2 & E & Hd & R1 & R2 & Rc).
      exists d1, d2. split; [exact E|]. split; [exact Hd|].
      repeat split; [lia|lia|congruence].
Qed.

Lemma lt_done_returned (cl : Caller) :
  remaining cl = 0%nat -> crashed cl = false -> returned cl = true.
Proof. destruct cl; simpl; congruence. Qed.

End Q3LeakyThreadFacts.

(** ** Construction on first use under concurrency *)

(** The four steps of a caller, run without interruption, are
    [allow_request]: same outcome, same registry, same clock. *)
Lemma tt_steps_are_allow_request
  (mem : Q3Token.Limiter.State) (w : World) (c : string) (cost cost' : Q)
  (other : Q3TokenThreads.Caller) :
  let out := Q3TokenThreads.interleave [true; true; true; true] c cost cost'
               Q3TokenThreads.Entered other mem w in
  let seq := Q3Token.Limiter.allow_request c cost mem w in
  state out = state seq /\ world out = world seq /\
  match result seq with
  | Ok o => exists b, result out = Ok (Q3TokenThreads.Returned b o, other)
  | Raise e => result out = Ok (Q3TokenThreads.Crashed e, other)
  end.
Proof.
  unfold Q3TokenThreads.interleave, Q3Token.Limiter.allow_request,
    Q3TokenThreads.step, catch_into, bind, ret.
  destruct (Q3Token.Limiter.ensure_bucket c mem w) as [[[[]|e] m1] w1];
    [|now unfold state, world, result].
  destruct (Q3Token.Limiter.getitem c m1 w1) as [[[b|e] m2] w2];
    [|now unfold state, world, result].
  destruct (at_ref b (Q3Token.consume cost) m2 w2) as [[[[|]|e] m3] w3];
    [unfold state, world, result; simpl; eauto| |now unfold state, world, result].
  destruct (at_ref b (Q3Token.wait_time_for_tokens cost) m3 w3)
    as [[[q|e] m4] w4]; unfold state, world, result; simpl; eauto.
Qed.

Lemma lt_steps_are_allow_request
  (mem : Q3Leaky.Limiter.State) (w : World) (c : string)
  (rid rid' : option string) (other : Q3LeakyThreads.Caller) :
  let out := Q3LeakyThreads.interleave [true; true; true; true] c rid rid'
               Q3LeakyThreads.Entered other mem w in
  let seq := Q3Leaky.Limiter.allow_request c rid mem w in
  state out = state seq /\ world out = world seq /\
  match result seq with
  | Ok o => exists b, result out = Ok (Q3LeakyThreads.Returned b o, other)
  | Raise e => result out = Ok (Q3LeakyThreads.Crashed e, other)
  end.
Proof.
  unfold Q3LeakyThreads.interleave, Q3Leaky.Limiter.allow_request,
    Q3LeakyThreads.step, catch_into, bind, ret.
  destruct (Q3Leaky.Limiter.ensure_bucket c mem w) as [[[[]|e] m1] w1];
    [|now unfold state, world, result].
  destruct (Q3Leaky.Limiter.getitem c m1 w1) as [[[b|e] m2] w2];
    [|now unfold state, world, result].
  destruct (at_ref b (Q3Leaky.add_request rid) m2 w2) as [[[[|]|e] m3] w3];
    [unfold state, world, result; simpl; eauto| |now unfold state, world, result].
  destruct (at_ref b Q3Leaky.get_wait_time m3 w3)
    as [[[q|e] m4] w4]; unfold state, world, result; simpl; eauto.
Qed.

Lemma tt_returned_cases (cl : Q3TokenThreads.Caller) :
  Q3TokenThreads.returned cl = true ->
  Q3TokenThreads.allowed cl = true \/ Q3TokenThreads.denied cl = true.
Proof. destruct cl as [| | | |b [[|] q]|]; simpl; auto; discriminate. Qed.

Lemma lt_returned_cases (cl : Q3LeakyThreads.Caller) :
  Q3LeakyThreads.returned cl = true ->
  Q3LeakyThreads.allowed cl = true \/ Q3LeakyThreads.denied cl = true.
Proof. destruct cl as [| | | |b [[|] q]|]; simpl; auto; discriminate. Qed.

(** C9 — Two callers run [allow_request] for the same client, which the
    registry has not seen, under any schedule of their atomic steps (each
    [with lock:] block is one step).  In both [Question 3] limiters:
    every step returns; the store gains exactly one bucket as soon as a
    caller has passed the registry lock, and never a second one; every
    bucket reference a caller holds is the one registered for the client,
    so both callers work on the same instance; with four turns each, and
    a positive rate, both callers return; and while the clock stands still
    the two callers together get the configured capacity, not twice it:
    both are allowed exactly when their costs add up to at most the
    capacity (token bucket, positive costs), respectively when the
    capacity is at least two slots (leaky bucket). *)
Theorem one_bucket_for_concurrent_first_requests
  (memt : Q3Token.Limiter.State) (meml : Q3Leaky.Limiter.State)
  (c : string) (cost1 cost2 : Q) (rid1 rid2 : option string)
  (sched : list bool) (wt wl : World) :
  Q3Token.Limiter.buckets (this memt) !! c = None ->
  Q3Leaky.Limiter.buckets (this meml) !! c = None ->
  (let out := Q3TokenThreads.interleave sched c cost1 cost2
                Q3TokenThreads.Entered Q3TokenThreads.Entered memt wt in
   exists c1 c2,
     result out = Ok (c1, c2) /\
     length (heap (state out)) =
       (if Q3TokenThreads.started c1 || Q3TokenThreads.started c2
        then Datatypes.S (length (heap memt)) else length (heap memt)) /\
     (forall b,
        Q3TokenThreads.holds c1 = Some b \/ Q3TokenThreads.holds c2 = Some b ->
        b = length (heap memt) /\
        Q3Token.Limiter.buckets (this (state out)) !! c = Some b) /\
     ((4 <= turns true sched)%nat -> (4 <= turns false sched)%nat ->
      0 < Q3Token.Limiter.refill_rate (this memt) ->
      Q3TokenThreads.returned c1 = true /\
      Q3TokenThreads.returned c2 = true) /\
     (forall t, standing t wt -> 0 < cost1 -> 0 < cost2 ->
        (Q3TokenThreads.allowed c1 = true ->
         Q3TokenThreads.allowed c2 = true ->
         cost1 + cost2 <= Q3Token.Limiter.capacity (this memt)) /\
        (Q3TokenThreads.returned c1 = true ->
         Q3TokenThreads.returned c2 = true ->
         cost1 + cost2 <= Q3Token.Limiter.capacity (this memt) ->
         Q3TokenThreads.allowed c1 = true /\
         Q3TokenThreads.allowed c2 = true))) /\
  (let out := Q3LeakyThreads.interleave sched c rid1 rid2
                Q3LeakyThreads.Entered Q3LeakyThreads.Entered meml wl in
   exists c1 c2,
     result out = Ok (c1, c2) /\
     length (heap (state out)) =
       (if Q3LeakyThreads.started c1 || Q3LeakyThreads.started c2
        then Datatypes.S (length (heap meml)) else length (heap meml)) /\
     (forall b,
        Q3LeakyThreads.holds c1 = Some b \/ Q3LeakyThreads.holds c2 = Some b ->
        b = length (heap meml) /\
        Q3Leaky.Limiter.buckets (this (state out)) !! c = Some b) /\
     ((4 <= turns true sched)%nat -> (4 <= turns false sched)%nat ->
      0 < Q3Leaky.Limiter.leak_rate (this meml) ->
      Q3LeakyThreads.returned c1 = true /\
      Q3LeakyThreads.returned c2 = true) /\
     (forall t, standing t wl ->
        (Q3LeakyThreads.allowed c1 = true ->
         Q3LeakyThreads.allowed c2 = true ->
         (2 <= Q3Leaky.Limiter.capacity (this meml))%Z) /\
        (Q3LeakyThreads.returned c1 = true ->
         Q3LeakyThreads.returned c2 = true ->
         (2 <= Q3Leaky.Limiter.capacity (this meml))%Z ->
         Q3LeakyThreads.allowed c1 = true /\
         Q3LeakyThreads.allowed c2 = true))).
Proof.
  intros Ht Hl. split.
  - intros out.
    assert (Hall : forall t, exists c1 c2,
               result out = Ok (c1, c2) /\
               Q3TokenThreads.shared memt c t cost1 c1 cost2 c2
                 (state out) (world out) /\
               (Q3TokenThreads.remaining c1 <= 4 - turns true sched)%nat /\
               (Q3TokenThreads.remaining c2 <= 4 - turns false sched)%nat /\
               clock (world out) = clock wt).
    { intros t.
      apply (Q3TokenThreadFacts.tt_interleave_shared memt c t cost1 cost2
               sched Ht Q3TokenThreads.Entered Q3TokenThreads.Entered memt wt).
      apply Q3TokenThreadFacts.tt_shared_init. }
    destruct (Hall 0) as (c1 & c2 & E & Hsh & R1 & R2 & Hclk).
    exists c1, c2. split; [exact E|].
    destruct Hsh as (_ & _ & H1 & H2 & Hcr & Hsh).
    split; [|split; [|split]].
    + destruct (_ || _); [tauto|now rewrite Hsh].
    + intros b Hb.
      assert (Hst : Q3TokenThreads.started c1 || Q3TokenThreads.started c2
                    = true).
      { destruct Hb as [Hb|Hb]; [destruct c1|destruct c2];
          try discriminate Hb; simpl; auto using orb_true_r. }
      rewrite Hst in Hsh. destruct Hsh as (_ & Hreg & _).
      assert (b = length (heap memt)) as -> by (destruct Hb; auto).
      split; [reflexivity|exact Hreg].
    + intros T1 T2 Hr. destruct (Hcr Hr) as [Hc1 Hc2].
      split; apply Q3TokenThreadFacts.tt_done_returned; auto; lia.
    + intros t Hs Hp1 Hp2.
      destruct (Hall t) as (d1 & d2 & E' & Hsh' & _).
      rewrite E in E'. injection E' as <- <-.
      destruct Hsh' as (_ & _ & _ & _ & _ & Hsh').
      assert (Hs' : standing t (world out)).
      { intros n. rewrite Hclk. apply Hs. }
      split.
      * intros Ha1 Ha2.
        replace (Q3TokenThreads.started c1 || Q3TokenThreads.started c2)
          with true in Hsh' by now destruct c1.
        destruct Hsh' as (_ & _ & b & _ & _ & Hlvl).
        destruct (Hlvl Hs' Hp1 Hp2) as (_ & Hsum & Hnn & _).
        unfold Q3TokenThreads.spent in Hsum. rewrite Ha1, Ha2 in Hsum, Hnn.
        specialize (Hnn eq_refl). lra.
      * intros Hr1 Hr2 Hle.
        replace (Q3TokenThreads.started c1 || Q3TokenThreads.started c2)
          with true in Hsh' by now destruct c1.
        destruct Hsh' as (_ & _ & b & _ & _ & Hlvl).
        destruct (Hlvl Hs' Hp1 Hp2) as (_ & _ & _ & Hden).
        destruct (tt_returned_cases c1 Hr1) as [A1|D1];
          destruct (tt_returned_cases c2 Hr2) as [A2|D2]; auto;
          exfalso; rewrite ?D1, ?D2, ?orb_true_r in Hden;
          specialize (Hden eq_refl); lra.
  - intros out.
    assert (Hall : forall t, exists c1 c2,
               result out = Ok (c1, c2) /\
               Q3LeakyThreads.shared meml c t c1 c2 (state out) (world out) /\
               (Q3LeakyThreads.remaining c1 <= 4 - turns true sched)%nat /\
               (Q3LeakyThreads.remaining c2 <= 4 - turns false sched)%nat /\
               clock (world out) = clock wl).
    { intros t.
      apply (Q3LeakyThreadFacts.lt_interleave_shared meml c t rid1 rid2
               sched Hl Q3LeakyThreads.Entered Q3LeakyThreads.Entered meml wl).
      apply Q3LeakyThreadFacts.lt_shared_init. }
    destruct (Hall 0) as (c1 & c2 & E & Hsh & R1 & R2 & Hclk).
    exists c1, c2. split; [exact E|].
    destruct Hsh as (_ & _ & H1 & H2 & Hcr & Hsh).
    split; [|split; [|split]].
    + destruct (_ || _); [tauto|now rewrite Hsh].
    + intros b Hb.
      assert (Hst : Q3LeakyThreads.started c1 || Q3LeakyThreads.started c2
                    = true).
      { destruct Hb as [Hb|Hb]; [destruct c1|destruct c2];
          try discriminate Hb; simpl; auto using orb_true_r. }
      rewrite Hst in Hsh. destruct Hsh as (_ & Hreg & _).
      assert (b = length (heap meml)) as -> by (destruct Hb; auto).
      split; [reflexivity|exact Hreg].
    + intros T1 T2 Hr. destruct (Hcr Hr) as [Hc1 Hc2].
      split; apply Q3LeakyThreadFacts.lt_done_returned; auto; lia.
    + intros t Hs.
      destruct (Hall t) as (d1 & d2 & E' & Hsh' & _).
      rewrite E in E'. injection E' as <- <-.
      destruct Hsh' as (_ & _ & _ & _ & _ & Hsh').
      assert (Hs' : standing t (world out)).
      { intros n. rewrite Hclk. apply Hs. }
      split.
      * intros Ha1 Ha2.
        replace (Q3LeakyThreads.started c1 || Q3LeakyThreads.started c2)
          with true in Hsh' by now destruct c1.
        destruct Hsh' as (_ & _ & b & _ & _ & Hlvl).
        destruct (Hlvl Hs') as (_ & Hsum & Hcap & _).
        unfold Q3LeakyThreads.granted in Hsum. rewrite Ha1, Ha2 in Hsum.
        lia.
      * intros Hr1 Hr2 Hle.
        replace (Q3LeakyThreads.started c1 || Q3LeakyThreads.started c2)
          with true in Hsh' by now destruct c1.
        destruct Hsh' as (_ & _ & b & _ & _ & Hlvl).
        destruct (Hlvl Hs') as (_ & _ & _ & Hden).
        destruct (lt_returned_cases c1 Hr1) as [A1|D1];
          destruct (lt_returned_cases c2 Hr2) as [A2|D2]; auto;
          exfalso; rewrite ?D1, ?D2, ?orb_true_r in Hden;
          specialize (Hden eq_refl); lia.
Qed.

Lemma one_bucket_for_concurrent_first_requests_witness :
  (exists c1 c2,
     result (Q3TokenThreads.interleave
               [true; false; false; true; true; false; true; false]
               "client-X" 1 1 Q3TokenThreads.Entered Q3TokenThreads.Entered
               (mkMem [] (Q3Token.Limiter.__init__ 1 2)) (frozen 0)) =
       Ok (c1, c2) /\
     Q3TokenThreads.returned c1 = true /\
     Q3TokenThreads.returned c2 = true /\
     Q3TokenThreads.holds c1 = Q3TokenThreads.holds c2 /\
     Q3TokenThreads.allowed c1 && Q3TokenThreads.allowed c2 = false) /\
  (exists c1 c2,
     result (Q3LeakyThreads.interleave
               [true; false; false; true; true; false; true; false]
               "client-X" None None
               Q3LeakyThreads.Entered Q3LeakyThreads.Entered
               (mkMem [] (Q3Leaky.Limiter.__init__ 1 2)) (frozen 0)) =
       Ok (c1, c2) /\
     Q3LeakyThreads.returned c1 = true /\
     Q3LeakyThreads.returned c2 = true /\
     Q3LeakyThreads.holds c1 = Q3LeakyThreads.holds c2 /\
     Q3LeakyThreads.allowed c1 && Q3LeakyThreads.allowed c2 = false).
Proof.
  destruct (one_bucket_for_concurrent_first_requests
              (mkMem [] (Q3Token.Limiter.__init__ 1 2))
              (mkMem [] (Q3Leaky.Limiter.__init__ 1 2))
              "client-X" 1 1 None None
              [true; false; false; true; true; false; true; false]
              (frozen 0) (frozen 0) eq_refl eq_refl)
    as [(c1 & c2 & E & _ & Hh & Hret & Hcap)
        (d1 & d2 & E' & _ & Hh' & Hret' & Hcap')].
  split.
  - exists c1, c2. split; [exact E|].
    destruct Hret as [R1 R2]; [simpl; lia|simpl; lia|reflexivity|].
    split; [exact R1|]. split; [exact R2|]. split.
    + destruct c1 as [| | | |b1 o1|]; try discriminate R1.
      destruct c2 as [| | | |b2 o2|]; try discriminate R2.
      destruct (Hh b1) as [H1 _]; [now left|].
      destruct (Hh b2) as [H2 _]; [now right|].
      simpl. congruence.
    + destruct (Q3TokenThreads.allowed c1) eqn:A1; [|reflexivity].
      destruct (Q3TokenThreads.allowed c2) eqn:A2; [|reflexivity].
      exfalso.
      destruct (Hcap 0 (standing_frozen 0) eq_refl eq_refl) as [Hup _].
      specialize (Hup eq_refl eq_refl).
      revert Hup. vm_compute. intros H. now apply H.
  - exists d1, d2. split; [exact E'|].
    destruct Hret' as [R1 R2]; [simpl; lia|simpl; lia|reflexivity|].
    split; [exact R1|]. split; [exact R2|]. split.
    + destruct d1 as [| | | |b1 o1|]; try discriminate R1.
      destruct d2 as [| | | |b2 o2|]; try discriminate R2.
      destruct (Hh' b1) as [H1 _]; [now left|].
      destruct (Hh' b2) as [H2 _]; [now right|].
      simpl. congruence.
    + destruct (Q3LeakyThreads.allowed d1) eqn:A1; [|reflexivity].
      destruct (Q3LeakyThreads.allowed d2) eqn:A2; [|reflexivity].
      exfalso. destruct (Hcap' 0 (standing_frozen 0)) as [Hup _].
      specialize (Hup eq_refl eq_refl).
      revert Hup. vm_compute. intros H. now apply H.
Defined.


(** * Further properties of the code *)

(** ** The token bucket of [src/rate_limiting], step by step *)

Lemma py_min_le_r (a b : Q) : py_min a b <= b.
Proof.
  unfold py_min. destruct (Qltb b a) eqn:E; [lra|].
  apply Qltb_ge in E. exact E.
Qed.

Lemma py_max_ge_l (a b : Q) : a <= py_max a b.
Proof.
  unfold py_max. destruct (Qltb a b) eqn:E; [|lra].
  apply Qltb_lt in E. lra.
Qed.

Lemma py_max_lub (a b c : Q) : a <= c -> b <= c -> py_max a b <= c.
Proof. unfold py_max. now destruct (Qltb a b). Qed.

(** The refill in closed form: one reading of the clock, and the bucket
    either moved to that reading or left alone. *)
Lemma rl_refill_run (b : RlToken.TokenBucket) (w : World) :
  RlToken._refill_tokens b w =
    (Ok tt,
     if Qltb 0 ((clock w (reads w) - RlToken.last_refill b) *
                RlToken.refill_rate b)
     then {| RlToken.capacity := RlToken.capacity b;
             RlToken.refill_rate := RlToken.refill_rate b;
             RlToken.tokens :=
               py_min (RlToken.capacity b)
                 (RlToken.tokens b +
                  (clock w (reads w) - RlToken.last_refill b) *
                  RlToken.refill_rate b);
             RlToken.last_refill := clock w (reads w) |}
     else b,
     tick w).
Proof.
  unfold RlToken._refill_tokens, bind, time_time, get, put, ret.
  destruct (Qltb 0 _); reflexivity.
Qed.

(** What a refill can do to the level and the timestamp: the level grows
    by no more than the rate times the advance of the timestamp. *)
Lemma rl_refill_potential (b : RlToken.TokenBucket) (w : World) :
  let b' := state (RlToken._refill_tokens b w) in
  RlToken.capacity b' = RlToken.capacity b /\
  RlToken.refill_rate b' = RlToken.refill_rate b /\
  RlToken.tokens b' - RlToken.refill_rate b * RlToken.last_refill b' <=
    RlToken.tokens b - RlToken.refill_rate b * RlToken.last_refill b.
Proof.
  rewrite rl_refill_run. unfold state; simpl.
  destruct (Qltb 0 _); simpl.
  - split; [reflexivity|]. split; [reflexivity|].
    pose proof (py_min_le_r (RlToken.capacity b)
                  (RlToken.tokens b +
                   (clock w (reads w) - RlToken.last_refill b) *
                   RlToken.refill_rate b)).
    lra.
  - split; [reflexivity|]. split; [reflexivity|]. lra.
Qed.

Lemma rl_consume_run (cost : Q) (b : RlToken.TokenBucket) (w : World) :
  let b1 := state (RlToken._refill_tokens b w) in
  RlToken.consume cost b w =
    if Qleb cost (RlToken.tokens b1)
    then (Ok true, RlToken.set_tokens (RlToken.tokens b1 - cost) b1, tick w)
    else (Ok false, b1, tick w).
Proof.
  unfold RlToken.consume, bind. rewrite rl_refill_run.
  unfold state, get; simpl. now destruct (Qleb cost _).
Qed.

Lemma rl_get_available_run (b : RlToken.TokenBucket) (w : World) :
  let b1 := state (RlToken._refill_tokens b w) in
  RlToken.get_available_tokens b w = (Ok (RlToken.tokens b1), b1, tick w).
Proof.
  unfold RlToken.get_available_tokens, bind. rewrite rl_refill_run.
  reflexivity.
Qed.

(** [allow_request] in closed form: one refill and a token taken, or two
    refills and the wait computed from the level after the second. *)
Lemma rl_allow_run (l : RlToken.Limiter.TokenBucketRateLimiter) (w : World) :
  ~ RlToken.refill_rate (RlToken.Limiter.bucket l) == 0 ->
  let b1 := state (RlToken._refill_tokens (RlToken.Limiter.bucket l) w) in
  let b2 := state (RlToken._refill_tokens b1 (tick w)) in
  RlToken.Limiter.allow_request l w =
    if Qleb 1 (RlToken.tokens b1)
    then (Ok (true, None),
          RlToken.Limiter.mkLimiter
            (RlToken.set_tokens (RlToken.tokens b1 - 1) b1),
          tick w)
    else (Ok (false,
              Some (py_max 0 ((1 - RlToken.tokens b2) /
                              RlToken.refill_rate b2))),
          RlToken.Limiter.mkLimiter b2,
          tick (tick w)).
Proof.
  intros Hr b1 b2.
  destruct (rl_refill_potential (RlToken.Limiter.bucket l) w) as (_ & Hr1 & _).
  destruct (rl_refill_potential b1 (tick w)) as (_ & Hr2 & _).
  fold b1 in Hr1. fold b2 in Hr2.
  unfold RlToken.Limiter.allow_request, RlToken.Limiter.in_bucket, zoom.
  unfold bind at 1. rewrite rl_consume_run. fold b1.
  destruct (Qleb 1 (RlToken.tokens b1)); [reflexivity|].
  unfold bind at 1. cbn [RlToken.Limiter.bucket].
  rewrite rl_get_available_run. fold b2.
  unfold bind, get. cbn [RlToken.Limiter.bucket].
  rewrite py_div_run by (rewrite Hr2, Hr1; exact Hr).
  reflexivity.
Qed.

Lemma rl_refill_monotone c r (b : RlToken.TokenBucket) (w : World) :
  RlTokenInv.inv c r b -> 0 <= r ->
  RlToken.tokens b <= RlToken.tokens (state (RlToken._refill_tokens b w)).
Proof.
  intros [[Hc Hr] [H0 H1]] Hr0. rewrite rl_refill_run. unfold state; simpl.
  destruct (Qltb 0 _) eqn:E; simpl; [|lra].
  apply Qltb_lt in E. apply py_min_glb; lra.
Qed.





(** X2 — The answers of [allow_request] on a limiter of
    [src/rate_limiting/token_bucket.py] within its bounds: it never raises;
    an allowed request comes with no wait and costs the bucket at most one
    token; a denied one comes with a wait between [0] and [1 / rate] seconds
    and does not lower the level. *)
Theorem rl_allow_request_answer
  (c r : Q) (l : RlToken.Limiter.TokenBucketRateLimiter) (w : World) :
  RlTokenInv.limiter_inv c r l -> 0 < r ->
  let x := RlToken.Limiter.allow_request l w in
  let level := RlToken.tokens (RlToken.Limiter.bucket l) in
  let level' := RlToken.tokens (RlToken.Limiter.bucket (state x)) in
  (result x = Ok (true, None) /\ level - 1 <= level') \/
  (exists q, result x = Ok (false, Some q) /\ 0 <= q <= 1 / r /\
             level <= level').
Proof.
  intros Hinv Hr x level level'. subst x level level'.
  pose proof Hinv as [[Hc Hrr] Hl].
  pose proof (rl_refill_monotone c r _ w Hinv (Qlt_le_weak _ _ Hr)) as M1.
  pose proof (RlTokenFacts.tb_refill_keeps c r _ w Hinv) as Hinv1.
  pose proof (rl_refill_monotone c r _ (tick w) Hinv1 (Qlt_le_weak _ _ Hr))
    as M2.
  pose proof (RlTokenFacts.tb_refill_keeps c r _ (tick w) Hinv1) as Hinv2.
  rewrite rl_allow_run by (rewrite Hrr; lra).
  set (b1 := state (RlToken._refill_tokens (RlToken.Limiter.bucket l) w)) in *.
  set (b2 := state (RlToken._refill_tokens b1 (tick w))) in *.
  clearbody b2. clearbody b1.
  destruct (Qleb 1 (RlToken.tokens b1)).
  - left. unfold result, state; simpl. split; [reflexivity|lra].
  - right. eexists. unfold result, state; simpl. split; [reflexivity|].
    destruct Hinv2 as [[_ Hr2] [H0 _]]. rewrite Hr2.
    split; [split|lra].
    + apply py_max_ge_l.
    + apply py_max_lub.
      * apply Qle_shift_div_l; [exact Hr|lra].
      * apply Qle_shift_div_l; [exact Hr|].
        unfold Qdiv. rewrite <- Qmult_assoc, (Qmult_comm (/ r)),
          Qmult_inv_r by lra.
        lra.
Qed.

Lemma rl_allow_request_answer_witness :
  let x := RlToken.Limiter.allow_request
             (RlToken.Limiter.mkLimiter (RlToken.mkTokenBucket 10 2 (1 # 2) 7))
             (frozen 7) in
  let level := 1 # 2 in
  let level' := RlToken.tokens (RlToken.Limiter.bucket (state x)) in
  (result x = Ok (true, None) /\ level - 1 <= level') \/
  (exists q, result x = Ok (false, Some q) /\ 0 <= q <= 1 / 2 /\
             level <= level').
Proof.
  apply (rl_allow_request_answer 10 2
           (RlToken.Limiter.mkLimiter (RlToken.mkTokenBucket 10 2 (1 # 2) 7))
           (frozen 7)).
  - split; [split; reflexivity|]. split; vm_compute; discriminate.
  - reflexivity.
Defined.

(** X4 — Refill of [src/rate_limiting/token_bucket.py] is monotone up to the
    capacity: on a bucket within its bounds [get_available_tokens] never
    raises, never reports less than the level it found nor more than the
    capacity, whatever the clock reads; and once the time since the last
    refill is enough to make up the missing tokens at the refill rate, it
    reports exactly the capacity. *)
Theorem rl_get_available_tokens_monotone_until_full
  (c r : Q) (b : RlToken.TokenBucket) (w : World) :
  RlTokenInv.inv c r b -> 0 < r ->
  exists v b',
    RlToken.get_available_tokens b w = (Ok v, b', tick w) /\
    RlToken.tokens b' = v /\
    RlToken.tokens b <= v <= c /\
    (RlToken.last_refill b < clock w (reads w) ->
     c - RlToken.tokens b <= (clock w (reads w) - RlToken.last_refill b) * r ->
     v = c).
Proof.
  intros Hinv Hr.
  pose proof (rl_refill_monotone c r b w Hinv (Qlt_le_weak _ _ Hr)) as Hm.
  pose proof (RlTokenFacts.tb_refill_keeps c r b w Hinv) as [_ [_ Hle]].
  destruct (rl_refill_potential b w) as (Hc1 & _).
  destruct Hinv as [[Hc Hrr] [H0 H1]].
  rewrite Hc1, Hc in Hle.
  eexists _, _. split; [apply rl_get_available_run|].
  split; [reflexivity|]. split; [split; assumption|].
  intros Hlt Hfull. rewrite rl_refill_run. unfold state; simpl.
  rewrite Hrr, Hc.
  assert (Ea : Qltb 0 ((clock w (reads w) - RlToken.last_refill b) * r) = true)
    by (apply Qltb_lt; nra).
  rewrite Ea. simpl. unfold py_min.
  assert (Eb : Qltb (RlToken.tokens b +
                     (clock w (reads w) - RlToken.last_refill b) * r) c = false)
    by (apply Qltb_ge; lra).
  now rewrite Eb.
Qed.

Lemma rl_get_available_tokens_monotone_until_full_witness :
  exists v b',
    RlToken.get_available_tokens (RlToken.mkTokenBucket 10 2 4 7) (frozen 10) =
      (Ok v, b', tick (frozen 10)) /\
    RlToken.tokens b' = v /\
    4 <= v <= 10 /\
    (7 < 10 -> 10 - 4 <= (10 - 7) * 2 -> v = 10).
Proof.
  apply (rl_get_available_tokens_monotone_until_full 10 2
           (RlToken.mkTokenBucket 10 2 4 7) (frozen 10)).
  - split; [split; reflexivity|]. split; vm_compute; discriminate.
  - reflexivity.
Defined.

(** X5 — [reset] of [src/rate_limiting/token_bucket.py] refills completely,
    from any state of the bucket and under any clock: the next
    [get_available_tokens] reports exactly the capacity, and the next
    [consume] succeeds exactly when its cost is at most the capacity. *)
Theorem rl_token_reset_refills_completely
  (b : RlToken.TokenBucket) (w : World) (cost : Q) :
  result ((RlToken.reset ;; RlToken.get_available_tokens) b w) =
    Ok (RlToken.capacity b) /\
  result ((RlToken.reset ;; RlToken.consume cost) b w) =
    Ok (Qleb cost (RlToken.capacity b)).
Proof.
  assert (Hmin : forall a, Qltb 0 a = true ->
            py_min (RlToken.capacity b) (RlToken.capacity b + a) =
              RlToken.capacity b).
  { intros a Ha. apply Qltb_lt in Ha. unfold py_min.
    assert (E : Qltb (RlToken.capacity b + a) (RlToken.capacity b) = false)
      by (apply Qltb_ge; lra).
    now rewrite E. }
  split.
  - unfold bind at 1. unfold RlToken.reset, bind, get, put, time_time.
    rewrite rl_get_available_run, rl_refill_run. unfold result, state; simpl.
    destruct (Qltb 0 _) eqn:E; simpl; [|reflexivity].
    now rewrite (Hmin _ E).
  - unfold bind at 1. unfold RlToken.reset, bind, get, put, time_time.
    rewrite rl_consume_run, rl_refill_run. unfold state; simpl.
    destruct (Qltb 0 _) eqn:E; simpl.
    + rewrite (Hmin _ E). now destruct (Qleb cost _).
    + now destruct (Qleb cost _).
Qed.

(** ** The leaky bucket of [src/rate_limiting], step by step *)


(** The leak in closed form: one reading of the clock, and either the
    oldest entries dropped and the timestamp moved, or nothing at all. *)
Lemma rl_leak_run (b : RlLeaky.LeakyBucket) (w : World) :
  let n := py_int ((clock w (reads w) - RlLeaky.last_leak b) *
                   RlLeaky.leak_rate b) in
  RlLeaky._leak_requests b w =
    (Ok tt,
     if (0 <? n)%Z
     then {| RlLeaky.capacity := RlLeaky.capacity b;
             RlLeaky.leak_rate := RlLeaky.leak_rate b;
             RlLeaky.bucket :=
               skipn (Z.to_nat (Z.min n (len (RlLeaky.bucket b))))
                 (RlLeaky.bucket b);
             RlLeaky.last_leak := clock w (reads w) |}
     else b,
     tick w).
Proof.
  unfold RlLeaky._leak_requests, bind, time_time, get.
  destruct (0 <? _)%Z; [|reflexivity].
  unfold for_range. rewrite rl_popleft_loop by apply to_nat_min_len.
  reflexivity.
Qed.

Lemma len_skipn {A} (k : nat) (l : list A) :
  len (skipn k l) = (len l - Z.of_nat (Nat.min k (length l)))%Z.
Proof. unfold len. rewrite length_skipn. lia. Qed.








(** [int] of a number that is at least a natural count is at least that
    count. *)
Lemma py_int_ge (m : Z) (x : Q) :
  (0 <= m)%Z -> inject_Z m <= x -> (m <= py_int x)%Z.
Proof.
  unfold py_int, Qle; simpl. intros Hm H.
  assert (Hn : (0 <= Qnum x)%Z) by nia.
  rewrite Z.quot_div_nonneg by lia.
  apply Z.div_le_lower_bound; lia.
Qed.

Lemma q3_leak_run (b : Q3Leaky.LeakyBucket) (w : World) :
  let n := py_int ((clock w (reads w) - Q3Leaky.last_leak_time b) *
                   Q3Leaky.leak_rate b) in
  Q3Leaky._leak b w =
    (Ok tt,
     if (0 <? n)%Z
     then {| Q3Leaky.capacity := Q3Leaky.capacity b;
             Q3Leaky.leak_rate := Q3Leaky.leak_rate b;
             Q3Leaky.queue :=
               skipn (Z.to_nat (Z.min n (len (Q3Leaky.queue b))))
                 (Q3Leaky.queue b);
             Q3Leaky.last_leak_time := clock w (reads w) |}
     else b,
     tick w).
Proof.
  unfold Q3Leaky._leak, bind, time_time, get.
  destruct (0 <? _)%Z; [|reflexivity].
  unfold for_range. rewrite q3_popleft_loop by apply to_nat_min_len.
  reflexivity.
Qed.

Lemma ap_leak_run (b : ApLeaky.LeakyBucket) (w : World) :
  let n := py_int ((clock w (reads w) - ApLeaky.last_leak b) *
                   ApLeaky.leak_rate b) in
  ApLeaky._leak_requests b w =
    (Ok tt,
     if (0 <? n)%Z
     then {| ApLeaky.capacity := ApLeaky.capacity b;
             ApLeaky.leak_rate := ApLeaky.leak_rate b;
             ApLeaky.queue :=
               skipn (Z.to_nat (Z.min n (len (ApLeaky.queue b))))
                 (ApLeaky.queue b);
             ApLeaky.last_leak := clock w (reads w) |}
     else b,
     tick w).
Proof.
  unfold ApLeaky._leak_requests, bind, time_time, get.
  destruct (0 <? _)%Z; [|reflexivity].
  unfold for_range. rewrite ap_popleft_loop. reflexivity.
Qed.

Lemma len_skipn_to_nat {A} (n : Z) (l : list A) :
  len (skipn (Z.to_nat (Z.min n (len l))) l) =
    (len l - Z.of_nat (Z.to_nat (Z.min n (len l))))%Z.
Proof. rewrite len_skipn. unfold len. lia. Qed.


(** X8 — [reset] of [src/rate_limiting/leaky_bucket.py] empties the queue,
    from any state of the bucket and under any clock: the next
    [get_queue_size] reports [0], and the next [add_request] is admitted
    exactly when the capacity is positive. *)
Theorem rl_leaky_reset_empties (b : RlLeaky.LeakyBucket) (w : World) :
  result ((RlLeaky.reset ;; RlLeaky.get_queue_size) b w) = Ok 0%Z /\
  result ((RlLeaky.reset ;; RlLeaky.add_request) b w) =
    Ok (0 <? RlLeaky.capacity b)%Z.
Proof.
  split.
  - unfold bind at 1. unfold RlLeaky.reset, bind, get, put, time_time.
    unfold RlLeaky.get_queue_size, bind. rewrite rl_leak_run.
    unfold get, ret, result; simpl.
    destruct (0 <? _)%Z; simpl; [|reflexivity].
    now rewrite skipn_nil.
  - unfold bind at 1. unfold RlLeaky.reset, bind, get, put, time_time.
    unfold RlLeaky.add_request, bind. rewrite rl_leak_run.
    unfold get, ret, result; simpl.
    destruct (0 <? py_int _)%Z; simpl.
    + rewrite skipn_nil. change (len []) with 0%Z.
      now destruct (0 <? RlLeaky.capacity b)%Z.
    + change (len []) with 0%Z.
      now destruct (0 <? RlLeaky.capacity b)%Z.
Qed.

(** ** What a leak leaves in the queue of [Question 3] *)

Lemma q3_leak_shrinks (b : Q3Leaky.LeakyBucket) (w : World) :
  let b1 := state (Q3Leaky._leak b w) in
  Q3Leaky._leak b w = (Ok tt, b1, tick w) /\
  Q3Leaky.capacity b1 = Q3Leaky.capacity b /\
  Q3Leaky.leak_rate b1 = Q3Leaky.leak_rate b /\
  (len (Q3Leaky.queue b1) <= len (Q3Leaky.queue b))%Z /\
  (forall m : Z,
     (0 < m)%Z ->
     inject_Z m <=
       (clock w (reads w) - Q3Leaky.last_leak_time b) * Q3Leaky.leak_rate b ->
     (len (Q3Leaky.queue b1) <= Z.max 0 (len (Q3Leaky.queue b) - m))%Z).
Proof.
  rewrite q3_leak_run. unfold state; simpl.
  destruct (0 <? _)%Z eqn:E; simpl.
  - do 3 (split; [reflexivity|]). rewrite len_skipn_to_nat.
    split; [lia|]. intros m Hm Hle.
    apply py_int_ge in Hle; lia.
  - do 3 (split; [reflexivity|]). split; [lia|]. intros m Hm Hle.
    apply py_int_ge in Hle; [|lia]. apply Z.ltb_ge in E. lia.
Qed.

(** ** The registry of [Question 3] over a run of requests *)

Lemma q3_wait_returns (b : Q3Token.TokenBucket) (w : World) (cost : Q) :
  ~ Q3Token.refill_rate b == 0 ->
  exists q, result (Q3Token.wait_time_for_tokens cost b w) = Ok q.
Proof.
  intros Hr. unfold Q3Token.wait_time_for_tokens, bind.
  rewrite q3_refill_run. unfold get. destruct (Qleb cost _).
  - now eexists.
  - rewrite py_div_run by exact Hr. now eexists.
Qed.

Lemma tbr_allow_present_registry (mem : Q3Token.Limiter.State) (w : World)
  (a : string) (cost : Q) (r0 : nat) :
  tb_registry_ok mem ->
  ~ Q3Token.Limiter.refill_rate (this mem) == 0 ->
  Q3Token.Limiter.buckets (this mem) !! a = Some r0 ->
  exists o mem' w',
    Q3Token.Limiter.allow_request a cost mem w = (Ok o, mem', w') /\
    this mem' = this mem /\ length (heap mem') = length (heap mem).
Proof.
  intros [[Hb Hi] Hcfg] Hr Ha.
  destruct (lookup_lt_is_Some_2 (heap mem) r0) as [o Ho]; [eauto|].
  assert (Hco : q3_config_is (Q3Token.Limiter.capacity (this mem))
                  (Q3Token.Limiter.refill_rate (this mem)) o).
  { apply (Hcfg a). unfold bucket_of. now rewrite Ha. }
  rewrite (Q3TokenFacts.tbr_allow_present_run _ _ _ _ _ _ Ha Ho).
  destruct (Q3TokenThreadFacts.tt_consume_facts o w cost)
    as (_ & [_ Hr1] & ok & Hres).
  rewrite Hres. destruct ok.
  - eexists _, _, _. split; [reflexivity|]. simpl.
    split; [reflexivity|apply length_insert].
  - destruct (q3_wait_returns (state (Q3Token.consume cost o w))
                (world (Q3Token.consume cost o w)) cost) as [q Hq].
    { rewrite Hr1. destruct Hco as [_ ->]. exact Hr. }
    rewrite Hq. eexists _, _, _. split; [reflexivity|]. simpl.
    split; [reflexivity|apply length_insert].
Qed.

(** One [allow_request] on a well-formed registry: it answers, the
    registry stays well formed, the client is registered afterwards and
    nobody else is added, and one bucket object is created exactly when
    the client was new. *)
Lemma tbr_allow_registry (mem : Q3Token.Limiter.State) (w : World)
  (a : string) (cost : Q) :
  tb_registry_ok mem ->
  ~ Q3Token.Limiter.refill_rate (this mem) == 0 ->
  exists o mem' w',
    Q3Token.Limiter.allow_request a cost mem w = (Ok o, mem', w') /\
    tb_registry_ok mem' /\
    Q3Token.Limiter.capacity (this mem') =
      Q3Token.Limiter.capacity (this mem) /\
    Q3Token.Limiter.refill_rate (this mem') =
      Q3Token.Limiter.refill_rate (this mem) /\
    dom (Q3Token.Limiter.buckets (this mem')) =@{gset string}
      {[a]} ∪ dom (Q3Token.Limiter.buckets (this mem)) /\
    (length (heap mem) = size (Q3Token.Limiter.buckets (this mem)) ->
     length (heap mem') = size (Q3Token.Limiter.buckets (this mem'))).
Proof.
  intros Hok Hr. pose proof (tbr_allow_ok mem w a cost Hok) as Hok'.
  destruct (Q3Token.Limiter.buckets (this mem) !! a) as [r0|] eqn:Ha.
  - destruct (tbr_allow_present_registry mem w a cost r0 Hok Hr Ha)
      as (o & mem' & w' & E & Hthis & Hlen).
    rewrite E in *. unfold state in Hok'; simpl in Hok'.
    exists o, mem', w'. split; [reflexivity|]. split; [exact Hok'|].
    rewrite Hthis, Hlen. split; [reflexivity|]. split; [reflexivity|].
    split; [|auto].
    apply elem_of_dom_2 in Ha. symmetry. apply subseteq_union_1_L.
    now apply singleton_subseteq_l.
  - destruct (tbr_ensure_ok mem w a Hok) as (Hok1 & Hc1 & Hr1).
    rewrite (Q3TokenFacts.tbr_allow_absent _ _ _ _ Ha) in *.
    rewrite (Q3TokenFacts.tbr_ensure_absent _ _ _ Ha) in *.
    unfold state at 1 in Hok1. unfold state at 1 in Hc1.
    unfold state at 1 in Hr1. unfold state at 2 in Hok'. unfold state at 1.
    cbn [fst snd] in *.
    set (mem1 := {| heap := _; this := _ |}) in *.
    destruct (tbr_allow_present_registry mem1 (tick w) a cost
                (length (heap mem)) Hok1) as (o & mem' & w' & E & Hthis & Hlen).
    { rewrite Hr1. exact Hr. }
    { unfold mem1; simpl. apply lookup_insert_eq. }
    rewrite E in *. unfold state in Hok'; simpl in Hok'.
    exists o, mem', w'. split; [reflexivity|]. split; [exact Hok'|].
    rewrite Hthis, Hlen. unfold mem1; simpl.
    split; [reflexivity|]. split; [reflexivity|].
    split; [apply dom_insert_L|].
    intros Hsz. rewrite length_app, map_size_insert_None by exact Ha.
    simpl. lia.
Qed.

Lemma serve_registry (reqs : list (string * Q)) :
  forall (mem : Q3Token.Limiter.State) (w : World),
    tb_registry_ok mem ->
    ~ Q3Token.Limiter.refill_rate (this mem) == 0 ->
    exists outs mem' w',
      serve reqs mem w = (Ok outs, mem', w') /\
      length outs = length reqs /\
      tb_registry_ok mem' /\
      dom (Q3Token.Limiter.buckets (this mem')) =@{gset string}
        list_to_set (reqs.*1) ∪ dom (Q3Token.Limiter.buckets (this mem)) /\
      (length (heap mem) = size (Q3Token.Limiter.buckets (this mem)) ->
       length (heap mem') = size (Q3Token.Limiter.buckets (this mem'))).
Proof.
  induction reqs as [|[a cost] reqs IH]; intros mem w Hok Hr.
  - exists [], mem, w. split; [reflexivity|]. split; [reflexivity|].
    split; [exact Hok|]. split; [|auto]. simpl.
    now rewrite (left_id_L ∅ (∪)).
  - destruct (tbr_allow_registry mem w a cost Hok Hr)
      as (o & mem1 & w1 & E1 & Hok1 & _ & Hr1 & Hdom1 & Hsz1).
    destruct (IH mem1 w1 Hok1) as (outs & mem2 & w2 & E2 & Hlen & Hok2 &
                                   Hdom2 & Hsz2).
    { rewrite Hr1. exact Hr. }
    exists (o :: outs), mem2, w2.
    split; [simpl; unfold bind; rewrite E1, E2; reflexivity|].
    split; [simpl; congruence|]. split; [exact Hok2|].
    split; [|auto]. rewrite Hdom2, Hdom1. simpl.
    rewrite (assoc_L (∪)). f_equal. apply (comm_L (∪)).
Qed.

(** X12 — After any run of requests on a new token-bucket limiter of
    [Question 3] with a non-zero rate, whatever the clients, the costs and
    the clock: every request was answered, the registered clients are
    exactly the clients that sent a request, there is exactly one bucket
    object per registered client, no two clients share one, and every bucket
    has the limiter's capacity and rate. *)
Theorem q3_registry_holds_exactly_the_clients_served
  (c r : Q) (reqs : list (string * Q)) (w : World) :
  ~ r == 0 ->
  exists outs mem' w',
    serve reqs (mkMem [] (Q3Token.Limiter.__init__ c r)) w =
      (Ok outs, mem', w') /\
    length outs = length reqs /\
    dom (Q3Token.Limiter.buckets (this mem')) =@{gset string}
      list_to_set (reqs.*1) /\
    length (heap mem') = size (Q3Token.Limiter.buckets (this mem')) /\
    tb_registry_ok mem'.
Proof.
  intros Hr.
  destruct (serve_registry reqs (mkMem [] (Q3Token.Limiter.__init__ c r)) w
              (tb_registry_ok_init c r) Hr)
    as (outs & mem' & w' & E & Hlen & Hok & Hdom & Hsz).
  exists outs, mem', w'. split; [exact E|]. split; [exact Hlen|].
  split; [|split; [|exact Hok]].
  - rewrite Hdom. simpl. now rewrite dom_empty_L, (right_id_L ∅ (∪)).
  - apply Hsz. reflexivity.
Qed.

Lemma q3_registry_holds_exactly_the_clients_served_witness :
  exists outs mem' w',
    serve [("a", 1); ("b", 3); ("a", 11)]
      (mkMem [] (Q3Token.Limiter.__init__ 10 2)) (frozen 0) =
      (Ok outs, mem', w') /\
    length outs = 3%nat /\
    dom (Q3Token.Limiter.buckets (this mem')) =@{gset string}
      list_to_set ([("a", 1); ("b", 3); ("a", 11)].*1) /\
    length (heap mem') = size (Q3Token.Limiter.buckets (this mem')) /\
    tb_registry_ok mem'.
Proof.
  apply (q3_registry_holds_exactly_the_clients_served 10 2
           [("a", 1); ("b", 3); ("a", 11)] (frozen 0)).
  vm_compute; discriminate.
Defined.

(** X13 — [get_client_info] of the [Question 3] token-bucket limiter on a
    well-formed registry, for any client, registered or not, and any clock:
    it never raises and never registers or drops a client; the dictionary
    and the number of bucket objects are as before, every other client's
    bucket is untouched, the registry stays well formed, and the level it
    reports is at most the limiter's capacity. *)
Theorem q3_get_client_info_touches_one_bucket
  (mem : Q3Token.Limiter.State) (w : World) (c : string) :
  tb_registry_ok mem ->
  exists info mem' w',
    Q3Token.Limiter.get_client_info c mem w = (Ok info, mem', w') /\
    this mem' = this mem /\
    length (heap mem') = length (heap mem) /\
    Q3Token.Limiter.info_client_id info = c /\
    Q3Token.Limiter.info_capacity info =
      Q3Token.Limiter.capacity (this mem) /\
    Q3Token.Limiter.info_refill_rate info =
      Q3Token.Limiter.refill_rate (this mem) /\
    Q3Token.Limiter.info_tokens_available info <=
      Q3Token.Limiter.capacity (this mem) /\
    (forall d, d <> c ->
       bucket_of (Q3Token.Limiter.buckets (this mem')) (heap mem') d =
         bucket_of (Q3Token.Limiter.buckets (this mem)) (heap mem) d) /\
    tb_registry_ok mem'.
Proof.
  intros Hok. pose proof Hok as [[Hb Hi] Hcfg].
  unfold Q3Token.Limiter.get_client_info, bind, get.
  destruct (Q3Token.Limiter.buckets (this mem) !! c) as [r0|] eqn:Hc.
  - unfold Q3Token.Limiter.getitem, bind, get. rewrite Hc. unfold ret at 1.
    destruct (lookup_lt_is_Some_2 (heap mem) r0) as [o Ho]; [eauto|].
    rewrite (at_ref_run _ _ _ _ _ Ho).
    unfold Q3Token.get_available_tokens, bind. rewrite q3_refill_run.
    unfold get, ret, result, state, world. cbn [fst snd this heap].
    assert (Hco : q3_config_is (Q3Token.Limiter.capacity (this mem))
                    (Q3Token.Limiter.refill_rate (this mem)) o).
    { apply (Hcfg c). unfold bucket_of. now rewrite Hc. }
    destruct Hco as [Hcap Hrate].
    eexists _, _, _. split; [reflexivity|]. cbn.
    split; [reflexivity|]. split; [apply length_insert|].
    do 3 (split; [reflexivity|]).
    split; [rewrite <- Hcap; apply py_min_le_l|].
    split.
    + intros d Hd. apply (bucket_of_update _ _ c d r0); [split|..]; auto.
    + split; [now apply refs_wf_update|]. simpl.
      intros d b. destruct (decide (c = d)) as [<-|Hne].
      * rewrite (bucket_of_update_same _ _ c r0) by eauto.
        intros [= <-]. split; assumption.
      * rewrite (bucket_of_update _ _ c d r0) by (try split; auto).
        apply Hcfg.
  - exists (Q3Token.Limiter.mkInfo c (Q3Token.Limiter.capacity (this mem))
              (Q3Token.Limiter.capacity (this mem))
              (Q3Token.Limiter.refill_rate (this mem))), mem, w.
    split; [reflexivity|]. do 5 (split; [reflexivity|]).
    split; [apply Qle_refl|]. split; [reflexivity|exact Hok].
Qed.

Lemma q3_get_client_info_touches_one_bucket_witness :
  exists info mem' w',
    Q3Token.Limiter.get_client_info "bob" token_registry_with_bob (frozen 8) =
      (Ok info, mem', w') /\
    this mem' = this token_registry_with_bob /\
    length (heap mem') = length (heap token_registry_with_bob) /\
    Q3Token.Limiter.info_client_id info = "bob" /\
    Q3Token.Limiter.info_capacity info =
      Q3Token.Limiter.capacity (this token_registry_with_bob) /\
    Q3Token.Limiter.info_refill_rate info =
      Q3Token.Limiter.refill_rate (this token_registry_with_bob) /\
    Q3Token.Limiter.info_tokens_available info <=
      Q3Token.Limiter.capacity (this token_registry_with_bob) /\
    (forall d, d <> "bob" ->
       bucket_of (Q3Token.Limiter.buckets (this mem')) (heap mem') d =
         bucket_of (Q3Token.Limiter.buckets (this token_registry_with_bob))
           (heap token_registry_with_bob) d) /\
    tb_registry_ok mem'.
Proof.
  apply (q3_get_client_info_touches_one_bucket token_registry_with_bob
           (frozen 8) "bob").
  split.
  - apply (refs_wf_register ∅ [] "bob" bob_token_bucket);
      [apply lookup_empty|apply refs_wf_empty].
  - intros c b. unfold bucket_of, token_registry_with_bob; simpl.
    destruct (decide ("bob" = c)) as [<-|Hne].
    + rewrite lookup_insert_eq. simpl. intros [= <-]. split; reflexivity.
    + rewrite lookup_insert_ne, lookup_empty by done. discriminate.
Defined.

(** ** The limiters of [API Project] *)

Lemma py_int_nonpos_iff (x : Q) : (py_int x <= 0)%Z <-> x < 1.
Proof.
  split.
  - intros H. destruct (Qlt_le_dec x 1) as [Hlt|Hge]; [exact Hlt|].
    pose proof (py_int_ge 1 x ltac:(lia) Hge). lia.
  - unfold py_int, Qlt; simpl. intros H.
    destruct (Z.lt_ge_cases (Qnum x) 0) as [Hneg|Hnn].
    + pose proof (Z.quot_opp_l (- Qnum x) (Zpos (Qden x))) as Ho.
      rewrite Z.opp_involutive in Ho.
      pose proof (Z.quot_pos (- Qnum x) (Zpos (Qden x))).
      lia.
    + rewrite Z.quot_small; lia.
Qed.

Lemma Qleb_inject_Z_nonpos (k : Z) : Qleb (inject_Z k) 0 = (k <=? 0)%Z.
Proof.
  destruct (k <=? 0)%Z eqn:E.
  - apply Qleb_le. apply Z.leb_le in E. now rewrite Zle_Qle in E.
  - apply Qleb_gt. apply Z.leb_gt in E. now rewrite Zlt_Qlt in E.
Qed.

(** X14 — The limiters of [API Project] built without an explicit size.  The
    token-bucket limiter takes [int(requests_per_second)] as its burst: for
    every rate below [1] the constructor raises [ValueError] about the
    capacity, and from [1] on it builds a full bucket whose capacity is the
    rate rounded down.  The leaky-bucket limiter takes
    [int(requests_per_second * 2)]: it raises for every rate below [1/2] and
    otherwise builds an empty queue of that size. *)
Theorem ap_limiters_default_size {S} (requests_per_second : Q) (s : S)
  (w : World) :
  ApToken.Limiter.__init__ requests_per_second None s w =
    (if Qltb requests_per_second 1
     then (Raise (ValueError "Capacity must be greater than 0"), s, w)
     else (Ok (ApToken.Limiter.mkLimiter
                 (ApToken.mkTokenBucket
                    (inject_Z (py_int requests_per_second))
                    requests_per_second
                    (inject_Z (py_int requests_per_second))
                    (clock w (reads w)))),
           s, tick w)) /\
  ApLeakyLimiter.__init__ requests_per_second None s w =
    (if Qltb requests_per_second (1 # 2)
     then (Raise (ValueError "Capacity must be greater than 0"), s, w)
     else (Ok (ApLeakyLimiter.mkLimiter
                 (ApLeaky.mkLeakyBucket
                    (py_int (requests_per_second * 2))
                    requests_per_second []
                    (clock w (reads w)))),
           s, tick w)).
Proof.
  split.
  - unfold ApToken.Limiter.__init__, ApToken.__init__, bind.
    rewrite Qleb_inject_Z_nonpos.
    destruct (Qltb requests_per_second 1) eqn:E.
    + apply Qltb_lt, py_int_nonpos_iff, Z.leb_le in E. now rewrite E.
    + apply Qltb_ge in E.
      assert (E1 : (py_int requests_per_second <=? 0)%Z = false).
      { apply Z.leb_gt. pose proof (py_int_ge 1 _ ltac:(lia) E). lia. }
      assert (E2 : Qleb requests_per_second 0 = false)
        by (apply Qleb_gt; lra).
      now rewrite E1, E2.
  - unfold ApLeakyLimiter.__init__, ApLeaky.__init__, bind.
    destruct (Qltb requests_per_second (1 # 2)) eqn:E.
    + apply Qltb_lt in E.
      assert (E1 : (py_int (requests_per_second * 2) <=? 0)%Z = true).
      { apply Z.leb_le, py_int_nonpos_iff. lra. }
      now rewrite E1.
    + apply Qltb_ge in E.
      assert (E1 : (py_int (requests_per_second * 2) <=? 0)%Z = false).
      { apply Z.leb_gt.
        assert (H : 1 <= requests_per_second * 2) by lra.
        apply (py_int_ge 1 _ ltac:(lia)) in H. lia. }
      assert (E2 : Qleb requests_per_second 0 = false)
        by (apply Qleb_gt; lra).
      rewrite E1, E2. unfold time_time, on_new, for_range.
      replace (Z.to_nat (Z.min 0 (py_int (requests_per_second * 2))))
        with 0%nat by lia.
      reflexivity.
Qed.

(** [k] appends in a row to a queue with room for them: each one reads
    the clock once and drops nothing. *)
Lemma ap_append_loop (k : nat) :
  forall (b : ApLeaky.LeakyBucket) (w : World),
    (len (ApLeaky.queue b) + Z.of_nat k <= ApLeaky.capacity b)%Z ->
    repeat_ k ApLeaky.append_now b w =
      (Ok tt,
       ApLeaky.set_queue
         (ApLeaky.queue b ++ map (clock w) (seq (reads w) k)) b,
       ticks k w).
Proof.
  induction k as [|k IH]; intros b w Hroom.
  - simpl. unfold ret, ticks. rewrite app_nil_r.
    destruct b, w; reflexivity.
  - simpl. unfold bind at 1.
    unfold ApLeaky.append_now, bind, time_time, get, put.
    unfold ApLeaky.deque_append.
    assert (E : (ApLeaky.capacity b <?
                 len (ApLeaky.queue b ++ [clock w (reads w)]))%Z = false).
    { apply Z.ltb_ge. rewrite RlLeakyFacts.len_snoc. lia. }
    rewrite E. rewrite IH.
    + unfold ApLeaky.set_queue; simpl. rewrite <- app_assoc. simpl.
      unfold ticks, tick; simpl. repeat f_equal. lia.
    + unfold ApLeaky.set_queue; simpl. rewrite RlLeakyFacts.len_snoc. lia.
Qed.

(** X15 — The constructor of the [API Project] leaky bucket with a
    pre-filled queue: for a positive capacity and rate it never raises; the
    queue holds [min(initial_size, capacity)] entries, none when that is
    negative, so never more than the capacity; the entries are the clock
    readings that follow the one taken for [last_leak], in order. *)
Theorem ap_leaky_init_prefills_up_to_capacity {S}
  (capacity : Z) (leak_rate : Q) (initial_size : Z) (s : S) (w : World) :
  (0 < capacity)%Z -> 0 < leak_rate ->
  let k := Z.to_nat (Z.min initial_size capacity) in
  exists b,
    ApLeaky.__init__ capacity leak_rate initial_size s w =
      (Ok b, s, ticks (Datatypes.S k) w) /\
    ApLeaky.capacity b = capacity /\
    ApLeaky.leak_rate b = leak_rate /\
    ApLeaky.last_leak b = clock w (reads w) /\
    ApLeaky.queue b = map (clock w) (seq (Datatypes.S (reads w)) k) /\
    len (ApLeaky.queue b) = Z.max 0 (Z.min initial_size capacity) /\
    (len (ApLeaky.queue b) <= capacity)%Z.
Proof.
  intros Hc Hr k.
  unfold ApLeaky.__init__, bind, time_time, on_new, for_range.
  apply Z.leb_gt in Hc. apply Qleb_gt in Hr. rewrite Hc, Hr.
  apply Z.leb_gt in Hc. fold k.
  rewrite ap_append_loop by (simpl; unfold len, k; simpl; lia).
  eexists. split.
  - unfold ticks, tick; simpl. repeat f_equal. lia.
  - simpl. repeat (split; [reflexivity|]).
    unfold len. rewrite length_map, length_seq. unfold k. lia.
Qed.

Lemma ap_leaky_init_prefills_up_to_capacity_witness :
  let k := Z.to_nat (Z.min 5 3) in
  exists b,
    ApLeaky.__init__ 3 2 5 tt (frozen 0) =
      (Ok b, tt, ticks (Datatypes.S k) (frozen 0)) /\
    ApLeaky.capacity b = 3%Z /\
    ApLeaky.leak_rate b = 2 /\
    ApLeaky.last_leak b = clock (frozen 0) (reads (frozen 0)) /\
    ApLeaky.queue b =
      map (clock (frozen 0)) (seq (Datatypes.S (reads (frozen 0))) k) /\
    len (ApLeaky.queue b) = Z.max 0 (Z.min 5 3) /\
    (len (ApLeaky.queue b) <= 3)%Z.
Proof.
  apply (ap_leaky_init_prefills_up_to_capacity 3 2 5 tt (frozen 0));
    reflexivity.
Defined.

Lemma ap_refill_run (b : ApToken.TokenBucket) (w : World) :
  ApToken._refill_tokens b w =
    (Ok tt,
     if Qltb 0 ((clock w (reads w) - ApToken.last_refill b) *
                ApToken.refill_rate b)
     then {| ApToken.capacity := ApToken.capacity b;
             ApToken.refill_rate := ApToken.refill_rate b;
             ApToken.tokens :=
               py_min (ApToken.capacity b)
                 (ApToken.tokens b +
                  (clock w (reads w) - ApToken.last_refill b) *
                  ApToken.refill_rate b);
             ApToken.last_refill := clock w (reads w) |}
     else b,
     tick w).
Proof.
  unfold ApToken._refill_tokens, bind, time_time, get, put, ret.
  destruct (Qltb 0 _); reflexivity.
Qed.

(** X16 — [initial_tokens] of the [API Project] token bucket is not held to
    the capacity.  A bucket built with more tokens than its capacity lets a
    request through whose cost is above the capacity, but only while the
    clock has not moved past the reading taken at construction: the first
    refill that adds anything cuts the level down to the capacity.  So
    [consume] right after construction succeeds exactly when the clock has
    not advanced. *)
Theorem ap_token_initial_tokens_above_capacity
  (capacity refill_rate initial_tokens cost : Q) (w : World) :
  0 < capacity -> 0 < refill_rate ->
  capacity < cost -> cost <= initial_tokens ->
  exists b,
    ApToken.__init__ capacity refill_rate (Some initial_tokens) tt w =
      (Ok b, tt, tick w) /\
    ApToken.tokens b = initial_tokens /\
    result (ApToken.consume cost b (tick w)) =
      Ok (Qleb (clock w (S (reads w))) (clock w (reads w))).
Proof.
  intros Hc Hr Hover Hinit.
  unfold ApToken.__init__, bind, time_time.
  apply Qleb_gt in Hc. rewrite Hc. apply Qleb_gt in Hc.
  assert (Er : Qleb refill_rate 0 = false) by now apply Qleb_gt.
  rewrite Er. eexists. split; [reflexivity|]. split; [reflexivity|].
  unfold ApToken.consume. unfold bind at 1. rewrite ap_refill_run.
  cbn [ApToken.capacity ApToken.refill_rate ApToken.tokens
       ApToken.last_refill tick clock reads].
  set (t0 := clock w (reads w)). set (t1 := clock w (S (reads w))).
  clearbody t0 t1. unfold bind, get.
  destruct (Qltb 0 ((t1 - t0) * refill_rate)) eqn:Ea.
  - apply Qltb_lt in Ea.
    assert (E1 : Qleb t1 t0 = false) by (apply Qleb_gt; nra).
    cbn [ApToken.tokens].
    assert (E2 : Qleb cost
                   (py_min capacity
                      (initial_tokens + (t1 - t0) * refill_rate)) = false).
    { apply Qleb_gt. eapply Qle_lt_trans; [apply py_min_le_l|exact Hover]. }
    now rewrite E1, E2.
  - apply Qltb_ge in Ea.
    assert (E1 : Qleb t1 t0 = true) by (apply Qleb_le; nra).
    cbn [ApToken.tokens].
    assert (E2 : Qleb cost initial_tokens = true) by now apply Qleb_le.
    now rewrite E1, E2.
Qed.

Lemma ap_token_initial_tokens_above_capacity_witness :
  exists b,
    ApToken.__init__ 5 2 (Some 100) tt (frozen 0) =
      (Ok b, tt, tick (frozen 0)) /\
    ApToken.tokens b = 100 /\
    result (ApToken.consume 50 b (tick (frozen 0))) =
      Ok (Qleb (clock (frozen 0) (S (reads (frozen 0))))
            (clock (frozen 0) (reads (frozen 0)))).
Proof.
  apply (ap_token_initial_tokens_above_capacity 5 2 100 50 (frozen 0));
    try reflexivity.
  vm_compute; discriminate.
Defined.

(** X17 — [get_status] of the [API Project] token-bucket limiter, for a
    bucket that can hold a token and has a positive rate, under any clock:
    it never raises, it reports the bucket's own capacity and rate, the wait
    is never negative, and whenever it reports at least one available token
    it reports no wait. *)
Theorem ap_token_get_status_consistent
  (l : ApToken.Limiter.TokenBucketRateLimiter) (w : World) :
  1 <= ApToken.capacity (ApToken.Limiter.bucket l) ->
  0 < ApToken.refill_rate (ApToken.Limiter.bucket l) ->
  exists st l',
    ApToken.Limiter.get_status l w = (Ok st, l', tick (tick w)) /\
    ApToken.Limiter.status_capacity st =
      ApToken.capacity (ApToken.Limiter.bucket l) /\
    ApToken.Limiter.status_refill_rate st =
      ApToken.refill_rate (ApToken.Limiter.bucket l) /\
    0 <= ApToken.Limiter.wait_time_seconds st /\
    (1 <= ApToken.Limiter.available_tokens st ->
     ApToken.Limiter.wait_time_seconds st = 0).
Proof.
  destruct l as [b]. cbn [ApToken.Limiter.bucket]. intros Hc Hr.
  unfold ApToken.Limiter.get_status, ApToken.Limiter.in_bucket, zoom.
  unfold bind at 1. cbn [ApToken.Limiter.bucket].
  unfold ApToken.get_available_tokens. unfold bind at 1.
  rewrite ap_refill_run. unfold bind at 1. unfold get at 1. unfold ret at 1.
  set (b1 := if Qltb 0 _ then _ else b).
  assert (H1 : ApToken.capacity b1 = ApToken.capacity b /\
               ApToken.refill_rate b1 = ApToken.refill_rate b).
  { unfold b1. now destruct (Qltb 0 _). }
  clearbody b1. destruct H1 as [Hc1 Hr1].
  unfold bind at 1. cbn [ApToken.Limiter.bucket].
  unfold ApToken.get_wait_time. unfold bind at 1.
  rewrite ap_refill_run. unfold bind at 1. unfold get at 1.
  set (add := (clock (tick w) (reads (tick w)) - ApToken.last_refill b1) *
              ApToken.refill_rate b1).
  set (b2 := if Qltb 0 add then _ else b1).
  assert (H2 : ApToken.capacity b2 = ApToken.capacity b /\
               ApToken.refill_rate b2 = ApToken.refill_rate b /\
               (1 <= ApToken.tokens b1 -> 1 <= ApToken.tokens b2)).
  { unfold b2. destruct (Qltb 0 add) eqn:Ea; simpl.
    - split; [exact Hc1|]. split; [exact Hr1|]. intros Hlvl.
      apply Qltb_lt in Ea. fold add.
      apply py_min_glb; [rewrite Hc1; exact Hc|lra].
    - auto. }
  clearbody b2. destruct H2 as (Hc2 & Hr2 & Hmono).
  destruct (Qleb 1 (ApToken.tokens b2)) eqn:E.
  - unfold ret at 1. unfold bind, get, ret. cbn [ApToken.Limiter.bucket].
    eexists _, _. split; [reflexivity|]. simpl.
    split; [exact Hc2|]. split; [exact Hr2|]. split; [lra|reflexivity].
  - rewrite py_div_run by (rewrite Hr2; lra).
    unfold bind, get, ret. cbn [ApToken.Limiter.bucket].
    eexists _, _. split; [reflexivity|]. simpl.
    split; [exact Hc2|]. split; [exact Hr2|].
    apply Qleb_gt in E. split.
    + apply Qle_shift_div_l; [rewrite Hr2; exact Hr|]. lra.
    + intros Hav. apply Hmono in Hav. lra.
Qed.

Lemma ap_token_get_status_consistent_witness :
  exists st l',
    ApToken.Limiter.get_status
      (ApToken.Limiter.mkLimiter (ApToken.mkTokenBucket 10 5 10 0))
      (frozen 0) = (Ok st, l', tick (tick (frozen 0))) /\
    ApToken.Limiter.status_capacity st = 10 /\
    ApToken.Limiter.status_refill_rate st = 5 /\
    0 <= ApToken.Limiter.wait_time_seconds st /\
    (1 <= ApToken.Limiter.available_tokens st ->
     ApToken.Limiter.wait_time_seconds st = 0).
Proof.
  apply (ap_token_get_status_consistent
           (ApToken.Limiter.mkLimiter (ApToken.mkTokenBucket 10 5 10 0))
           (frozen 0)).
  - vm_compute; discriminate.
  - reflexivity.
Defined.

Lemma ap_leak_shrinks (b : ApLeaky.LeakyBucket) (w : World) :
  let b1 := state (ApLeaky._leak_requests b w) in
  ApLeaky._leak_requests b w = (Ok tt, b1, tick w) /\
  ApLeaky.capacity b1 = ApLeaky.capacity b /\
  ApLeaky.leak_rate b1 = ApLeaky.leak_rate b /\
  (len (ApLeaky.queue b1) <= len (ApLeaky.queue b))%Z.
Proof.
  rewrite ap_leak_run. unfold state; simpl.
  destruct (0 <? _)%Z; simpl.
  - do 3 (split; [reflexivity|]). rewrite len_skipn_to_nat. lia.
  - do 3 (split; [reflexivity|]). lia.
Qed.

(** X18 — [get_status] of the [API Project] leaky-bucket limiter, for a
    queue within the capacity and a positive rate, under any clock: it never
    raises; the reported queue size and available space add up to the
    capacity and neither is negative; the wait is never negative and is zero
    whenever space is reported; and an empty queue is reported with an
    oldest-request age of zero. *)
Theorem ap_leaky_get_status_consistent
  (l : ApLeakyLimiter.LeakyBucketRateLimiter) (w : World) :
  (len (ApLeaky.queue (ApLeakyLimiter.bucket l)) <=
   ApLeaky.capacity (ApLeakyLimiter.bucket l))%Z ->
  0 < ApLeaky.leak_rate (ApLeakyLimiter.bucket l) ->
  exists st l' w',
    ApLeakyLimiter.get_status l w = (Ok st, l', w') /\
    ApLeakyLimiter.status_capacity st =
      ApLeaky.capacity (ApLeakyLimiter.bucket l) /\
    (ApLeakyLimiter.queue_size st + ApLeakyLimiter.available_space st =
     ApLeakyLimiter.status_capacity st)%Z /\
    (0 <= ApLeakyLimiter.queue_size st)%Z /\
    (0 <= ApLeakyLimiter.available_space st)%Z /\
    0 <= ApLeakyLimiter.wait_time_seconds st /\
    ((0 < ApLeakyLimiter.available_space st)%Z ->
     ApLeakyLimiter.wait_time_seconds st = 0) /\
    (ApLeakyLimiter.queue_size st = 0%Z ->
     ApLeakyLimiter.oldest_request_age_seconds st = 0).
Proof.
  destruct l as [b]. cbn [ApLeakyLimiter.bucket]. intros Hlen Hr.
  destruct (ap_leak_shrinks b w) as (E1 & Hc1 & Hr1 & Hle1).
  set (b1 := state (ApLeaky._leak_requests b w)) in *. clearbody b1.
  destruct (ap_leak_shrinks b1 (tick w)) as (E2 & Hc2 & Hr2 & Hle2).
  set (b2 := state (ApLeaky._leak_requests b1 (tick w))) in *. clearbody b2.
  pose proof (RlLeakyFacts.len_nonneg (ApLeaky.queue b1)) as Hnn1.
  pose proof (RlLeakyFacts.len_nonneg (ApLeaky.queue b2)) as Hnn2.
  assert (Hwait : exists q,
             ApLeaky.get_wait_time b1 (tick w) = (Ok q, b2, tick (tick w)) /\
             0 <= q /\
             ((len (ApLeaky.queue b2) < ApLeaky.capacity b)%Z -> q = 0)).
  { unfold ApLeaky.get_wait_time. unfold bind at 1. rewrite E2.
    unfold bind at 1. unfold get at 1. rewrite Hc2, Hc1.
    destruct (len (ApLeaky.queue b2) <? ApLeaky.capacity b)%Z eqn:Ef.
    - exists 0. split; [reflexivity|]. split; [lra|reflexivity].
    - apply Z.ltb_ge in Ef. destruct (ApLeaky.queue b2) as [|x rest] eqn:Eq.
      + exists 0. split; [reflexivity|]. split; [lra|reflexivity].
      + unfold bind. rewrite py_div_run by (rewrite Hr2, Hr1; lra).
        eexists. split; [reflexivity|]. split; [apply py_max_ge_l|lia]. }
  destruct Hwait as (q & Ew & Hq0 & Hqz).
  assert (Hage : exists a w',
             ApLeakyLimiter.get_oldest_request_age b2 (tick (tick w)) =
               (Ok a, b2, w') /\
             (len (ApLeaky.queue b2) = 0%Z -> a = 0)).
  { unfold ApLeakyLimiter.get_oldest_request_age, bind, get.
    destruct (ApLeaky.queue b2) as [|x rest].
    - exists 0, (tick (tick w)). split; [reflexivity|reflexivity].
    - eexists _, _. split; [reflexivity|].
      rewrite RlLeakyFacts.len_cons.
      pose proof (RlLeakyFacts.len_nonneg rest). lia. }
  destruct Hage as (a & w' & Ea & Haz).
  unfold ApLeakyLimiter.get_status, ApLeakyLimiter.in_bucket, zoom.
  unfold bind at 1. cbn [ApLeakyLimiter.bucket].
  unfold ApLeaky.get_queue_size. unfold bind at 1. rewrite E1.
  unfold bind at 1. unfold get at 1. unfold ret at 1.
  unfold bind at 1. cbn [ApLeakyLimiter.bucket]. rewrite Ew.
  unfold bind at 1. cbn [ApLeakyLimiter.bucket]. rewrite Ea.
  unfold bind, get, ret. cbn [ApLeakyLimiter.bucket].
  eexists _, _, _. split; [reflexivity|]. simpl.
  split; [now rewrite Hc2, Hc1|]. split; [lia|]. split; [lia|].
  split; [rewrite Hc2, Hc1; lia|]. split; [exact Hq0|]. split.
  - intros Hsp. apply Hqz. rewrite Hc2, Hc1 in Hsp. lia.
  - intros Hz. apply Haz. lia.
Qed.

Lemma ap_leaky_get_status_consistent_witness :
  exists st l' w',
    ApLeakyLimiter.get_status
      (ApLeakyLimiter.mkLimiter (ApLeaky.mkLeakyBucket 10 5 [0; 0] 0))
      (frozen 0) = (Ok st, l', w') /\
    ApLeakyLimiter.status_capacity st = 10%Z /\
    (ApLeakyLimiter.queue_size st + ApLeakyLimiter.available_space st =
     ApLeakyLimiter.status_capacity st)%Z /\
    (0 <= ApLeakyLimiter.queue_size st)%Z /\
    (0 <= ApLeakyLimiter.available_space st)%Z /\
    0 <= ApLeakyLimiter.wait_time_seconds st /\
    ((0 < ApLeakyLimiter.available_space st)%Z ->
     ApLeakyLimiter.wait_time_seconds st = 0) /\
    (ApLeakyLimiter.queue_size st = 0%Z ->
     ApLeakyLimiter.oldest_request_age_seconds st = 0).
Proof.
  apply (ap_leaky_get_status_consistent
           (ApLeakyLimiter.mkLimiter (ApLeaky.mkLeakyBucket 10 5 [0; 0] 0))
           (frozen 0)).
  - vm_compute; discriminate.
  - reflexivity.
Defined.

(** X19 — [add_request] of the [API Project] leaky bucket never evicts: it
    never raises, and although the queue is a [deque] with [maxlen], an
    admitted request is appended below the capacity, so the queue after the
    call is the leaked queue with the admission time at its end, and a
    refused request leaves the leaked queue as it is. *)
Theorem ap_add_request_never_evicts (b : ApLeaky.LeakyBucket) (w : World) :
  let b1 := state (ApLeaky._leak_requests b w) in
  exists ok b' w',
    ApLeaky.add_request b w = (Ok ok, b', w') /\
    if ok
    then ApLeaky.queue b' = ApLeaky.queue b1 ++ [clock w (S (reads w))] /\
         (len (ApLeaky.queue b') <= ApLeaky.capacity b)%Z
    else b' = b1 /\ (ApLeaky.capacity b <= len (ApLeaky.queue b1))%Z.
Proof.
  intros b1. destruct (ap_leak_shrinks b w) as (E1 & Hc1 & _).
  fold b1 in E1, Hc1. clearbody b1.
  unfold ApLeaky.add_request. unfold bind at 1. rewrite E1.
  unfold bind at 1. unfold get at 1. rewrite Hc1.
  destruct (len (ApLeaky.queue b1) <? ApLeaky.capacity b)%Z eqn:E.
  - apply Z.ltb_lt in E. exists true.
    unfold bind, ApLeaky.append_now, bind, time_time, get, put, ret.
    unfold ApLeaky.deque_append. rewrite Hc1.
    assert (Ef : (ApLeaky.capacity b <?
                  len (ApLeaky.queue b1 ++ [clock (tick w) (reads (tick w))]))%Z
                 = false).
    { apply Z.ltb_ge. rewrite RlLeakyFacts.len_snoc. lia. }
    rewrite Ef. eexists _, _. split; [reflexivity|]. simpl.
    split; [reflexivity|]. rewrite RlLeakyFacts.len_snoc. lia.
  - apply Z.ltb_ge in E. exists false, b1, (tick w).
    split; [reflexivity|]. split; [reflexivity|exact E].
Qed.



(** ** A burst on the limiters of [API Project] *)

Lemma ap_consume_standing (b : ApToken.TokenBucket) (w : World) (t : Q) :
  standing t w -> ApToken.last_refill b = t ->
  ApToken.consume 1 b w =
    if Qleb 1 (ApToken.tokens b)
    then (Ok true, ApToken.set_tokens (ApToken.tokens b - 1) b, tick w)
    else (Ok false, b, tick w).
Proof.
  intros Hw Hl. unfold ApToken.consume. unfold bind at 1.
  rewrite ap_refill_run. rewrite (Hw (reads w)), Hl.
  assert (E : Qltb 0 ((t - t) * ApToken.refill_rate b) = false)
    by (apply Qltb_ge; nra).
  rewrite E. unfold bind, get. now destruct (Qleb 1 _).
Qed.

Lemma ap_token_allow_standing (l : ApToken.Limiter.TokenBucketRateLimiter)
  (w : World) (t : Q) :
  standing t w -> ApToken.last_refill (ApToken.Limiter.bucket l) = t ->
  ApToken.Limiter.allow_request l w =
    if Qleb 1 (ApToken.tokens (ApToken.Limiter.bucket l))
    then (Ok true,
          ApToken.Limiter.mkLimiter
            (ApToken.set_tokens
               (ApToken.tokens (ApToken.Limiter.bucket l) - 1)
               (ApToken.Limiter.bucket l)),
          tick w)
    else (Ok false, l, tick w).
Proof.
  intros Hw Hl. destruct l as [b]. cbn [ApToken.Limiter.bucket] in *.
  unfold ApToken.Limiter.allow_request, ApToken.Limiter.in_bucket, zoom.
  cbn [ApToken.Limiter.bucket]. rewrite (ap_consume_standing b w t Hw Hl).
  now destruct (Qleb 1 _).
Qed.

Lemma ap_token_calls_standing (t : Q) (n : nat) :
  forall (l : ApToken.Limiter.TokenBucketRateLimiter) (w : World) (k : nat),
    standing t w ->
    ApToken.last_refill (ApToken.Limiter.bucket l) = t ->
    ApToken.tokens (ApToken.Limiter.bucket l) == inject_Z (Z.of_nat k) ->
    result (calls n ApToken.Limiter.allow_request l w) =
      Ok (replicate (Nat.min n k) true ++ replicate (n - k) false).
Proof.
  induction n as [|n IH]; intros [b] w k Hw Hl Hk; [reflexivity|].
  cbn [ApToken.Limiter.bucket] in *. cbn [calls]. unfold bind at 1.
  rewrite (ap_token_allow_standing (ApToken.Limiter.mkLimiter b) w t Hw Hl).
  cbn [ApToken.Limiter.bucket].
  destruct k as [|k].
  - assert (E : Qleb 1 (ApToken.tokens b) = false).
    { apply Qleb_gt. rewrite Hk. reflexivity. }
    rewrite E. unfold bind at 1.
    specialize (IH (ApToken.Limiter.mkLimiter b) (tick w) 0%nat
                  (standing_tick t w Hw) Hl Hk).
    unfold result in *.
    destruct (calls n ApToken.Limiter.allow_request _ (tick w))
      as [[[outs|e] l'] w']; simpl in IH; [|discriminate].
    injection IH as ->. unfold ret; simpl.
    rewrite Nat.min_0_r, Nat.sub_0_r. reflexivity.
  - assert (E : Qleb 1 (ApToken.tokens b) = true).
    { apply Qleb_le. rewrite Hk. change 1 with (inject_Z 1).
      rewrite <- Zle_Qle. lia. }
    rewrite E. unfold bind at 1.
    assert (Hk' : ApToken.tokens b - 1 == inject_Z (Z.of_nat k)).
    { rewrite Hk, Nat2Z.inj_succ. unfold Z.succ. rewrite inject_Z_plus.
      change (inject_Z 1) with 1. ring. }
    specialize (IH (ApToken.Limiter.mkLimiter
                      (ApToken.set_tokens (ApToken.tokens b - 1) b))
                  (tick w) k (standing_tick t w Hw) Hl Hk').
    unfold result in *.
    destruct (calls n ApToken.Limiter.allow_request _ (tick w))
      as [[[outs|e] l'] w']; simpl in IH; [|discriminate].
    injection IH as ->. reflexivity.
Qed.

Lemma ap_add_request_standing (b : ApLeaky.LeakyBucket) (w : World) (t : Q) :
  standing t w -> ApLeaky.last_leak b = t ->
  ApLeaky.add_request b w =
    if (len (ApLeaky.queue b) <? ApLeaky.capacity b)%Z
    then (Ok true, ApLeaky.set_queue (ApLeaky.queue b ++ [t]) b,
          tick (tick w))
    else (Ok false, b, tick w).
Proof.
  intros Hw Hl. unfold ApLeaky.add_request. unfold bind at 1.
  rewrite ap_leak_run. rewrite (Hw (reads w)), Hl.
  rewrite Q3LeakyThreadFacts.py_int_zero by ring. cbn [Z.ltb Z.compare].
  unfold bind at 1. unfold get at 1.
  destruct (len (ApLeaky.queue b) <? ApLeaky.capacity b)%Z eqn:E;
    [|reflexivity].
  unfold bind, ApLeaky.append_now, bind, time_time, get, put, ret.
  unfold ApLeaky.deque_append. cbn [tick clock reads].
  rewrite (Hw (S (reads w))).
  assert (Ef : (ApLeaky.capacity b <? len (ApLeaky.queue b ++ [t]))%Z = false).
  { apply Z.ltb_ge. apply Z.ltb_lt in E. rewrite RlLeakyFacts.len_snoc. lia. }
  now rewrite Ef.
Qed.

Lemma ap_leaky_allow_standing (l : ApLeakyLimiter.LeakyBucketRateLimiter)
  (w : World) (t : Q) :
  standing t w -> ApLeaky.last_leak (ApLeakyLimiter.bucket l) = t ->
  ApLeakyLimiter.allow_request l w =
    if (len (ApLeaky.queue (ApLeakyLimiter.bucket l)) <?
        ApLeaky.capacity (ApLeakyLimiter.bucket l))%Z
    then (Ok true,
          ApLeakyLimiter.mkLimiter
            (ApLeaky.set_queue
               (ApLeaky.queue (ApLeakyLimiter.bucket l) ++ [t])
               (ApLeakyLimiter.bucket l)),
          tick (tick w))
    else (Ok false, l, tick w).
Proof.
  intros Hw Hl. destruct l as [b]. cbn [ApLeakyLimiter.bucket] in *.
  unfold ApLeakyLimiter.allow_request, ApLeakyLimiter.in_bucket, zoom.
  cbn [ApLeakyLimiter.bucket]. rewrite (ap_add_request_standing b w t Hw Hl).
  now destruct (_ <? _)%Z.
Qed.

Lemma ap_leaky_calls_standing (t : Q) (n : nat) :
  forall (l : ApLeakyLimiter.LeakyBucketRateLimiter) (w : World) (k : nat),
    standing t w ->
    ApLeaky.last_leak (ApLeakyLimiter.bucket l) = t ->
    (ApLeaky.capacity (ApLeakyLimiter.bucket l) -
     len (ApLeaky.queue (ApLeakyLimiter.bucket l)) = Z.of_nat k)%Z ->
    result (calls n ApLeakyLimiter.allow_request l w) =
      Ok (replicate (Nat.min n k) true ++ replicate (n - k) false).
Proof.
  induction n as [|n IH]; intros [b] w k Hw Hl Hk; [reflexivity|].
  cbn [ApLeakyLimiter.bucket] in *. cbn [calls]. unfold bind at 1.
  rewrite (ap_leaky_allow_standing (ApLeakyLimiter.mkLimiter b) w t Hw Hl).
  cbn [ApLeakyLimiter.bucket].
  destruct k as [|k].
  - assert (E : (len (ApLeaky.queue b) <? ApLeaky.capacity b)%Z = false)
      by (apply Z.ltb_ge; lia).
    rewrite E. unfold bind at 1.
    specialize (IH (ApLeakyLimiter.mkLimiter b) (tick w) 0%nat
                  (standing_tick t w Hw) Hl Hk).
    unfold result in *.
    destruct (calls n ApLeakyLimiter.allow_request _ (tick w))
      as [[[outs|e] l'] w']; simpl in IH; [|discriminate].
    injection IH as ->. unfold ret; simpl.
    rewrite Nat.min_0_r, Nat.sub_0_r. reflexivity.
  - assert (E : (len (ApLeaky.queue b) <? ApLeaky.capacity b)%Z = true)
      by (apply Z.ltb_lt; lia).
    rewrite E. unfold bind at 1.
    specialize (IH (ApLeakyLimiter.mkLimiter
                      (ApLeaky.set_queue (ApLeaky.queue b ++ [t]) b))
                  (tick (tick w)) k
                  (standing_tick t _ (standing_tick t w Hw)) Hl).
    unfold result in *.
    assert (Hk' : (ApLeaky.capacity b - len (ApLeaky.queue b ++ [t]) =
                   Z.of_nat k)%Z)
      by (rewrite RlLeakyFacts.len_snoc; lia).
    specialize (IH Hk').
    destruct (calls n ApLeakyLimiter.allow_request _ (tick (tick w)))
      as [[[outs|e] l'] w']; simpl in IH; [|discriminate].
    injection IH as ->. reflexivity.
Qed.

(** X21 — A burst on the limiters of [API Project]: while the clock stands
    still, a new token-bucket limiter with burst size [size] and a new
    leaky-bucket limiter with bucket size [size] allow exactly the first
    [size] of any [n] requests in a row and refuse all the others, without
    raising. *)
Theorem ap_limiters_allow_exactly_their_size_in_a_burst
  (requests_per_second t : Q) (size : Z) (n : nat) :
  0 < requests_per_second -> (0 < size)%Z ->
  let answers := replicate (Nat.min n (Z.to_nat size)) true ++
                 replicate (n - Z.to_nat size) false in
  (exists l,
     ApToken.Limiter.__init__ requests_per_second (Some size) tt (frozen t) =
       (Ok l, tt, tick (frozen t)) /\
     result (calls n ApToken.Limiter.allow_request l (tick (frozen t))) =
       Ok answers) /\
  (exists l,
     ApLeakyLimiter.__init__ requests_per_second (Some size) tt (frozen t) =
       (Ok l, tt, tick (frozen t)) /\
     result (calls n ApLeakyLimiter.allow_request l (tick (frozen t))) =
       Ok answers).
Proof.
  intros Hr Hs answers. apply Qleb_gt in Hr. split.
  - unfold ApToken.Limiter.__init__, ApToken.__init__, bind.
    rewrite Qleb_inject_Z_nonpos. apply Z.leb_gt in Hs. rewrite Hs, Hr.
    apply Z.leb_gt in Hs.
    eexists. split; [reflexivity|].
    apply (ap_token_calls_standing t n _ _ (Z.to_nat size)).
    + apply standing_tick, standing_frozen.
    + reflexivity.
    + simpl. rewrite Z2Nat.id by lia. reflexivity.
  - unfold ApLeakyLimiter.__init__, ApLeaky.__init__, bind.
    apply Z.leb_gt in Hs. rewrite Hs, Hr. apply Z.leb_gt in Hs.
    unfold time_time, on_new, for_range.
    replace (Z.to_nat (Z.min 0 size)) with 0%nat by lia.
    eexists. split; [reflexivity|].
    apply (ap_leaky_calls_standing t n _ _ (Z.to_nat size)).
    + apply standing_tick, standing_frozen.
    + reflexivity.
    + simpl. change (len []) with 0%Z. lia.
Qed.

Lemma ap_limiters_allow_exactly_their_size_in_a_burst_witness :
  let answers := replicate (Nat.min 15 (Z.to_nat 10)) true ++
                 replicate (15 - Z.to_nat 10) false in
  (exists l,
     ApToken.Limiter.__init__ 5 (Some 10%Z) tt (frozen 0) =
       (Ok l, tt, tick (frozen 0)) /\
     result (calls 15 ApToken.Limiter.allow_request l (tick (frozen 0))) =
       Ok answers) /\
  (exists l,
     ApLeakyLimiter.__init__ 5 (Some 10%Z) tt (frozen 0) =
       (Ok l, tt, tick (frozen 0)) /\
     result (calls 15 ApLeakyLimiter.allow_request l (tick (frozen 0))) =
       Ok answers).
Proof.
  apply (ap_limiters_allow_exactly_their_size_in_a_burst 5 0 10 15);
    reflexivity.
Defined.

(** X22 — [get_client_info] of the [Question 3] leaky-bucket limiter on a
    well-formed registry whose buckets have the limiter's capacity, for any
    client, registered or not, and any clock: it never raises and never
    registers or drops a client; the dictionary and the number of bucket
    objects are as before; the queue size it reports is not negative; and
    when it reports the bucket as full, the queue size it reports is at
    least the capacity it reports. *)
Theorem q3_leaky_get_client_info_consistent
  (mem : Q3Leaky.Limiter.State) (w : World) (c : string) :
  refs_wf (Q3Leaky.Limiter.buckets (this mem)) (heap mem) ->
  (forall b,
     bucket_of (Q3Leaky.Limiter.buckets (this mem)) (heap mem) c = Some b ->
     Q3Leaky.capacity b = Q3Leaky.Limiter.capacity (this mem)) ->
  exists info mem' w',
    Q3Leaky.Limiter.get_client_info c mem w = (Ok info, mem', w') /\
    this mem' = this mem /\
    length (heap mem') = length (heap mem) /\
    Q3Leaky.Limiter.info_client_id info = c /\
    Q3Leaky.Limiter.info_capacity info =
      Q3Leaky.Limiter.capacity (this mem) /\
    (0 <= Q3Leaky.Limiter.info_queue_size info)%Z /\
    (Q3Leaky.Limiter.info_is_full info = true ->
     (Q3Leaky.Limiter.info_capacity info <=
      Q3Leaky.Limiter.info_queue_size info)%Z).
Proof.
  intros [Hb Hi] Hcap.
  unfold Q3Leaky.Limiter.get_client_info, bind, get.
  destruct (Q3Leaky.Limiter.buckets (this mem) !! c) as [r0|] eqn:Hc.
  - unfold Q3Leaky.Limiter.getitem, bind, get. rewrite Hc. unfold ret at 1.
    destruct (lookup_lt_is_Some_2 (heap mem) r0) as [o Ho]; [eauto|].
    assert (Hco : Q3Leaky.capacity o = Q3Leaky.Limiter.capacity (this mem)).
    { apply Hcap. unfold bucket_of. now rewrite Hc. }
    rewrite (at_ref_run _ _ _ _ _ Ho).
    destruct (q3_leak_shrinks o w) as (E1 & Hc1 & _ & Hle1 & _).
    set (b1 := state (Q3Leaky._leak o w)) in *. clearbody b1.
    assert (Eq : Q3Leaky.get_queue_size o w =
                   (Ok (len (Q3Leaky.queue b1)), b1, tick w)).
    { unfold Q3Leaky.get_queue_size, bind. now rewrite E1. }
    rewrite Eq. unfold result, state, world. cbn [fst snd].
    assert (H1 : <[r0 := b1]> (heap mem) !! r0 = Some b1).
    { apply list_lookup_insert_eq. now apply lookup_lt_Some in Ho. }
    rewrite (at_ref_run r0 _ (mkMem (<[r0 := b1]> (heap mem)) (this mem))
               _ _ H1).
    destruct (q3_leak_shrinks b1 (tick w)) as (E2 & Hc2 & _ & Hle2 & _).
    set (b2 := state (Q3Leaky._leak b1 (tick w))) in *. clearbody b2.
    assert (Ef : Q3Leaky.is_full b1 (tick w) =
                   (Ok (Q3Leaky.capacity b2 <=? len (Q3Leaky.queue b2))%Z,
                    b2, tick (tick w))).
    { unfold Q3Leaky.is_full, bind. now rewrite E2. }
    rewrite Ef. unfold result, state, world, ret. cbn [fst snd this heap].
    eexists _, _, _. split; [reflexivity|]. cbn.
    split; [reflexivity|]. split; [now rewrite !length_insert|].
    do 2 (split; [reflexivity|]).
    split; [apply RlLeakyFacts.len_nonneg|].
    intros Hfull. apply Z.leb_le in Hfull. lia.
  - eexists _, mem, w. split; [reflexivity|]. simpl.
    do 4 (split; [reflexivity|]). split; [lia|discriminate].
Qed.

Lemma q3_leaky_get_client_info_consistent_witness :
  exists info mem' w',
    Q3Leaky.Limiter.get_client_info "bob" leaky_registry_with_bob (frozen 8) =
      (Ok info, mem', w') /\
    this mem' = this leaky_registry_with_bob /\
    length (heap mem') = length (heap leaky_registry_with_bob) /\
    Q3Leaky.Limiter.info_client_id info = "bob" /\
    Q3Leaky.Limiter.info_capacity info =
      Q3Leaky.Limiter.capacity (this leaky_registry_with_bob) /\
    (0 <= Q3Leaky.Limiter.info_queue_size info)%Z /\
    (Q3Leaky.Limiter.info_is_full info = true ->
     (Q3Leaky.Limiter.info_capacity info <=
      Q3Leaky.Limiter.info_queue_size info)%Z).
Proof.
  apply (q3_leaky_get_client_info_consistent leaky_registry_with_bob
           (frozen 8) "bob").
  - apply (refs_wf_register ∅ [] "bob" bob_leaky_bucket);
      [apply lookup_empty|apply refs_wf_empty].
  - intros b. unfold bucket_of, leaky_registry_with_bob; simpl.
    rewrite lookup_insert_eq. simpl. now intros [= <-].
Defined.
